(** * NodeSync: the sync monitor of the wallet (modules/nodeSync.js)

    A shallow embedding of the [NodeSync] class and of the part of its
    run time it relies on: Bluebird promises ([Q.try], [new Q], [then],
    [catch], [finally], [Q.delay], [Q.resolve]), timers ([_.delay]),
    the event emitter, the IPC channel of the skip signal and the JSON-RPC
    transport of the node ([ethereumNode.send]).

    The methods of the class are programs of a state-and-exception monad
    over a [world]; callbacks are defunctionalised into handler names whose
    bodies are the bodies of the arrow functions of the source.  The
    environment (callers, the node, the clock, the scheduler) is a labelled
    transition function [step]. *)

From Stdlib Require Import ZArith Lia Bool String List.
From stdpp Require Import base list.
Import ListNotations.
Local Open Scope string_scope.
Local Open Scope list_scope.
Local Open Scope Z_scope.

(** ** Data *)

(** A promise is named by its index in the promise heap. *)
Abbreviation pid := nat.

(** The [error] member of a JSON-RPC result. *)
Record rpc_error := RpcError { code : Z; message : string }.

(** A truthy RPC [result], read through the properties the code reads:
    [result.error] ([None] when absent), [blockResult.number], and
    [+blockResult.timestamp], which is [None] when the conversion to a
    number gives [NaN].  [rest] holds the remaining members. *)
Record rpc_object := RpcObject {
  error : option rpc_error;
  number : option Z;
  timestamp : option Z;
  rest : list (string * Z)
}.

(** The [result] member of a reply: falsy ([null], [undefined], [false])
    or an object. *)
Inductive jsval :=
| JFalsy
| JObject (o : rpc_object).

(** What can be thrown or be the reason of a rejection. *)
Inductive js_error :=
| NotConnected                     (* new Error('Cannot sync - Foicoin node not yet connected') *)
| UnexpectedError (e : rpc_error)  (* new Error(`Unexpected error: ${result.error}`) *)
| TransportError (msg : string)    (* a rejection of ethereumNode.send *)
| TypeError (msg : string).        (* calling a field that holds false, reading through undefined *)

(** The events the monitor emits. *)
Inductive event :=
| EvStarting
| EvNodeSyncing (result : jsval)
| EvFinished
| EvError (err : js_error)
| EvStopped.

Inductive level := Trace | Debug | Info | Warn | Error.

(** Modelled from the spec: [ethereumNode.STATES] is declared in
    modules/ethereumNode.js; the spec gives the lifecycle states as
    Starting, Connected, Stopping, Stopped and others. *)
Inductive node_state :=
| STARTING
| CONNECTED
| STOPPING
| STOPPED
| OTHER (n : nat).

(** The arrow functions of the source that are passed to [then]. *)
Inductive then_handler :=
| start_then                       (* line 58: () => { this.emit('finished') } *)
| stop_then                        (* line 87: () => { this.emit('stopped') } *)
| sync_then                        (* line 112: ret => { ... } *)
| sync_block_then (result : jsval) (* line 140: ret2 => { ... }, closed over result *)
| restart_then.                    (* line 192: () => { this.start() } *)

Inductive catch_handler :=
| start_catch                      (* line 61: err => { ... emit('error', err) } *)
| sync_catch.                      (* line 171: err => { ... this._onSyncError(err) } *)

Inductive finally_handler :=
| start_finally.                   (* line 66: () => { ... this._clearState() } *)

Inductive reaction :=
| RThen (h : then_handler)
| RCatch (h : catch_handler)
| RFinally (h : finally_handler)
| RFollow.                         (* the target adopts the state of the source *)

Inductive value :=
| VUndefined
| VResponse (result : jsval)       (* ret, with ret.result *)
| VPromise (p : pid).

Inductive outcome :=
| Fulfilled (v : value)
| Rejected (e : js_error).

Inductive pstate :=
| Pending
| Following (q : pid)
| Settled (o : outcome).

(** Where a promise was made.  Nothing in the semantics reads it. *)
Inductive site :=
| SNew                             (* new Q(executor) *)
| STry                             (* Q.try(fn) *)
| SDelay (due : Z)                 (* Q.delay(ms) *)
| SSend (method : string)          (* ethereumNode.send(method, params) *)
| SChain (src : pid) (r : reaction). (* src.then(h), src.catch(h), src.finally(h) *)

Record cell := Cell {
  st : pstate;
  reacts : list (reaction * pid);
  made : site
}.

Inductive timer_task :=
| TTick                            (* the callback of _.delay in _sync *)
| TResolve (p : pid).              (* the timer of Q.delay *)

Definition job := (reaction * pid * outcome)%type.

(** The fields of the [NodeSync] instance; [None] and [false] stand for
    a field that is [undefined] or [false]. *)
Record NodeSync := Build_NodeSync {
  _syncPromise : option pid;
  _syncInProgress : bool;
  _onSyncDone : option pid;        (* the resolve function of that promise *)
  _onSyncError : option pid        (* the reject function of that promise *)
}.

Record world := World {
  this : NodeSync;
  isIpcConnected : bool;           (* ethereumNode.isIpcConnected *)
  skipListeners : nat;             (* listeners of ipc 'backendAction_skipSync' *)
  clock : Z;                       (* milliseconds *)
  heap : list cell;
  jobs : list job;                 (* queued promise reactions *)
  timers : list (Z * timer_task);
  inflight : list (pid * string);  (* RPC calls awaiting their reply *)
  emitted : list event;            (* the calls of this.emit, in order *)
  logged : list (level * string);
  errorListener : bool             (* a listener of 'error' is registered *)
}.

Definition SYNC_CHECK_INTERVAL_MS : Z := 2000.

(** ** Field updates *)

Definition set_this (x : NodeSync) (w : world) : world :=
  World x (isIpcConnected w) (skipListeners w) (clock w) (heap w) (jobs w)
    (timers w) (inflight w) (emitted w) (logged w) (errorListener w).
Definition set_isIpcConnected (x : bool) (w : world) : world :=
  World (this w) x (skipListeners w) (clock w) (heap w) (jobs w)
    (timers w) (inflight w) (emitted w) (logged w) (errorListener w).
Definition set_skipListeners (x : nat) (w : world) : world :=
  World (this w) (isIpcConnected w) x (clock w) (heap w) (jobs w)
    (timers w) (inflight w) (emitted w) (logged w) (errorListener w).
Definition set_clock (x : Z) (w : world) : world :=
  World (this w) (isIpcConnected w) (skipListeners w) x (heap w) (jobs w)
    (timers w) (inflight w) (emitted w) (logged w) (errorListener w).
Definition set_heap (x : list cell) (w : world) : world :=
  World (this w) (isIpcConnected w) (skipListeners w) (clock w) x (jobs w)
    (timers w) (inflight w) (emitted w) (logged w) (errorListener w).
Definition set_jobs (x : list job) (w : world) : world :=
  World (this w) (isIpcConnected w) (skipListeners w) (clock w) (heap w) x
    (timers w) (inflight w) (emitted w) (logged w) (errorListener w).
Definition set_timers (x : list (Z * timer_task)) (w : world) : world :=
  World (this w) (isIpcConnected w) (skipListeners w) (clock w) (heap w) (jobs w)
    x (inflight w) (emitted w) (logged w) (errorListener w).
Definition set_inflight (x : list (pid * string)) (w : world) : world :=
  World (this w) (isIpcConnected w) (skipListeners w) (clock w) (heap w) (jobs w)
    (timers w) x (emitted w) (logged w) (errorListener w).
Definition set_emitted (x : list event) (w : world) : world :=
  World (this w) (isIpcConnected w) (skipListeners w) (clock w) (heap w) (jobs w)
    (timers w) (inflight w) x (logged w) (errorListener w).
Definition set_logged (x : list (level * string)) (w : world) : world :=
  World (this w) (isIpcConnected w) (skipListeners w) (clock w) (heap w) (jobs w)
    (timers w) (inflight w) (emitted w) x (errorListener w).
Definition set_errorListener (x : bool) (w : world) : world :=
  World (this w) (isIpcConnected w) (skipListeners w) (clock w) (heap w) (jobs w)
    (timers w) (inflight w) (emitted w) (logged w) x.

(** ** The monad: state, and JavaScript exceptions *)

Inductive result (A : Type) :=
| Normal (a : A)
| Throw (e : js_error).
Arguments Normal {A} a.
Arguments Throw {A} e.

Definition M (A : Type) : Type := world -> result A * world.

Definition ret {A} (a : A) : M A := fun w => (Normal a, w).

Definition bind {A B} (m : M A) (k : A -> M B) : M B :=
  fun w =>
    match m w with
    | (Normal a, w') => k a w'
    | (Throw e, w') => (Throw e, w')
    end.

Definition throw {A} (e : js_error) : M A := fun w => (Throw e, w).

(** [try_ m] runs [m] and hands its completion to the caller, as the
    promise library does around every callback. *)
Definition try_ {A} (m : M A) : M (result A) :=
  fun w => let (r, w') := m w in (Normal r, w').

Definition gets {A} (f : world -> A) : M A := fun w => (Normal (f w), w).
Definition modify (f : world -> world) : M unit := fun w => (Normal tt, f w).

(** The world after running [m]; an exception that reaches the top of a
    turn of the event loop is reported by the host and the state stays as
    the turn left it. *)
Definition exec {A} (m : M A) (w : world) : world := snd (m w).

Declare Scope js_scope.
Delimit Scope js_scope with js.
Notation "'let*' x := m 'in' k" := (bind m (fun x => k))
  (at level 10, x name, m at level 100, k at level 200) : js_scope.
Notation "m ;; k" := (bind m (fun _ => k))
  (at level 100, k at level 200, right associativity) : js_scope.
Local Open Scope js_scope.

(** ** The run time *)

(** [this.emit(e)].  The class extends Node's [EventEmitter] and the
    listeners belong to other modules: the model records the call and
    takes the listeners that are called to return normally.  An ['error']
    event is special: when no listener is registered for it,
    [emit('error', err)] throws [err].  The module registers none, so the
    exported instance starts without one. *)
Definition emit (e : event) : M unit :=
  modify (fun w => set_emitted (emitted w ++ [e]) w) ;;
  match e with
  | EvError err =>
      let* listened := gets errorListener in
      if listened then ret tt else throw err
  | _ => ret tt
  end.

Definition log (l : level) (msg : string) : M unit :=
  modify (fun w => set_logged (logged w ++ [(l, msg)]) w).

(** A new pending promise. *)
Definition alloc (s : site) : M pid :=
  fun w => (Normal (length (heap w)), set_heap (heap w ++ [Cell Pending [] s]) w).

Definition set_state (p : pid) (s : pstate) : M unit :=
  modify (fun w =>
    match heap w !! p with
    | Some c => set_heap (<[p := Cell s (reacts c) (made c)]> (heap w)) w
    | None => w
    end).

(** The promise becomes settled and each of its reactions is queued. *)
Definition settle (p : pid) (o : outcome) : M unit :=
  modify (fun w =>
    match heap w !! p with
    | Some c =>
        set_jobs (jobs w ++ map (fun rt => (fst rt, snd rt, o)) (reacts c))
          (set_heap (<[p := Cell (Settled o) [] (made c)]> (heap w)) w)
    | None => w
    end).

(** [q] gets the reaction [r] with target [t]: it is stored while [q] is
    unsettled and queued at once when [q] is settled already. *)
Definition subscribe (q : pid) (r : reaction) (t : pid) : M unit :=
  modify (fun w =>
    match heap w !! q with
    | Some c =>
        match st c with
        | Settled o => set_jobs (jobs w ++ [(r, t, o)]) w
        | _ => set_heap (<[q := Cell (st c) (reacts c ++ [(r, t)]) (made c)]> (heap w)) w
        end
    | None => w
    end).

Definition state_of (w : world) (p : pid) : option pstate :=
  st <$> heap w !! p.

(** A pending promise is fulfilled with a value that is not a promise. *)
Definition fulfil (p : pid) (v : value) : M unit :=
  let* s := gets (fun w => state_of w p) in
  match s with
  | Some Pending => settle p (Fulfilled v)
  | _ => ret tt
  end.

(** The [resolve] function of [p]: only the first call of [resolve] or
    [reject] has an effect; resolving with a promise makes [p] follow it. *)
Definition resolve (p : pid) (v : value) : M unit :=
  match v with
  | VPromise q =>
      let* s := gets (fun w => state_of w p) in
      match s with
      | Some Pending => set_state p (Following q) ;; subscribe q RFollow p
      | _ => ret tt
      end
  | _ => fulfil p v
  end.

(** The [reject] function of [p]. *)
Definition reject (p : pid) (e : js_error) : M unit :=
  let* s := gets (fun w => state_of w p) in
  match s with
  | Some Pending => settle p (Rejected e)
  | _ => ret tt
  end.

(** How a promise ends with the completion of the callback it waited for. *)
Definition complete (t : pid) (x : result value) : M unit :=
  match x with
  | Normal v => resolve t v
  | Throw e => reject t e
  end.

(** [Q.try(fn)]: [fn] runs now, the promise takes its completion. *)
Definition Q_try (fn : M value) : M pid :=
  let* t := alloc STry in
  let* x := try_ fn in
  complete t x ;;
  ret t.

(** [new Q(executor)]: the executor runs now with the resolving functions
    of the new promise. *)
Definition Q_new (executor : pid -> M unit) : M pid :=
  let* p := alloc SNew in
  let* x := try_ (executor p) in
  match x with
  | Normal _ => ret tt
  | Throw e => reject p e
  end ;;
  ret p.

(** [Q.delay(ms)]. *)
Definition Q_delay (ms : Z) : M pid :=
  let* now := gets clock in
  let* p := alloc (SDelay (now + ms)) in
  modify (fun w => set_timers (timers w ++ [(now + ms, TResolve p)]) w) ;;
  ret p.

(** [Q.resolve(p)] of a promise of the library is [p] itself. *)
Definition Q_resolve (p : pid) : M pid := ret p.

(** [_.delay(fn, ms)] with the callback of [_sync]. *)
Definition delay_tick (ms : Z) : M unit :=
  modify (fun w => set_timers (timers w ++ [(clock w + ms, TTick)]) w).

(** [ethereumNode.send(method, params)]. *)
Definition send (method : string) : M pid :=
  let* p := alloc (SSend method) in
  modify (fun w => set_inflight (inflight w ++ [(p, method)]) w) ;;
  ret p.

Definition chain (q : pid) (r : reaction) : M pid :=
  let* t := alloc (SChain q r) in
  subscribe q r t ;;
  ret t.

Definition then_ (q : pid) (h : then_handler) : M pid := chain q (RThen h).
Definition catch_ (q : pid) (h : catch_handler) : M pid := chain q (RCatch h).
Definition finally_ (q : pid) (h : finally_handler) : M pid := chain q (RFinally h).

(** [ipc.on('backendAction_skipSync', ...)] and [ipc.removeAllListeners]. *)
Definition ipc_on_skipSync : M unit :=
  modify (fun w => set_skipListeners (S (skipListeners w)) w).
Definition ipc_removeAllListeners : M unit :=
  modify (set_skipListeners 0%nat).

(** A call of the field [_onSyncDone] or [_onSyncError]. *)
Definition call_onSyncDone : M unit :=
  let* f := gets (fun w => _onSyncDone (this w)) in
  match f with
  | Some r => resolve r VUndefined
  | None => throw (TypeError "this._onSyncDone is not a function")
  end.

Definition call_onSyncError (err : js_error) : M unit :=
  let* f := gets (fun w => _onSyncError (this w)) in
  match f with
  | Some r => reject r err
  | None => throw (TypeError "this._onSyncError is not a function")
  end.

(** ** The class NodeSync *)

Definition set__syncPromise (x : option pid) : M unit :=
  modify (fun w => set_this
    (Build_NodeSync x (_syncInProgress (this w)) (_onSyncDone (this w)) (_onSyncError (this w))) w).
Definition set__syncInProgress (x : bool) : M unit :=
  modify (fun w => set_this
    (Build_NodeSync (_syncPromise (this w)) x (_onSyncDone (this w)) (_onSyncError (this w))) w).
Definition set__onSyncDone (x : option pid) : M unit :=
  modify (fun w => set_this
    (Build_NodeSync (_syncPromise (this w)) (_syncInProgress (this w)) x (_onSyncError (this w))) w).
Definition set__onSyncError (x : option pid) : M unit :=
  modify (fun w => set_this
    (Build_NodeSync (_syncPromise (this w)) (_syncInProgress (this w)) (_onSyncDone (this w)) x) w).

(** The instance after [_clearState]: the four fields hold [false]. *)
Definition cleared : NodeSync := Build_NodeSync None false None None.

(** Lines 94-98. *)
Definition _clearState : M unit :=
  ipc_removeAllListeners ;;
  modify (set_this cleared).

(** Lines 100-177: [_sync] only arms the timer; [sync_tick] is its
    callback. *)
Definition _sync : M unit := delay_tick SYNC_CHECK_INTERVAL_MS.

(** Lines 48-53, the listener of the skip signal. *)
Definition skip_listener : M unit :=
  ipc_removeAllListeners ;;
  log Info "Sync has been skipped" ;;
  call_onSyncDone.

(** Lines 39-56, the executor of the session promise. *)
Definition start_executor (resolve_reject : pid) : M unit :=
  log Info "Starting sync loop" ;;
  set__syncInProgress true ;;
  set__onSyncDone (Some resolve_reject) ;;
  set__onSyncError (Some resolve_reject) ;;
  emit EvStarting ;;
  ipc_on_skipSync ;;
  _sync.

(** Lines 27-73. *)
Definition start : M pid :=
  let* sp := gets (fun w => _syncPromise (this w)) in
  match sp with
  | Some p =>
      log Warn "Sync already in progress, returning Promise" ;;
      Q_resolve p
  | None =>
      let* p0 := Q_try (
        let* connected := gets isIpcConnected in
        if negb connected then throw NotConnected
        else
          let* p := Q_new start_executor in
          ret (VPromise p)) in
      let* p1 := then_ p0 start_then in
      let* p2 := catch_ p1 start_catch in
      let* p3 := finally_ p2 start_finally in
      set__syncPromise (Some p3) ;;
      ret p3
  end.

(** Lines 78-92. *)
Definition stop : M pid :=
  Q_try (
    let* in_progress := gets (fun w => _syncInProgress (this w)) in
    if negb in_progress then
      log Debug "Sync not already in progress." ;;
      ret VUndefined
    else
      log Info "Stopping sync loop" ;;
      _clearState ;;
      let* pd := Q_delay SYNC_CHECK_INTERVAL_MS in
      let* d := then_ pd stop_then in
      ret (VPromise d)).

(** [ret.result]. *)
Definition result_of (ret_ : value) : M jsval :=
  match ret_ with
  | VResponse r => ret r
  | VPromise _ => ret JFalsy
  | VUndefined => throw (TypeError "Cannot read property 'result' of undefined")
  end.

(** [diff > 60] for [diff = now - +blockResult.timestamp]; a comparison
    with [NaN] is false. *)
Definition diff_gt_60 (now : Z) (ts : option Z) : bool :=
  match ts with
  | Some t => 60 <? now - t
  | None => false
  end.

(** Lines 140-168, the callback of the block query. *)
Definition on_latest_block (result : jsval) (ret2 : value) : M value :=
  let* blockResult := result_of ret2 in
  let* now := gets (fun w => clock w / 1000) in
  match blockResult with
  | JFalsy => _sync ;; ret VUndefined
  | JObject b =>
      log Debug "Last block" ;;
      if diff_gt_60 now (timestamp b) then
        emit (EvNodeSyncing result) ;;
        log Trace "Keep syncing..." ;;
        _sync ;;
        ret VUndefined
      else
        log Info "No more sync necessary" ;;
        call_onSyncDone ;;
        ret VUndefined
  end.

(** Lines 112-170, the callback of the sync-status query. *)
Definition on_sync_status (ret_ : value) : M value :=
  let* result := result_of ret_ in
  match result with
  | JObject o =>
      log Trace "Sync status" ;;
      match error o with
      | Some e =>
          if code e =? -32601 then
            log Warn "Sync method not implemented, skipping sync." ;;
            call_onSyncDone ;;
            ret VUndefined
          else throw (UnexpectedError e)
      | None =>
          emit (EvNodeSyncing result) ;;
          _sync ;;
          ret VUndefined
      end
  | JFalsy =>
      log Debug "Check latest block number" ;;
      let* p2 := send "eth_getBlockByNumber" in
      let* d2 := then_ p2 (sync_block_then result) in
      ret (VPromise d2)
  end.

(** Lines 101-176, the callback of the timer of [_sync]. *)
Definition sync_tick : M unit :=
  let* in_progress := gets (fun w => _syncInProgress (this w)) in
  if negb in_progress then
    log Debug "Sync no longer in progress, so ending sync loop."
  else
    log Trace "Check sync status" ;;
    let* p := send "eth_syncing" in
    let* d := then_ p sync_then in
    let* c := catch_ d sync_catch in
    ret tt.

(** Lines 179-197. *)
Definition _onNodeStateChanged (state : node_state) : M unit :=
  match state with
  | STOPPING =>
      log Info "Foicoin node stopping, so stop sync" ;;
      let* _p := stop in
      ret tt
  | CONNECTED =>
      log Info "Foicoin node connected, re-start sync" ;;
      let* sp := stop in
      let* _p := then_ sp restart_then in
      ret tt
  | _ => ret tt
  end.

(** ** The bodies of the callbacks *)

Definition run_then (h : then_handler) (arg : value) : M value :=
  match h with
  | start_then => emit EvFinished ;; ret VUndefined
  | stop_then => emit EvStopped ;; ret VUndefined
  | sync_then => on_sync_status arg
  | sync_block_then result => on_latest_block result arg
  | restart_then => let* _p := start in ret VUndefined
  end.

Definition run_catch (h : catch_handler) (err : js_error) : M value :=
  match h with
  | start_catch =>
      log Error "Sync error" ;;
      emit (EvError err) ;;
      ret VUndefined
  | sync_catch =>
      log Error "Node crashed while syncing?" ;;
      call_onSyncError err ;;
      ret VUndefined
  end.

Definition run_finally (h : finally_handler) : M value :=
  match h with
  | start_finally =>
      log Info "Sync loop ended" ;;
      _clearState ;;
      ret VUndefined
  end.

(** ** The event loop *)

(** The target of a follow reaction takes the outcome of its source. *)
Definition adopt (t : pid) (o : outcome) : M unit :=
  let* s := gets (fun w => state_of w t) in
  match s with
  | Some (Following _) => settle t o
  | _ => ret tt
  end.

(** One queued reaction: the handler runs and its completion decides the
    target; a reaction of the other kind passes the outcome on. *)
Definition run_job (j : job) : M unit :=
  match j with
  | (RThen h, t, Fulfilled v) => let* x := try_ (run_then h v) in complete t x
  | (RThen _, t, Rejected e) => reject t e
  | (RCatch h, t, Rejected e) => let* x := try_ (run_catch h e) in complete t x
  | (RCatch _, t, Fulfilled v) => fulfil t v
  | (RFinally h, t, o) =>
      let* x := try_ (run_finally h) in
      match x, o with
      | Throw e, _ => reject t e
      | Normal _, Fulfilled v => fulfil t v
      | Normal _, Rejected e => reject t e
      end
  | (RFollow, t, o) => adopt t o
  end.

Definition fire (tk : timer_task) : M unit :=
  match tk with
  | TTick => sync_tick
  | TResolve p => resolve p VUndefined
  end.

(** The reply of the node to a call of [send]. *)
Inductive rpc_reply :=
| Response (result : jsval)
| Failure (msg : string).

Definition answer (p : pid) (r : rpc_reply) : M unit :=
  match r with
  | Response result => resolve p (VResponse result)
  | Failure msg => reject p (TransportError msg)
  end.

(** The listeners registered at the time of the signal are all called; an
    exception of one of them ends the delivery. *)
Fixpoint call_listeners (n : nat) (l : M unit) : M unit :=
  match n with
  | O => ret tt
  | S n' => l ;; call_listeners n' l
  end.

(** What the environment can do.  The library runs the queued reactions
    first in, first out; here the scheduler may take any of them, and any
    timer that is due, which covers every order the host can choose. *)
Inductive action :=
| CallStart                        (* a caller runs nodeSync.start() *)
| CallStop                         (* a caller runs nodeSync.stop() *)
| NodeState (s : node_state)       (* ethereumNode emits 'state' *)
| SetConnected (b : bool)          (* ethereumNode.isIpcConnected changes *)
| SetErrorListener (b : bool)      (* a module adds or removes its 'error' listener *)
| SkipSync                         (* ipc delivers 'backendAction_skipSync' *)
| Advance (dt : Z)                 (* time passes *)
| Fire (i : nat)                   (* the i-th pending timer, being due, fires *)
| Answer (i : nat) (r : rpc_reply) (* the i-th pending RPC call completes *)
| RunJob (i : nat).                (* the i-th queued promise reaction runs *)

Definition step (a : action) (w : world) : option world :=
  match a with
  | CallStart => Some (exec start w)
  | CallStop => Some (exec stop w)
  | NodeState s => Some (exec (_onNodeStateChanged s) w)
  | SetConnected b => Some (set_isIpcConnected b w)
  | SetErrorListener b => Some (set_errorListener b w)
  | SkipSync => Some (exec (call_listeners (skipListeners w) skip_listener) w)
  | Advance dt => if 0 <=? dt then Some (set_clock (clock w + dt) w) else None
  | Fire i =>
      match timers w !! i with
      | Some (due, tk) =>
          if due <=? clock w
          then Some (exec (fire tk) (set_timers (delete i (timers w)) w))
          else None
      | None => None
      end
  | Answer i r =>
      match inflight w !! i with
      | Some (p, _) => Some (exec (answer p r) (set_inflight (delete i (inflight w)) w))
      | None => None
      end
  | RunJob i =>
      match jobs w !! i with
      | Some j => Some (exec (run_job j) (set_jobs (delete i (jobs w)) w))
      | None => None
      end
  end.

Fixpoint run (acts : list action) (w : world) : option world :=
  match acts with
  | [] => Some w
  | a :: acts' =>
      match step a w with
      | Some w' => run acts' w'
      | None => None
      end
  end.

(** The module exports one instance; its constructor subscribes to the
    node states and leaves the fields undefined.  Nothing listens to its
    events yet. *)
Definition init : world :=
  World (Build_NodeSync None false None None) false 0 0 [] [] [] [] [] [] false.

Definition reachable (w : world) : Prop :=
  exists acts, run acts init = Some w.

Definition reachable_from (w w' : world) : Prop :=
  exists acts, run acts w = Some w'.



(** A status object of a node that is syncing. *)
Definition syncing_status : jsval :=
  JObject (RpcObject None None None [("currentBlock", 5); ("highestBlock", 100)]).

(** No promise of [w] is changed in [w']. *)
Definition promises_untouched (w w' : world) : Prop :=
  forall p c, heap w !! p = Some c -> heap w' !! p = Some c.

(** ** The invariant of the promise heap *)

(** Facts about a promise that stay true once they are: where it was
    made, and how it was settled. *)
Definition made_at (w : world) (p : pid) (s : site) : Prop :=
  exists c, heap w !! p = Some c /\ made c = s.

Definition settled_with (w : world) (p : pid) (o : outcome) : Prop :=
  exists c, heap w !! p = Some c /\ st c = Settled o.

Definition is_settled (w : world) (p : pid) : Prop :=
  exists o, settled_with w p o.

(** A promise of [Q.delay] leaves the pending state only when its time
    has come, a promise of a chain only when its source is settled. *)
Definition cell_ok (w : world) (c : cell) : Prop :=
  match made c with
  | SDelay due => st c <> Pending -> due <= clock w
  | SChain src r =>
      r <> RFollow /\
      (st c <> Pending -> is_settled w src)
  | _ => True
  end.

(** A stored reaction: its target was made by that call, or follows the
    promise that holds the reaction. *)
Definition react_ok (w : world) (q : pid) (rt : reaction * pid) : Prop :=
  match rt.1 with
  | RFollow =>
      exists ct, heap w !! rt.2 = Some ct /\ st ct <> Pending /\
                 forall q', st ct = Following q' -> q' = q
  | r => made_at w rt.2 (SChain q r)
  end.

(** A queued reaction carries the outcome of the source of its target. *)
Definition job_ok (w : world) (j : job) : Prop :=
  match j.1.1 with
  | RFollow =>
      exists ct, heap w !! j.1.2 = Some ct /\ st ct <> Pending /\
                 forall q, st ct = Following q -> settled_with w q j.2
  | r => exists src, made_at w j.1.2 (SChain src r) /\ settled_with w src j.2
  end.

Record Inv (w : world) : Prop := {
  inv_done : forall r, _onSyncDone (this w) = Some r -> made_at w r SNew;
  inv_error : forall r, _onSyncError (this w) = Some r -> made_at w r SNew;
  inv_promise : forall p, _syncPromise (this w) = Some p ->
      exists src, made_at w p (SChain src (RFinally start_finally));
  inv_timers : forall due p, (due, TResolve p) ∈ timers w -> made_at w p (SDelay due);
  inv_inflight : forall p m, (p, m) ∈ inflight w -> made_at w p (SSend m);
  inv_jobs : forall j, j ∈ jobs w -> job_ok w j;
  inv_reacts : forall q c rt, heap w !! q = Some c -> rt ∈ reacts c -> react_ok w q rt;
  inv_cells : forall p c, heap w !! p = Some c -> cell_ok w c
}.

(** How the state of a promise moves: not at all, away from pending, or
    from following to settled. *)
Definition state_le (w' : world) (s s' : pstate) : Prop :=
  s = s' \/ s = Pending \/
  exists q o, s = Following q /\ s' = Settled o /\ settled_with w' q o.

(** [w'] is a later world than [w]: the clock has not gone back, the
    promises of [w] are still there, made where they were, and their
    states have moved forward; a promise that followed another one is
    settled as that one. *)
Definition ext (w w' : world) : Prop :=
  clock w <= clock w' /\
  forall p c, heap w !! p = Some c ->
    exists c', heap w' !! p = Some c' /\ made c' = made c /\ state_le w' (st c) (st c').

Definition stable (P : world -> Prop) : Prop :=
  forall w w', ext w w' -> P w -> P w'.

(** [m], run in a world that satisfies the invariant and [P], keeps the
    invariant, leads to a later world and, when it returns [a], to [Q a]. *)
Definition ok {A} (m : M A) (P : world -> Prop) (Q : A -> world -> Prop) : Prop :=
  forall w, Inv w -> P w ->
    Inv (m w).2 /\ ext w (m w).2 /\ forall a, (m w).1 = Normal a -> Q a (m w).2.

(** When a promise may be settled, as far as where it was made tells. *)
Definition may_settle (w : world) (t : pid) (o : outcome) : Prop :=
  exists s, made_at w t s /\
    match s with
    | SDelay due => due <= clock w
    | SChain src r => is_settled w src
    | _ => True
    end.

(** When a promise may be resolved with a value. *)
Definition may_resolve (w : world) (t : pid) (v : value) : Prop :=
  exists s, made_at w t s /\
    match s with
    | SDelay due => due <= clock w
    | SChain src r => is_settled w src
    | _ => True
    end.

(** What [subscribe q r t] needs to know of the target. *)
Definition may_subscribe (w : world) (q : pid) (r : reaction) (t : pid) : Prop :=
  match r with
  | RFollow => exists ct, heap w !! t = Some ct /\ st ct = Following q
  | _ => made_at w t (SChain q r)
  end.

(** A site at which a promise may be made. *)
Definition site_ok (w : world) (s : site) : Prop :=
  match s with
  | SChain src r => r <> RFollow
  | _ => True
  end.

Definition any : world -> Prop := fun _ => True.

(** A monitor whose session is in progress, 1120 s after the start of the
    clock; it is reached by
    [Advance 1120000; SetConnected true; CallStart]. *)
Definition active_world : world :=
  exec start (set_isIpcConnected true (set_clock 1120000 init)).

(** A monitor that is connected and idle. *)
Definition connected_world : world := set_isIpcConnected true init.

(** The error payload of a node without the sync-status method, and
    another one. *)
Definition method_not_found : rpc_object :=
  RpcObject (Some (RpcError (-32601) "Method not found")) None None [].


(** A latest block of second 1000 and one of second 1115. *)
Definition stale_block : rpc_object := RpcObject None (Some 7) (Some 1000) [].
Definition fresh_block : rpc_object := RpcObject None (Some 9) (Some 1115) [].

(** The world after the actions [acts], when each of them is enabled. *)
Definition after (acts : list action) (w : world) : world :=
  match run acts w with
  | Some w' => w'
  | None => w
  end.

(** A monitor whose session was stopped while its first call was in
    flight. *)
Definition stopped_world : world :=
  after [SetConnected true; CallStart; Advance 2000; Fire 0%nat; CallStop] init.



(** ** Sessions and rounds of the polling loop *)

(** How the reply to a call of a session that was started in [w] and
    stopped while the call was in flight has ended in [w']: the callbacks
    found the resolving fields cleared. *)
Definition reply_dropped (w w' : world) : Prop :=
  let n := length (heap w) in
  emitted w' = emitted w ++ [EvStarting] /\
  this w' = cleared /\
  jobs w' = jobs w /\
  inflight w' = inflight w /\
  timers w' = timers w ++ [(clock w + 2000 + 2000, TResolve (n + 9)%nat)] /\
  state_of w' (n + 7)%nat
    = Some (Settled (Rejected (TypeError "this._onSyncError is not a function"))) /\
  state_of w' (n + 1)%nat = Some Pending /\
  state_of w' (n + 4)%nat = Some Pending.

(** What the node answers in one round of the polling loop while it is
    still syncing: a status object, no status and no block yet, or no
    status and a latest block. *)
Inductive poll_reply :=
| PStatus (o : rpc_object)
| PNoBlock
| PBlock (b : rpc_object).

(** One round: the interval passes, the tick fires, the node answers and
    the queued reactions run.  [i], [j] and [k] are the places of the
    tick among the timers, of the call among the calls in flight and of
    the reaction among the queued ones. *)
Definition poll_round (i j k : nat) (r : poll_reply) : list action :=
  [Advance 2000; Fire i] ++
  match r with
  | PStatus o => [Answer j (Response (JObject o)); RunJob k; RunJob k]
  | PNoBlock =>
      [Answer j (Response JFalsy); RunJob k;
       Answer j (Response JFalsy); RunJob k; RunJob k; RunJob k]
  | PBlock b =>
      [Answer j (Response JFalsy); RunJob k;
       Answer j (Response (JObject b)); RunJob k; RunJob k; RunJob k]
  end.

(** The progress event of a round. *)
Definition poll_event (r : poll_reply) : list event :=
  match r with
  | PStatus o => [EvNodeSyncing (JObject o)]
  | PNoBlock => []
  | PBlock _ => [EvNodeSyncing JFalsy]
  end.

(** The reply, read at the time [now] in ms, says that the node is still
    syncing: a status object without error, no block, or a block that is
    more than 60 s old. *)
Definition keeps_polling (now : Z) (r : poll_reply) : bool :=
  match r with
  | PStatus o => match error o with None => true | Some _ => false end
  | PNoBlock => true
  | PBlock b => diff_gt_60 (now / 1000) (timestamp b)
  end.

(** The replies of rounds that start at [now] and follow each other at
    the interval. *)
Fixpoint still_syncing (now : Z) (rs : list poll_reply) : bool :=
  match rs with
  | [] => true
  | r :: rs' => keeps_polling (now + 2000) r && still_syncing (now + 2000) rs'
  end.

(** ** Invariants of the fields, the timers and the calls *)

(** The fields of a session go together.  While a session is in progress
    the resolving functions are those of one promise, the session promise
    is there and at most one listener of the skip signal is registered;
    otherwise the resolving fields are cleared and no listener is
    registered. *)
Definition fields_ok (w : world) : Prop :=
  if _syncInProgress (this w) then
    (exists r, _onSyncDone (this w) = Some r /\ _onSyncError (this w) = Some r) /\
    _syncPromise (this w) <> None /\
    (skipListeners w <= 1)%nat
  else
    _onSyncDone (this w) = None /\
    _onSyncError (this w) = None /\
    skipListeners w = 0%nat.

(** No timer is armed for later than one interval from now. *)
Definition timers_ok (w : world) : Prop :=
  forall due tk, (due, tk) ∈ timers w -> due <= clock w + SYNC_CHECK_INTERVAL_MS.

(** Each timer of [w] is a timer of [w0], armed for the time it was armed
    for there, or was armed since [w0], for one interval after a time
    between the two. *)
Definition armed_since (w0 w : world) : Prop :=
  clock w0 <= clock w /\
  forall due tk,
    (due, tk) ∈ timers w ->
    (due, tk) ∈ timers w0 \/
    clock w0 + SYNC_CHECK_INTERVAL_MS <= due <= clock w + SYNC_CHECK_INTERVAL_MS.

(** The calls in flight are calls of the two methods of [_sync]. *)
Definition calls_ok (w : world) : Prop :=
  forall p m, (p, m) ∈ inflight w -> m = "eth_syncing" \/ m = "eth_getBlockByNumber".

(** [m] keeps the property [I] of the world, however it completes. *)
Definition keeps {A} (I : world -> Prop) (m : M A) : Prop :=
  forall w, I w -> I (m w).2.

(** [w'] differs from [w] at most in the promises, the queued reactions,
    the events and the log. *)
Definition same_core (w w' : world) : Prop :=
  this w' = this w /\
  isIpcConnected w' = isIpcConnected w /\
  skipListeners w' = skipListeners w /\
  clock w' = clock w /\
  timers w' = timers w /\
  inflight w' = inflight w.

(** The promise [r] was made by [new Q], it is pending, and the
    resolving fields do not hold its functions: the session it stood for
    has been stopped. *)
Definition orphan (r : pid) (w : world) : Prop :=
  (exists c, heap w !! r = Some c /\ st c = Pending /\ made c = SNew) /\
  _onSyncDone (this w) <> Some r /\
  _onSyncError (this w) <> Some r.

(** ** The events of a session *)

Fixpoint total {A} (f : A -> nat) (l : list A) : nat :=
  match l with
  | [] => 0%nat
  | x :: l' => (f x + total f l')%nat
  end.

Definition count {A} (f : A -> bool) (l : list A) : nat :=
  total (fun x => if f x then 1%nat else 0%nat) l.

Definition is_starting (e : event) : bool :=
  match e with EvStarting => true | _ => false end.

Definition is_finished (e : event) : bool :=
  match e with EvFinished => true | _ => false end.

(** The reaction of [start()] that emits [finished], stored with a
    promise or queued with the fulfilment of its source. *)
Definition finishing_react (rt : reaction * pid) : bool :=
  match rt.1 with RThen start_then => true | _ => false end.

Definition finishing_job (j : job) : bool :=
  match j with
  | (RThen start_then, _, Fulfilled _) => true
  | _ => false
  end.

(** The [finished] events that may still come. *)
Definition finish_tokens (w : world) : nat :=
  (total (fun c => count finishing_react (reacts c)) (heap w)
   + count finishing_job (jobs w))%nat.

(** At every point of the trace there have been at least as many
    [starting] events as [finished] events. *)
Definition balanced (l : list event) : Prop :=
  forall l1 l2, l = l1 ++ l2 -> (count is_finished l1 <= count is_starting l1)%nat.

Definition finish_budget (w : world) : Prop :=
  balanced (emitted w) /\
  (count is_finished (emitted w) + finish_tokens w <= count is_starting (emitted w))%nat.
(** * Lemmas *)

(** ** Running the code on a symbolic world *)

Lemma run_bind {A B} (m : M A) (k : A -> M B) w r w1 x :
  m w = (r, w1) ->
  match r with
  | Normal a => k a w1
  | Throw e => (Throw e, w1)
  end = x ->
  bind m k w = x.
Proof. intros H <-. unfold bind. rewrite H. destruct r; reflexivity. Qed.

Lemma run_try {A} (m : M A) w r w1 :
  m w = (r, w1) -> try_ m w = (Normal r, w1).
Proof. intros H. unfold try_. rewrite H. reflexivity. Qed.

Lemma run_exec {A} (m : M A) w r w' : m w = (r, w') -> exec m w = w'.
Proof. intros H. unfold exec. rewrite H. reflexivity. Qed.

Lemma lookup_app_plus {A} (l l' : list A) k :
  (l ++ l') !! (length l + k)%nat = l' !! k.
Proof. rewrite lookup_app_r by lia. f_equal. lia. Qed.

Lemma lookup_app_0 {A} (l l' : list A) : (l ++ l') !! (length l) = l' !! 0%nat.
Proof. rewrite <- (Nat.add_0_r (length l)) at 1. apply lookup_app_plus. Qed.

Lemma insert_app_0 {A} (l l' : list A) x :
  <[length l := x]> (l ++ l') = l ++ <[0%nat := x]> l'.
Proof. rewrite <- (Nat.add_0_r (length l)) at 1. apply insert_app_r. Qed.

Lemma delete_app_0 {A} (l l' : list A) :
  delete (length l) (l ++ l') = l ++ delete 0%nat l'.
Proof. induction l; cbn; [reflexivity | f_equal; exact IHl]. Qed.

(** Projections of an updated world, and the negation of a known flag. *)
Ltac wsimp :=
  cbv beta iota zeta delta
    [set_this set_isIpcConnected set_skipListeners set_clock set_heap set_jobs set_timers
     set_inflight set_emitted set_logged set_errorListener
     this isIpcConnected skipListeners clock heap jobs timers inflight emitted logged
     errorListener
     _syncPromise _syncInProgress _onSyncDone _onSyncError state_of negb cleared
     SYNC_CHECK_INTERVAL_MS].

(** Lookups and updates in a heap that is a known extension of [heap w]. *)
Ltac heap_rw :=
  first
  [ lazymatch goal with |- context [(_ ++ _) ++ _] => rewrite <- !app_assoc end
  | lazymatch goal with |- context [length (_ ++ _)] => rewrite !length_app end
  | lazymatch goal with |- context [(_ + _ + _)%nat] => rewrite <- !Nat.add_assoc end
  | lazymatch goal with
    | |- context [(?l ++ _) !! (length ?l + _)%nat] => rewrite !lookup_app_plus
    end
  | lazymatch goal with |- context [(?l ++ _) !! length ?l] => rewrite !lookup_app_0 end
  | lazymatch goal with
    | |- context [<[(length ?l + _)%nat := _]> (?l ++ _)] => rewrite !insert_app_r
    end
  | lazymatch goal with
    | |- context [<[length ?l := _]> (?l ++ _)] => rewrite !insert_app_0
    end
  | lazymatch goal with
    | |- context [delete (length ?l) (?l ++ _)] => rewrite !delete_app_0
    end
  | lazymatch goal with |- context [_ ++ []] => rewrite !app_nil_r end ].

Ltac heap_norm :=
  wsimp;
  repeat (first
    [ heap_rw
    | progress cbn [app length Nat.add lookup list_lookup insert list_insert delete list_delete
                    fmap option_fmap option_map st reacts made map fst snd]
    | progress wsimp ]).

Ltac head_of t := lazymatch t with ?f _ => head_of f | _ => t end.

(** The facts of the context about the cells and fields that the code reads. *)
Ltac use_facts :=
  repeat match goal with
         | H : _ !! _ = _ |- _ => progress (rewrite H)
         | H : st _ = _ |- _ => progress (rewrite H)
         | H : error _ = _ |- _ => progress (rewrite H)
         | H : timestamp _ = _ |- _ => progress (rewrite H)
         | H : (_ =? _) = _ |- _ => progress (rewrite H)
         | H : (_ <? _) = _ |- _ => progress (rewrite H)
         | H : (_ <=? _) = _ |- _ => progress (rewrite H)
         | H : diff_gt_60 _ _ = _ |- _ => progress (rewrite H)
         end.

Ltac norm := heap_norm; repeat (progress use_facts; heap_norm).

(** [ev] runs a program on the world of the goal [m w = x], statement by
    statement; [x] may be unknown. *)
Ltac ev :=
  norm;
  lazymatch goal with
  | |- bind _ _ _ = _ => eapply run_bind; [ev | ev]
  | |- try_ _ _ = _ => eapply run_try; ev
  | |- (_, _) = _ => reflexivity
  | |- (match _ with _ => _ end) _ = _ => fail "the scrutinee is not known"
  | |- (if _ then _ else _) _ = _ => fail "the condition is not known"
  | |- ?m _ = _ => let h := head_of m in unfold h; ev
  end.

Ltac destruct_world w :=
  let sp := fresh "sp" in let ip := fresh "ip" in
  let done := fresh "done" in let err := fresh "err" in
  let conn := fresh "conn" in let sl := fresh "sl" in let ck := fresh "ck" in
  let hp := fresh "hp" in let jb := fresh "jb" in let tm := fresh "tm" in
  let inf := fresh "inf" in let em := fresh "em" in let lg := fresh "lg" in
  let el := fresh "el" in
  destruct w as [[sp ip done err] conn sl ck hp jb tm inf em lg el];
  cbn [this isIpcConnected skipListeners clock heap jobs timers inflight emitted logged
       errorListener _syncPromise _syncInProgress _onSyncDone _onSyncError] in *.


Lemma run_cons a acts w w' r :
  step a w = Some w' -> run acts w' = r -> run (a :: acts) w = r.
Proof. intros H1 H2. cbn. rewrite H1. exact H2. Qed.

(** One action on a symbolic world: the step is unfolded and the code it
    runs is executed. *)
Ltac run_step :=
  eapply run_cons;
  [ unfold step; norm; rewrite ?Z.leb_refl; norm;
    lazymatch goal with
    | |- Some (exec _ _) = Some _ => apply (f_equal Some); eapply run_exec; ev
    | |- _ => reflexivity
    end
  | ].

Ltac run_go := repeat run_step; try reflexivity.


(** ** The invariant is kept *)

Lemma state_le_refl w s : state_le w s s.
Proof. left. reflexivity. Qed.

Lemma ext_refl w : ext w w.
Proof.
  split; [lia|]. intros p c H. exists c. repeat split; [exact H | apply state_le_refl].
Qed.

Lemma settled_with_ext w w' p o : ext w w' -> settled_with w p o -> settled_with w' p o.
Proof.
  intros [_ He] (c & Hc & Hs). destruct (He p c Hc) as (c' & Hc' & _ & Hle).
  exists c'. split; [exact Hc'|].
  destruct Hle as [Heq | [Hp | (q & o' & Hf & _)]]; congruence.
Qed.

Lemma is_settled_ext w w' p : ext w w' -> is_settled w p -> is_settled w' p.
Proof. intros He [o Ho]. exists o. eapply settled_with_ext; eauto. Qed.

Lemma made_at_ext w w' p s : ext w w' -> made_at w p s -> made_at w' p s.
Proof.
  intros [_ He] (c & Hc & Hs). destruct (He p c Hc) as (c' & Hc' & Hm & _).
  exists c'. split; [exact Hc' | congruence].
Qed.

Lemma ext_trans w1 w2 w3 : ext w1 w2 -> ext w2 w3 -> ext w1 w3.
Proof.
  intros H12 H23. pose proof H12 as [Hc12 He12]. pose proof H23 as [Hc23 He23].
  split; [lia|]. intros p c Hc.
  destruct (He12 p c Hc) as (c2 & Hc2 & Hm2 & Hle2).
  destruct (He23 p c2 Hc2) as (c3 & Hc3 & Hm3 & Hle3).
  exists c3. split; [exact Hc3|]. split; [congruence|].
  destruct Hle2 as [Heq | [Hp | (q & o & Hf & Hs & Hq)]].
  - rewrite Heq. exact Hle3.
  - right. left. exact Hp.
  - right. right. exists q, o. split; [exact Hf|].
    split.
    + destruct Hle3 as [Heq | [Hp | (q' & o' & Hf' & _)]]; congruence.
    + eapply settled_with_ext; eauto.
Qed.

Lemma made_at_fun w p s s' : made_at w p s -> made_at w p s' -> s = s'.
Proof. intros (c & Hc & Hs) (c' & Hc' & Hs'). congruence. Qed.

Lemma settled_with_fun w p o o' : settled_with w p o -> settled_with w p o' -> o = o'.
Proof. intros (c & Hc & Hs) (c' & Hc' & Hs'). congruence. Qed.

Lemma job_ok_ext w w' j : ext w w' -> job_ok w j -> job_ok w' j.
Proof.
  intros He. unfold job_ok. destruct j as [[r t] o]; cbn [fst snd].
  assert (Hchain : forall r0,
    (exists src, made_at w t (SChain src r0) /\ settled_with w src o) ->
    exists src, made_at w' t (SChain src r0) /\ settled_with w' src o).
  { intros r0 (src & Hm & Hs). exists src.
    split; [eapply made_at_ext | eapply settled_with_ext]; eauto. }
  destruct r; try apply Hchain.
  intros (ct & Hct & Hnp & Hf).
  destruct (proj2 He t ct Hct) as (ct' & Hct' & _ & Hle).
  exists ct'. split; [exact Hct'|].
  destruct Hle as [Heq | [Hp | (q & o' & Hq & Hs & _)]].
  - rewrite <- Heq. split; [exact Hnp|].
    intros q Hq. eapply settled_with_ext; eauto.
  - contradiction.
  - rewrite Hs. split; [discriminate | intros q0 Hq0; discriminate].
Qed.

Lemma react_ok_ext w w' q rt : ext w w' -> react_ok w q rt -> react_ok w' q rt.
Proof.
  intros He. unfold react_ok. destruct rt as [r t]; cbn [fst snd].
  destruct r; try (apply made_at_ext; exact He).
  intros (ct & Hct & Hnp & Hf).
  destruct (proj2 He t ct Hct) as (ct' & Hct' & _ & Hle).
  exists ct'. split; [exact Hct'|].
  destruct Hle as [Heq | [Hp | (q0 & o' & Hq & Hs & _)]].
  - rewrite <- Heq. split; assumption.
  - contradiction.
  - rewrite Hs. split; [discriminate | intros q1 Hq1; discriminate].
Qed.

Lemma cell_ok_ext w w' c : ext w w' -> cell_ok w c -> cell_ok w' c.
Proof.
  intros He. unfold cell_ok. destruct (made c) as [| |due|m|src r]; try exact id.
  - intros H Hnp. pose proof (proj1 He). specialize (H Hnp). lia.
  - intros (Hr & Hs). split; [exact Hr|].
    intros Hnp. eapply is_settled_ext; eauto.
Qed.

(** What is new or changed in [w'] is all that has to be checked. *)
Lemma Inv_frame w w' :
  Inv w ->
  ext w w' ->
  (forall r, _onSyncDone (this w') = Some r ->
     _onSyncDone (this w) = Some r \/ made_at w' r SNew) ->
  (forall r, _onSyncError (this w') = Some r ->
     _onSyncError (this w) = Some r \/ made_at w' r SNew) ->
  (forall p, _syncPromise (this w') = Some p ->
     _syncPromise (this w) = Some p \/
     exists src, made_at w' p (SChain src (RFinally start_finally))) ->
  (forall due p, (due, TResolve p) ∈ timers w' ->
     (due, TResolve p) ∈ timers w \/ made_at w' p (SDelay due)) ->
  (forall p m, (p, m) ∈ inflight w' ->
     (p, m) ∈ inflight w \/ made_at w' p (SSend m)) ->
  (forall j, j ∈ jobs w' -> j ∈ jobs w \/ job_ok w' j) ->
  (forall q c' rt, heap w' !! q = Some c' -> rt ∈ reacts c' ->
     (exists c, heap w !! q = Some c /\ rt ∈ reacts c) \/ react_ok w' q rt) ->
  (forall p c', heap w' !! p = Some c' -> heap w !! p = Some c' \/ cell_ok w' c') ->
  Inv w'.
Proof.
  intros HI He Hd Her Hp Ht Hi Hj Hr Hc. constructor.
  - intros r H. destruct (Hd r H) as [H0|H0]; [|exact H0].
    eapply made_at_ext; [exact He|]. eapply inv_done; eauto.
  - intros r H. destruct (Her r H) as [H0|H0]; [|exact H0].
    eapply made_at_ext; [exact He|]. eapply inv_error; eauto.
  - intros p H. destruct (Hp p H) as [H0|H0]; [|exact H0].
    destruct (inv_promise w HI p H0) as [src Hsrc]. exists src.
    eapply made_at_ext; eauto.
  - intros due p H. destruct (Ht due p H) as [H0|H0]; [|exact H0].
    eapply made_at_ext; [exact He|]. eapply inv_timers; eauto.
  - intros p m H. destruct (Hi p m H) as [H0|H0]; [|exact H0].
    eapply made_at_ext; [exact He|]. eapply inv_inflight; eauto.
  - intros j H. destruct (Hj j H) as [H0|H0]; [|exact H0].
    eapply job_ok_ext; [exact He|]. eapply inv_jobs; eauto.
  - intros q c' rt H1 H2. destruct (Hr q c' rt H1 H2) as [(c & H3 & H4)|H0]; [|exact H0].
    eapply react_ok_ext; [exact He|]. eapply inv_reacts; eauto.
  - intros p c' H. destruct (Hc p c' H) as [H0|H0]; [|exact H0].
    eapply cell_ok_ext; [exact He|]. eapply inv_cells; eauto.
Qed.

(** The invariant does not read the events, the log, the listeners or the
    connection flag. *)
Lemma Inv_same w w' :
  this w' = this w -> clock w' = clock w -> heap w' = heap w ->
  timers w' = timers w -> inflight w' = inflight w -> jobs w' = jobs w ->
  Inv w -> Inv w' /\ ext w w'.
Proof.
  intros H1 H2 H3 H4 H5 H6 HI.
  assert (He : ext w w').
  { split; [lia|]. intros p c Hc. exists c. rewrite H3.
    repeat split; [exact Hc | apply state_le_refl]. }
  split; [|exact He].
  apply (Inv_frame w w' HI He).
  - intros r H. left. congruence.
  - intros r H. left. congruence.
  - intros r H. left. congruence.
  - intros due p H. left. congruence.
  - intros p m H. left. congruence.
  - intros j H. left. congruence.
  - intros q c' rt Hq Hrt. left. exists c'. split; congruence.
  - intros p c' H. left. congruence.
Qed.

Lemma ext_insert w p c c' h :
  heap w !! p = Some c ->
  made c' = made c ->
  h = <[p := c']> (heap w) ->
  (forall w', heap w' = h -> clock w' = clock w -> state_le w' (st c) (st c') -> ext w w').
Proof.
  intros Hp Hm -> w' Hh Hc Hle. split; [lia|].
  intros p0 c0 H0. destruct (decide (p0 = p)) as [->|Hne].
  - exists c'. rewrite Hh. rewrite list_lookup_insert_eq by (eapply lookup_lt_Some; eauto).
    assert (c0 = c) by congruence. subst c0. repeat split; assumption.
  - exists c0. rewrite Hh. rewrite list_lookup_insert_ne by congruence.
    repeat split; [exact H0 | apply state_le_refl].
Qed.

Lemma ext_app w w' l :
  heap w' = heap w ++ l -> clock w' = clock w -> ext w w'.
Proof.
  intros Hh Hc. split; [lia|]. intros p c Hp. exists c. rewrite Hh.
  repeat split; [apply lookup_app_l_Some; exact Hp | apply state_le_refl].
Qed.

(** An unsettled promise is settled: its reactions are queued. *)
Lemma Inv_settle w p c o :
  Inv w ->
  heap w !! p = Some c ->
  (st c = Pending \/ exists q, st c = Following q /\ settled_with w q o) ->
  (match made c with
   | SDelay due => due <= clock w
   | SChain src r => is_settled w src
   | _ => True
   end) ->
  let w' := set_jobs (jobs w ++ map (fun rt => (rt.1, rt.2, o)) (reacts c))
              (set_heap (<[p := Cell (Settled o) [] (made c)]> (heap w)) w) in
  Inv w' /\ ext w w'.
Proof.
  intros HI Hp Hst Hmay w'.
  assert (Hlt : (p < length (heap w))%nat) by (eapply lookup_lt_Some; eauto).
  assert (Hp' : heap w' !! p = Some (Cell (Settled o) [] (made c))).
  { cbn. apply list_lookup_insert_eq. exact Hlt. }
  assert (Hother : forall p0, p0 <> p -> heap w' !! p0 = heap w !! p0).
  { intros p0 Hne. cbn. apply list_lookup_insert_ne. congruence. }
  assert (He : ext w w').
  { eapply (ext_insert w p c (Cell (Settled o) [] (made c))); eauto; try reflexivity.
    destruct Hst as [Hpend | (q & Hq & Hs)].
    - right. left. exact Hpend.
    - right. right. exists q, o. repeat split; [exact Hq|].
      destruct Hs as (cq & Hcq & Hsq). destruct (decide (q = p)) as [->|Hne].
      + exists (Cell (Settled o) [] (made c)). split; [exact Hp' | reflexivity].
      + exists cq. rewrite Hother by exact Hne. split; assumption. }
  split; [|exact He].
  apply (Inv_frame w w' HI He).
  - intros r H. left. exact H.
  - intros r H. left. exact H.
  - intros r H. left. exact H.
  - intros due p0 H. left. exact H.
  - intros p0 m H. left. exact H.
  - intros j Hj. change (jobs w') with (jobs w ++ map (fun rt => (rt.1, rt.2, o)) (reacts c)) in Hj.
    apply elem_of_app in Hj as [Hj|Hj]; [left; exact Hj|]. right.
    apply list_elem_of_fmap in Hj as ([r t] & -> & Hrt). cbn [fst snd].
    pose proof (inv_reacts w HI p c (r, t) Hp Hrt) as Hok.
    unfold react_ok in Hok; cbn [fst snd] in Hok. unfold job_ok; cbn [fst snd].
    assert (Hs : settled_with w' p o).
    { exists (Cell (Settled o) [] (made c)). split; [exact Hp' | reflexivity]. }
    destruct r; try (exists p; split; [eapply made_at_ext; eauto | exact Hs]).
    destruct Hok as (ct & Hct & Hnp & Hf).
    destruct (proj2 He t ct Hct) as (ct' & Hct' & _ & Hle).
    exists ct'. split; [exact Hct'|].
    destruct Hle as [Heq | [Hpe | (q0 & o' & Hq0 & Hs0 & _)]].
    + rewrite <- Heq. split; [exact Hnp|]. intros q Hq. rewrite (Hf q Hq). exact Hs.
    + contradiction.
    + rewrite Hs0. split; [discriminate | intros ? ?; discriminate].
  - intros q c' rt Hq Hrt. destruct (decide (q = p)) as [->|Hne].
    + rewrite Hp' in Hq. injection Hq as <-. cbn in Hrt. inversion Hrt.
    + left. exists c'. rewrite <- Hother by exact Hne. split; assumption.
  - intros p0 c' H0. destruct (decide (p0 = p)) as [->|Hne].
    + right. rewrite Hp' in H0. injection H0 as <-.
      pose proof (inv_cells w HI p c Hp) as Hok. unfold cell_ok in *. cbn [made st].
      destruct (made c) as [| |due|m|src r]; try exact I.
      * intros _. exact Hmay.
      * destruct Hok as (Hr & _). split; [exact Hr|].
        intros _. eapply is_settled_ext; eauto.
    + left. rewrite <- Hother by exact Hne. exact H0.
Qed.

(** *** The rules of the logic *)

Lemma ok_conseq {A} (m : M A) (P P' : world -> Prop) (Q Q' : A -> world -> Prop) :
  (forall w, Inv w -> P' w -> P w) ->
  (forall a w, Inv w -> Q a w -> Q' a w) ->
  ok m P Q -> ok m P' Q'.
Proof.
  intros HP HQ Hm w HI HP'. destruct (Hm w HI (HP w HI HP')) as (HI' & He & Hq).
  split; [exact HI'|]. split; [exact He|]. intros a Ha. apply HQ; [exact HI' | exact (Hq a Ha)].
Qed.

Lemma ok_pre {A} (m : M A) (P P' : world -> Prop) (Q : A -> world -> Prop) :
  (forall w, Inv w -> P' w -> P w) -> ok m P Q -> ok m P' Q.
Proof. intros HP. apply ok_conseq; [exact HP | intros; assumption]. Qed.

Lemma ok_post {A} (m : M A) (P : world -> Prop) (Q Q' : A -> world -> Prop) :
  (forall a w, Inv w -> Q a w -> Q' a w) -> ok m P Q -> ok m P Q'.
Proof. intros HQ. apply ok_conseq; [intros; assumption | exact HQ]. Qed.

Lemma ok_ret {A} (a : A) (P : world -> Prop) : ok (ret a) P (fun b w => b = a /\ P w).
Proof.
  intros w HI HP. cbn. split; [exact HI|]. split; [apply ext_refl|].
  intros b [= <-]. split; [reflexivity | exact HP].
Qed.

Lemma ok_throw {A} e (P : world -> Prop) (Q : A -> world -> Prop) : ok (throw e) P Q.
Proof.
  intros w HI HP. cbn. split; [exact HI|]. split; [apply ext_refl|]. intros b [=].
Qed.

Lemma ok_bind {A B} (m : M A) (k : A -> M B) (P : world -> Prop) Q R :
  stable P ->
  ok m P Q ->
  (forall a, ok (k a) (fun w => P w /\ Q a w) R) ->
  ok (bind m k) P R.
Proof.
  intros HS Hm Hk w HI HP. destruct (Hm w HI HP) as (HI1 & He1 & Hq1).
  unfold bind. destruct (m w) as [[a|e] w1] eqn:Hmw; cbn [fst snd] in *.
  - destruct (Hk a w1 HI1) as (HI2 & He2 & Hq2).
    { split; [eapply HS; eauto | apply Hq1; reflexivity]. }
    split; [exact HI2|]. split; [eapply ext_trans; eauto | exact Hq2].
  - split; [exact HI1|]. split; [exact He1|]. intros b [=].
Qed.

Lemma ok_gets {A B} (f : world -> A) (k : A -> M B) (P : world -> Prop) R :
  (forall a, ok (k a) (fun w => P w /\ f w = a) R) ->
  ok (bind (gets f) k) P R.
Proof.
  intros Hk w HI HP. unfold bind, gets.
  apply (Hk (f w) w HI). split; [exact HP | reflexivity].
Qed.

Lemma ok_try {A} (m : M A) (P : world -> Prop) (Q : A -> world -> Prop) :
  ok m P Q ->
  ok (try_ m) P (fun r w => forall a, r = Normal a -> Q a w).
Proof.
  intros Hm w HI HP. destruct (Hm w HI HP) as (HI1 & He1 & Hq1).
  unfold try_. destruct (m w) as [r w1]; cbn [fst snd] in *.
  split; [exact HI1|]. split; [exact He1|].
  intros r0 [= <-]. exact Hq1.
Qed.

(** A statement that changes nothing the invariant reads. *)
Lemma ok_same (f : world -> world) (P : world -> Prop) :
  stable P ->
  (forall w, this (f w) = this w /\ clock (f w) = clock w /\ heap (f w) = heap w /\
             timers (f w) = timers w /\ inflight (f w) = inflight w /\
             jobs (f w) = jobs w) ->
  ok (modify f) P (fun _ w => P w).
Proof.
  intros HS Hf w HI HP. cbn [modify fst snd].
  destruct (Hf w) as (H1 & H2 & H3 & H4 & H5 & H6).
  destruct (Inv_same w (f w) H1 H2 H3 H4 H5 H6 HI) as [HI' He].
  split; [exact HI'|]. split; [exact He|]. intros _ _. eapply HS; eauto.
Qed.

Lemma stable_any : stable any.
Proof. intros w w' _ _. exact I. Qed.

Lemma stable_and (P Q : world -> Prop) :
  stable P -> stable Q -> stable (fun w => P w /\ Q w).
Proof. intros HP HQ w w' He [H1 H2]. split; [eapply HP | eapply HQ]; eauto. Qed.

Lemma stable_made_at p s : stable (fun w => made_at w p s).
Proof. intros w w' He H. eapply made_at_ext; eauto. Qed.

Lemma stable_is_settled p : stable (fun w => is_settled w p).
Proof. intros w w' He H. eapply is_settled_ext; eauto. Qed.

Lemma stable_ex {A} (P : A -> world -> Prop) :
  (forall a, stable (P a)) -> stable (fun w => exists a, P a w).
Proof. intros HP w w' He [a Ha]. exists a. eapply HP; eauto. Qed.

Lemma stable_const (X : Prop) : stable (fun _ => X).
Proof. intros w w' _ H. exact H. Qed.

(** [emit] changes the trace of the events, whether it returns or throws. *)
Lemma emit_world e w : (emit e w).2 = set_emitted (emitted w ++ [e]) w.
Proof.
  unfold emit, bind, modify, gets, ret, throw. destruct e; try reflexivity.
  cbn. destruct (errorListener w); reflexivity.
Qed.

Lemma ok_emit e (P : world -> Prop) : stable P -> ok (emit e) P (fun _ w => P w).
Proof.
  intros HS w HI HP. rewrite emit_world.
  destruct (Inv_same w (set_emitted (emitted w ++ [e]) w)) as [HI' He];
    try reflexivity; [exact HI|].
  split; [exact HI'|]. split; [exact He|]. intros _ _. eapply HS; eauto.
Qed.

Lemma ok_log l msg (P : world -> Prop) : stable P -> ok (log l msg) P (fun _ w => P w).
Proof. intros HS. apply ok_same; [exact HS|]. intros w. repeat split. Qed.

Lemma ok_ipc_on_skipSync (P : world -> Prop) :
  stable P -> ok ipc_on_skipSync P (fun _ w => P w).
Proof. intros HS. apply ok_same; [exact HS|]. intros w. repeat split. Qed.

Lemma ok_ipc_removeAllListeners (P : world -> Prop) :
  stable P -> ok ipc_removeAllListeners P (fun _ w => P w).
Proof. intros HS. apply ok_same; [exact HS|]. intros w. repeat split. Qed.

(** *** The statements that change the heap *)

Lemma ok_alloc s : ok (alloc s) (fun w => site_ok w s) (fun t w => made_at w t s).
Proof.
  intros w HI HP. cbn [alloc fst snd].
  set (c0 := Cell Pending [] s). set (w' := set_heap (heap w ++ [c0]) w).
  assert (He : ext w w') by (apply (ext_app w w' [c0]); reflexivity).
  assert (Hnew : forall p c, heap w' !! p = Some c -> heap w !! p = Some c \/ c = c0).
  { intros p c H. change (heap w') with (heap w ++ [c0]) in H.
    apply lookup_app_Some in H as [H | [_ H]]; [left; exact H | right].
    destruct (p - length (heap w))%nat; cbn in H; [congruence | discriminate]. }
  split; [|split; [exact He|]].
  - apply (Inv_frame w w' HI He); try (intros; left; assumption).
    + intros q c' rt Hq Hrt. destruct (Hnew q c' Hq) as [H | ->].
      * left. exists c'. split; assumption.
      * inversion Hrt.
    + intros p c' Hp. destruct (Hnew p c' Hp) as [H | ->]; [left; exact H | right].
      unfold cell_ok, c0; cbn [made st]. destruct s as [| |due|m|src r]; try exact I.
      * intros H. contradiction.
      * split; [exact HP|]. intros H. contradiction.
  - intros a [= <-]. exists c0. split; [|reflexivity].
    change (heap w') with (heap w ++ [c0]). apply list_lookup_middle. reflexivity.
Qed.

Lemma cell_ok_reacts w s l l' m : cell_ok w (Cell s l m) -> cell_ok w (Cell s l' m).
Proof. exact id. Qed.

Lemma Inv_subscribe w q r t :
  Inv w -> may_subscribe w q r t ->
  Inv (subscribe q r t w).2 /\ ext w (subscribe q r t w).2.
Proof.
  intros HI HP. unfold subscribe. cbn [modify fst snd].
  destruct (heap w !! q) as [cq|] eqn:Hq; [|split; [exact HI | apply ext_refl]].
  destruct (st cq) as [| q0 | o] eqn:Hst.
  1,2: set (c1 := Cell (st cq) (reacts cq ++ [(r, t)]) (made cq));
       rewrite <- Hst; set (w' := set_heap (<[q := c1]> (heap w)) w);
       assert (Hlt : (q < length (heap w))%nat) by (eapply lookup_lt_Some; eauto);
       assert (Hq' : heap w' !! q = Some c1) by (apply list_lookup_insert_eq; exact Hlt);
       assert (Hother : forall p0, p0 <> q -> heap w' !! p0 = heap w !! p0)
         by (intros p0 Hne; apply list_lookup_insert_ne; congruence);
       assert (He : ext w w')
         by (eapply (ext_insert w q cq c1); eauto; try reflexivity; apply state_le_refl);
       (split; [|exact He]);
       apply (Inv_frame w w' HI He); try (intros; left; assumption).
  1,3: intros q1 c' rt Hq1 Hrt; destruct (decide (q1 = q)) as [->|Hne];
       [ rewrite Hq' in Hq1; injection Hq1 as <-; cbn [reacts c1] in Hrt;
         apply elem_of_app in Hrt as [Hrt|Hrt];
         [ left; exists cq; split; assumption
         | right; apply list_elem_of_singleton in Hrt; subst rt;
           unfold react_ok; cbn [fst snd]; unfold may_subscribe in HP;
           destruct r; try (eapply made_at_ext; eauto);
           destruct HP as (ct & Hct & Hf);
           destruct (proj2 He t ct Hct) as (ct' & Hct' & _ & Hle);
           exists ct'; split; [exact Hct'|];
           destruct Hle as [Heq | [Hp | (q2 & o' & Hq2 & Hs2 & _)]];
           [ rewrite <- Heq, Hf; split; [discriminate | intros ? [= <-]; reflexivity]
           | congruence
           | rewrite Hs2; split; [discriminate | intros ? ?; discriminate] ] ]
       | left; exists c'; rewrite <- Hother by exact Hne; split; assumption ].
  1,2: intros p0 c' H0; destruct (decide (p0 = q)) as [->|Hne];
       [ right; rewrite Hq' in H0; injection H0 as <-;
         apply (cell_ok_reacts w' (st cq) (reacts cq));
         eapply cell_ok_ext; [exact He|];
         pose proof (inv_cells w HI q cq Hq) as Hok; destruct cq; exact Hok
       | left; rewrite <- Hother by exact Hne; exact H0 ].
  (* the source is settled: the reaction is queued *)
  set (w' := set_jobs (jobs w ++ [(r, t, o)]) w).
  assert (He : ext w w').
  { split; [cbn; lia|]. intros p c Hc. exists c.
    repeat split; [exact Hc | apply state_le_refl]. }
  split; [|exact He].
  apply (Inv_frame w w' HI He); try (intros; left; assumption).
  - intros j Hj. change (jobs w') with (jobs w ++ [(r, t, o)]) in Hj.
    apply elem_of_app in Hj as [Hj|Hj]; [left; exact Hj | right].
    apply list_elem_of_singleton in Hj. subst j.
    assert (Hs : settled_with w' q o) by (exists cq; split; assumption).
    unfold job_ok; cbn [fst snd]. unfold may_subscribe in HP.
    destruct r; try (exists q; split; [exact HP | exact Hs]).
    destruct HP as (ct & Hct & Hf). exists ct. split; [exact Hct|].
    rewrite Hf. split; [discriminate | intros ? [= <-]; exact Hs].
  - intros q1 c' rt Hq1 Hrt. left. exists c'. split; assumption.
Qed.

Lemma ok_subscribe q r t :
  ok (subscribe q r t) (fun w => may_subscribe w q r t) (fun _ _ => True).
Proof.
  intros w HI HP. destruct (Inv_subscribe w q r t HI HP) as [HI' He].
  split; [exact HI'|]. split; [exact He|]. intros; exact I.
Qed.

Lemma stable_site_ok s : stable (fun w => site_ok w s).
Proof.
  intros w w' He. unfold site_ok. destruct s; exact id.
Qed.

Lemma ok_chain q r :
  ok (chain q r) (fun w => site_ok w (SChain q r)) (fun t w => made_at w t (SChain q r)).
Proof.
  unfold chain. eapply ok_bind; [apply stable_site_ok | apply ok_alloc |].
  intros t. eapply ok_bind.
  - apply stable_and; [apply stable_site_ok | apply stable_made_at].
  - eapply ok_pre; [|apply ok_subscribe].
    intros w _ [Hr Hm]. unfold may_subscribe. destruct r; try exact Hm.
    contradiction.
  - intros u. eapply ok_post; [|apply ok_ret].
    intros a w _ [-> [[_ Hm] _]]. exact Hm.
Qed.

Lemma ok_settle_pending p o c w :
  Inv w -> heap w !! p = Some c -> st c = Pending -> may_settle w p o ->
  Inv (settle p o w).2 /\ ext w (settle p o w).2.
Proof.
  intros HI Hc Hst (s & (c' & Hc' & Hm) & Hs).
  assert (c' = c) by congruence. subst c'.
  unfold settle. cbn [modify fst snd]. rewrite Hc.
  apply Inv_settle; [exact HI | exact Hc | left; exact Hst | rewrite Hm; exact Hs].
Qed.

Lemma ok_fulfil p v :
  ok (fulfil p v) (fun w => may_settle w p (Fulfilled v)) (fun _ _ => True).
Proof.
  intros w HI HP. unfold fulfil, bind, gets, state_of.
  destruct (heap w !! p) as [c|] eqn:Hc; cbn [fmap option_fmap option_map].
  2: { cbn. split; [exact HI|]. split; [apply ext_refl | intros; exact I]. }
  destruct (st c) eqn:Hst.
  2,3: cbn; split; [exact HI|]; split; [apply ext_refl | intros; exact I].
  destruct (ok_settle_pending p (Fulfilled v) c w HI Hc Hst HP) as [HI' He].
  split; [exact HI'|]. split; [exact He | intros; exact I].
Qed.

Lemma ok_reject p e :
  ok (reject p e) (fun w => may_settle w p (Rejected e)) (fun _ _ => True).
Proof.
  intros w HI HP. unfold reject, bind, gets, state_of.
  destruct (heap w !! p) as [c|] eqn:Hc; cbn [fmap option_fmap option_map].
  2: { cbn. split; [exact HI|]. split; [apply ext_refl | intros; exact I]. }
  destruct (st c) eqn:Hst.
  2,3: cbn; split; [exact HI|]; split; [apply ext_refl | intros; exact I].
  destruct (ok_settle_pending p (Rejected e) c w HI Hc Hst HP) as [HI' He].
  split; [exact HI'|]. split; [exact He | intros; exact I].
Qed.

(** A pending promise starts to follow [q]. *)
Lemma Inv_set_following w t c q :
  Inv w -> heap w !! t = Some c -> st c = Pending ->
  may_resolve w t (VPromise q) ->
  let w' := (set_state t (Following q) w).2 in
  Inv w' /\ ext w w' /\ exists ct, heap w' !! t = Some ct /\ st ct = Following q.
Proof.
  intros HI Hc Hst (s & (c' & Hc' & Hm) & Hs).
  assert (c' = c) by congruence. subst c'.
  unfold set_state. cbn [modify fst snd]. rewrite Hc.
  set (c1 := Cell (Following q) (reacts c) (made c)).
  set (w' := set_heap (<[t := c1]> (heap w)) w). cbn zeta.
  assert (Hlt : (t < length (heap w))%nat) by (eapply lookup_lt_Some; eauto).
  assert (Ht' : heap w' !! t = Some c1) by (apply list_lookup_insert_eq; exact Hlt).
  assert (Hother : forall p0, p0 <> t -> heap w' !! p0 = heap w !! p0)
    by (intros p0 Hne; apply list_lookup_insert_ne; congruence).
  assert (He : ext w w').
  { eapply (ext_insert w t c c1); eauto; try reflexivity. right. left. exact Hst. }
  split; [|split; [exact He | exists c1; split; [exact Ht' | reflexivity]]].
  apply (Inv_frame w w' HI He); try (intros; left; assumption).
  - intros q1 c' rt Hq1 Hrt. left. destruct (decide (q1 = t)) as [->|Hne].
    + rewrite Ht' in Hq1. injection Hq1 as <-. exists c. split; assumption.
    + exists c'. rewrite <- Hother by exact Hne. split; assumption.
  - intros p0 c' H0. destruct (decide (p0 = t)) as [->|Hne].
    + right. rewrite Ht' in H0. injection H0 as <-.
      pose proof (inv_cells w HI t c Hc) as Hok. unfold cell_ok in *. cbn [made st c1].
      rewrite Hm in *. destruct s as [| |due|m|src r]; try exact I.
      * intros _. exact Hs.
      * destruct Hok as (Hr & _). split; [exact Hr|].
        intros _. eapply is_settled_ext; eauto.
    + left. rewrite <- Hother by exact Hne. exact H0.
Qed.

Lemma may_settle_of_resolve w t v :
  (forall q, v <> VPromise q) -> may_resolve w t v -> may_settle w t (Fulfilled v).
Proof.
  intros Hv (s & Hm & Hs). exists s. split; [exact Hm|].
  destruct s; exact Hs.
Qed.

Lemma ok_resolve p v :
  ok (resolve p v) (fun w => may_resolve w p v) (fun _ _ => True).
Proof.
  destruct v as [| r | q].
  1,2: cbn [resolve]; eapply ok_pre; [|apply ok_fulfil];
       intros w _ H; apply may_settle_of_resolve; [intros q; discriminate | exact H].
  intros w HI HP. cbn [resolve]. unfold bind, gets, state_of.
  destruct (heap w !! p) as [c|] eqn:Hc; cbn [fmap option_fmap option_map].
  2: { cbn. split; [exact HI|]. split; [apply ext_refl | intros; exact I]. }
  destruct (st c) eqn:Hst.
  2,3: cbn; split; [exact HI|]; split; [apply ext_refl | intros; exact I].
  destruct (Inv_set_following w p c q HI Hc Hst HP) as (HI1 & He1 & ct & Hct & Hf).
  change (set_state p (Following q) w) with (Normal tt, (set_state p (Following q) w).2).
  cbv iota.
  destruct (Inv_subscribe _ q RFollow p HI1) as [HI2 He2].
  { exists ct. split; assumption. }
  split; [exact HI2|]. split; [eapply ext_trans; eauto | intros; exact I].
Qed.

Lemma ok_adopt t o :
  ok (adopt t o) (fun w => job_ok w (RFollow, t, o)) (fun _ _ => True).
Proof.
  intros w HI (ct & Hct & Hnp & Hf). cbn [fst snd] in *.
  unfold adopt, bind, gets, state_of. rewrite Hct. cbn [fmap option_fmap option_map].
  destruct (st ct) as [| q | o'] eqn:Hst.
  1,3: cbn; split; [exact HI|]; split; [apply ext_refl | intros; exact I].
  unfold settle. cbn [modify fst snd]. rewrite Hct.
  destruct (Inv_settle w t ct o HI Hct) as [HI' He].
  - right. exists q. split; [exact Hst | apply Hf; reflexivity].
  - pose proof (inv_cells w HI t ct Hct) as Hok. unfold cell_ok in Hok.
    destruct (made ct) as [| |due|m|src r]; try exact I.
    + apply Hok. congruence.
    + destruct Hok as (_ & Hs). apply Hs. congruence.
  - split; [exact HI'|]. split; [exact He | intros; exact I].
Qed.

Lemma ok_complete t x :
  ok (complete t x)
     (fun w => match x with
               | Normal v => may_resolve w t v
               | Throw e => may_settle w t (Rejected e)
               end)
     (fun _ _ => True).
Proof. destruct x; cbn [complete]; [apply ok_resolve | apply ok_reject]. Qed.

(** *** The statements that change the fields, the timers and the calls *)

Lemma Inv_fields w w' :
  Inv w ->
  heap w' = heap w -> clock w' = clock w -> jobs w' = jobs w ->
  (forall r, _onSyncDone (this w') = Some r ->
     _onSyncDone (this w) = Some r \/ made_at w r SNew) ->
  (forall r, _onSyncError (this w') = Some r ->
     _onSyncError (this w) = Some r \/ made_at w r SNew) ->
  (forall p, _syncPromise (this w') = Some p ->
     _syncPromise (this w) = Some p \/
     exists src, made_at w p (SChain src (RFinally start_finally))) ->
  (forall due p, (due, TResolve p) ∈ timers w' ->
     (due, TResolve p) ∈ timers w \/ made_at w p (SDelay due)) ->
  (forall p m, (p, m) ∈ inflight w' ->
     (p, m) ∈ inflight w \/ made_at w p (SSend m)) ->
  Inv w' /\ ext w w'.
Proof.
  intros HI Hh Hc Hj H1 H2 H3 H4 H5.
  assert (He : ext w w').
  { split; [lia|]. intros p c Hp. exists c. rewrite Hh.
    repeat split; [exact Hp | apply state_le_refl]. }
  split; [|exact He].
  apply (Inv_frame w w' HI He).
  - intros r H. destruct (H1 r H); [left; assumption | right; eapply made_at_ext; eauto].
  - intros r H. destruct (H2 r H); [left; assumption | right; eapply made_at_ext; eauto].
  - intros p H. destruct (H3 p H) as [|[src Hs]]; [left; assumption | right].
    exists src. eapply made_at_ext; eauto.
  - intros due p H. destruct (H4 due p H); [left; assumption | right].
    eapply made_at_ext; eauto.
  - intros p m H. destruct (H5 p m H); [left; assumption | right].
    eapply made_at_ext; eauto.
  - intros j H. left. congruence.
  - intros q c' rt Hq Hrt. left. exists c'. split; congruence.
  - intros p c' H. left. congruence.
Qed.

Lemma ok_of_Inv (f : world -> world) (P : world -> Prop) :
  stable P ->
  (forall w, Inv w -> P w -> Inv (f w) /\ ext w (f w)) ->
  ok (modify f) P (fun _ w => P w).
Proof.
  intros HS Hf w HI HP. cbn [modify fst snd]. destruct (Hf w HI HP) as [HI' He].
  split; [exact HI'|]. split; [exact He|]. intros _ _. eapply HS; eauto.
Qed.

Lemma ok_add_timer due tk (P : world -> Prop) :
  stable P ->
  (forall w p, P w -> tk = TResolve p -> made_at w p (SDelay due)) ->
  ok (modify (fun w => set_timers (timers w ++ [(due, tk)]) w)) P (fun _ w => P w).
Proof.
  intros HS Htk. apply ok_of_Inv; [exact HS|]. intros w HI HP.
  apply Inv_fields; try reflexivity; try exact HI; try (intros; left; assumption).
  intros due0 p H. cbn in H. apply elem_of_app in H as [H|H]; [left; exact H | right].
  apply list_elem_of_singleton in H. injection H as -> Hp. eapply Htk; eauto.
Qed.

Lemma ok_delay_tick ms (P : world -> Prop) : stable P -> ok (delay_tick ms) P (fun _ w => P w).
Proof.
  intros HS. apply ok_of_Inv; [exact HS|]. intros w HI HP.
  apply Inv_fields; try reflexivity; try exact HI; try (intros; left; assumption).
  intros due0 p H. cbn in H. apply elem_of_app in H as [H|H]; [left; exact H|].
  apply list_elem_of_singleton in H. discriminate.
Qed.

Lemma ok__sync (P : world -> Prop) : stable P -> ok _sync P (fun _ w => P w).
Proof. apply ok_delay_tick. Qed.

Lemma ok_add_inflight p m (P : world -> Prop) :
  stable P ->
  (forall w, P w -> made_at w p (SSend m)) ->
  ok (modify (fun w => set_inflight (inflight w ++ [(p, m)]) w)) P (fun _ w => P w).
Proof.
  intros HS Hp. apply ok_of_Inv; [exact HS|]. intros w HI HP.
  apply Inv_fields; try reflexivity; try exact HI; try (intros; left; assumption).
  intros p0 m0 H. cbn in H. apply elem_of_app in H as [H|H]; [left; exact H | right].
  apply list_elem_of_singleton in H. injection H as -> ->. apply Hp. exact HP.
Qed.

Lemma ok_set__syncPromise x (P : world -> Prop) :
  stable P ->
  (forall w p, P w -> x = Some p ->
     exists src, made_at w p (SChain src (RFinally start_finally))) ->
  ok (set__syncPromise x) P (fun _ w => P w).
Proof.
  intros HS Hx. apply ok_of_Inv; [exact HS|]. intros w HI HP.
  apply Inv_fields; try reflexivity; try exact HI; try (intros; left; assumption).
  intros p H. right. eapply Hx; eauto.
Qed.

Lemma ok_set__syncInProgress x (P : world -> Prop) :
  stable P -> ok (set__syncInProgress x) P (fun _ w => P w).
Proof.
  intros HS. apply ok_of_Inv; [exact HS|]. intros w HI HP.
  apply Inv_fields; try reflexivity; try exact HI; intros; left; assumption.
Qed.

Lemma ok_set__onSyncDone x (P : world -> Prop) :
  stable P ->
  (forall w r, P w -> x = Some r -> made_at w r SNew) ->
  ok (set__onSyncDone x) P (fun _ w => P w).
Proof.
  intros HS Hx. apply ok_of_Inv; [exact HS|]. intros w HI HP.
  apply Inv_fields; try reflexivity; try exact HI; try (intros; left; assumption).
  intros r H. right. eapply Hx; eauto.
Qed.

Lemma ok_set__onSyncError x (P : world -> Prop) :
  stable P ->
  (forall w r, P w -> x = Some r -> made_at w r SNew) ->
  ok (set__onSyncError x) P (fun _ w => P w).
Proof.
  intros HS Hx. apply ok_of_Inv; [exact HS|]. intros w HI HP.
  apply Inv_fields; try reflexivity; try exact HI; try (intros; left; assumption).
  intros r H. right. eapply Hx; eauto.
Qed.

Lemma ok_set_this_cleared (P : world -> Prop) :
  stable P -> ok (modify (set_this cleared)) P (fun _ w => P w).
Proof.
  intros HS. apply ok_of_Inv; [exact HS|]. intros w HI HP.
  apply Inv_fields; try reflexivity; try exact HI;
    first [intros ? H; discriminate H | intros; left; assumption].
Qed.

(** *** The programs *)

Lemma stable_settled_with p o : stable (fun w => settled_with w p o).
Proof. intros w w' He H. eapply settled_with_ext; eauto. Qed.

Lemma stable_clock_ge due : stable (fun w => due <= clock w).
Proof. intros w w' [Hc _] H. lia. Qed.

Ltac stab :=
  repeat first
    [ apply stable_and | apply stable_made_at | apply stable_any | apply stable_site_ok
    | apply stable_is_settled | apply stable_settled_with | apply stable_clock_ge
    | apply stable_const | apply stable_ex; intros ? ].

Lemma ok__clearState (P : world -> Prop) : stable P -> ok _clearState P (fun _ w => P w).
Proof.
  intros HS. unfold _clearState. eapply ok_bind; [exact HS | |intros u].
  - apply ok_ipc_removeAllListeners. exact HS.
  - eapply ok_conseq; [| |apply (ok_set_this_cleared P HS)].
    + intros w _ [H _]. exact H.
    + intros a w _ H. exact H.
Qed.

(** [m] is used in a state that gives its precondition and a frame. *)
Lemma ok_use {A} (m : M A) (P P' F : world -> Prop) (Q : A -> world -> Prop) :
  stable F ->
  ok m P Q ->
  (forall w, Inv w -> P' w -> P w /\ F w) ->
  ok m P' (fun a w => Q a w /\ F w).
Proof.
  intros HS Hm HP w HI HP'. destruct (HP w HI HP') as [H1 H2].
  destruct (Hm w HI H1) as (HI' & He & Hq).
  split; [exact HI'|]. split; [exact He|].
  intros a Ha. split; [apply Hq; exact Ha | eapply HS; eauto].
Qed.

Lemma ok_frame {A} (m : M A) (F : world -> Prop) :
  stable F -> ok m any (fun _ _ => True) -> ok m F (fun _ w => F w).
Proof.
  intros HS Hm. eapply ok_post; [|eapply (ok_use m any F F); eauto].
  - intros a w _ [_ H]. exact H.
  - intros w _ H. split; [exact I | exact H].
Qed.

Lemma may_resolve_free w t s v :
  made_at w t s ->
  match s with SNew | STry | SSend _ => True | _ => False end ->
  may_resolve w t v.
Proof. intros Hm Hs. exists s. split; [exact Hm|]. destruct s; try contradiction; exact I. Qed.

Lemma may_settle_free w t s o :
  made_at w t s ->
  match s with SNew | STry | SSend _ => True | _ => False end ->
  may_settle w t o.
Proof. intros Hm Hs. exists s. split; [exact Hm|]. destruct s; try contradiction; exact I. Qed.

Lemma ok_call_onSyncDone (F : world -> Prop) :
  stable F -> ok call_onSyncDone F (fun _ w => F w).
Proof.
  intros HS. unfold call_onSyncDone. apply ok_gets. intros [r|]; [|apply ok_throw].
  eapply ok_post; [|eapply (ok_use _ _ _ F _ HS (ok_resolve r VUndefined))].
  - intros a w _ [_ H]. exact H.
  - intros w HI [HF Hr]. split; [|exact HF].
    eapply may_resolve_free; [eapply inv_done; eauto | exact I].
Qed.

Lemma ok_call_onSyncError err (F : world -> Prop) :
  stable F -> ok (call_onSyncError err) F (fun _ w => F w).
Proof.
  intros HS. unfold call_onSyncError. apply ok_gets. intros [r|]; [|apply ok_throw].
  eapply ok_post; [|eapply (ok_use _ _ _ F _ HS (ok_reject r err))].
  - intros a w _ [_ H]. exact H.
  - intros w HI [HF Hr]. split; [|exact HF].
    eapply may_settle_free; [eapply inv_error; eauto | exact I].
Qed.

Lemma ok_skip_listener (F : world -> Prop) :
  stable F -> ok skip_listener F (fun _ w => F w).
Proof.
  intros HS. unfold skip_listener.
  eapply ok_bind; [exact HS | apply ok_ipc_removeAllListeners; exact HS | intros u].
  eapply ok_pre; [intros w _ [H _]; exact H|].
  eapply ok_bind; [exact HS | apply ok_log; exact HS | intros u'].
  eapply ok_pre; [intros w _ [H _]; exact H|].
  apply ok_call_onSyncDone. exact HS.
Qed.

Lemma ok_start_executor r (F : world -> Prop) :
  stable F ->
  ok (start_executor r) (fun w => F w /\ made_at w r SNew) (fun _ w => F w).
Proof.
  intros HS. unfold start_executor.
  assert (HS' : stable (fun w => F w /\ made_at w r SNew)) by (stab; exact HS).
  eapply ok_bind; [exact HS' | apply ok_log; exact HS' | intros u1].
  eapply ok_pre; [intros w _ [H _]; exact H|].
  eapply ok_bind; [exact HS' | apply ok_set__syncInProgress; exact HS' | intros u2].
  eapply ok_pre; [intros w _ [H _]; exact H|].
  eapply ok_bind; [exact HS' | apply ok_set__onSyncDone; [exact HS'|] | intros u3].
  { intros w r0 [_ H] [= <-]. exact H. }
  eapply ok_pre; [intros w _ [H _]; exact H|].
  eapply ok_bind; [exact HS' | apply ok_set__onSyncError; [exact HS'|] | intros u4].
  { intros w r0 [_ H] [= <-]. exact H. }
  eapply ok_pre; [intros w _ [H _]; exact H|].
  eapply ok_bind; [exact HS' | apply ok_emit; exact HS' | intros u5].
  eapply ok_pre; [intros w _ [H _]; exact H|].
  eapply ok_bind; [exact HS' | apply ok_ipc_on_skipSync; exact HS' | intros u6].
  eapply ok_pre; [intros w _ [H _]; exact H|].
  eapply ok_post; [|apply ok__sync; exact HS'].
  intros a w _ [H _]. exact H.
Qed.

Lemma ok_Q_try (fn : M value) (F : world -> Prop) (Q : value -> world -> Prop) :
  stable F ->
  ok fn F Q ->
  ok (Q_try fn) F (fun t w => made_at w t STry /\ F w).
Proof.
  intros HS Hfn. unfold Q_try.
  eapply ok_bind; [exact HS | |intros t].
  { eapply (ok_use _ _ _ F _ HS (ok_alloc STry)). intros w _ H. split; [exact I | exact H]. }
  assert (HS' : stable (fun w => made_at w t STry /\ F w)) by (stab; exact HS).
  eapply ok_pre; [intros w _ [_ H]; exact H|].
  eapply ok_bind; [exact HS' | |intros x].
  { apply ok_try. eapply (ok_use _ _ _ _ _ HS' Hfn). intros w _ [H1 H2]. repeat split; assumption. }
  eapply ok_pre; [intros w _ [H _]; exact H|].
  eapply ok_bind; [exact HS' | |intros u].
  { eapply (ok_use _ _ _ _ _ HS' (ok_complete t x)). intros w _ [H1 H2].
    split; [|split; assumption].
    destruct x; [eapply may_resolve_free | eapply may_settle_free]; eauto; exact I. }
  eapply ok_post; [|apply ok_ret].
  intros a w _ [-> [_ [_ H]]]. exact H.
Qed.

Lemma ok_Q_new (executor : pid -> M unit) (F : world -> Prop) :
  stable F ->
  (forall r, ok (executor r) (fun w => F w /\ made_at w r SNew) (fun _ w => F w)) ->
  ok (Q_new executor) F (fun t w => made_at w t SNew /\ F w).
Proof.
  intros HS Hex. unfold Q_new.
  eapply ok_bind; [exact HS | |intros t].
  { eapply (ok_use _ _ _ F _ HS (ok_alloc SNew)). intros w _ H. split; [exact I | exact H]. }
  assert (HS' : stable (fun w => made_at w t SNew /\ F w)) by (stab; exact HS).
  eapply ok_pre; [intros w _ [_ H]; exact H|].
  eapply ok_bind; [exact HS' | |intros x].
  { apply ok_try. eapply (ok_use _ _ _ _ _ HS' (Hex t)).
    intros w _ [H1 H2]. repeat split; assumption. }
  eapply ok_pre; [intros w _ [H _]; exact H|].
  eapply (ok_bind _ _ _ (fun _ w => made_at w t SNew /\ F w)); [exact HS' | |intros u].
  { destruct x as [a|e].
    - eapply ok_post; [|apply ok_ret]. intros a0 w _ [_ H]. exact H.
    - eapply ok_post; [|eapply (ok_use _ _ _ _ _ HS' (ok_reject t e))].
      + intros a w _ [_ H]. exact H.
      + intros w _ [H1 H2]. split; [|split; assumption].
        eapply may_settle_free; eauto; exact I. }
  eapply ok_post; [|apply ok_ret].
  intros a w _ [-> [H _]]. exact H.
Qed.

Lemma ok_chain_in q r (F : world -> Prop) :
  stable F ->
  (forall w, Inv w -> F w -> site_ok w (SChain q r)) ->
  ok (chain q r) F (fun t w => made_at w t (SChain q r) /\ F w).
Proof.
  intros HS Hs. eapply (ok_use _ _ _ F _ HS (ok_chain q r)).
  intros w HI HF. split; [apply Hs; assumption | exact HF].
Qed.

(** The sequence ends with [ret] and the frame as it is. *)
Ltac ret_frame := eapply ok_post; [|apply ok_ret]; intros ? ? _ [_ ?]; assumption.

(** A statement that keeps the frame, then the rest with the same frame. *)
Ltac seq HS :=
  eapply ok_bind; [exact HS | | intros ?];
  [ | eapply ok_pre; [intros ? _ [? _]; eassumption|] ].

Lemma ok_Q_delay ms (F : world -> Prop) :
  stable F -> ok (Q_delay ms) F (fun _ w => F w).
Proof.
  intros HS. unfold Q_delay. apply ok_gets. intros now.
  eapply ok_pre; [intros w _ [H _]; exact H|].
  eapply ok_bind; [exact HS | |intros p].
  { eapply (ok_use _ _ _ F _ HS (ok_alloc (SDelay (now + ms)))).
    intros w _ H. split; [exact I | exact H]. }
  eapply ok_pre; [intros w _ [_ H]; exact H|].
  assert (HS' : stable (fun w => made_at w p (SDelay (now + ms)) /\ F w))
    by (stab; exact HS).
  eapply ok_bind; [exact HS' | |intros u].
  { apply ok_add_timer; [exact HS'|]. intros w p0 [H _] [= <-]. exact H. }
  eapply ok_post; [|apply ok_ret]. intros a w _ [_ [[_ H] _]]. exact H.
Qed.

Lemma ok_send m (F : world -> Prop) :
  stable F -> ok (send m) F (fun _ w => F w).
Proof.
  intros HS. unfold send.
  eapply ok_bind; [exact HS | |intros p].
  { eapply (ok_use _ _ _ F _ HS (ok_alloc (SSend m))).
    intros w _ H. split; [exact I | exact H]. }
  eapply ok_pre; [intros w _ [_ H]; exact H|].
  assert (HS' : stable (fun w => made_at w p (SSend m) /\ F w)) by (stab; exact HS).
  eapply ok_bind; [exact HS' | |intros u].
  { apply ok_add_inflight; [exact HS'|]. intros w [H _]. exact H. }
  eapply ok_post; [|apply ok_ret]. intros a w _ [_ [[_ H] _]]. exact H.
Qed.

Lemma site_ok_then q h w : site_ok w (SChain q (RThen h)).
Proof. cbn. discriminate. Qed.

Lemma site_ok_catch q h w : site_ok w (SChain q (RCatch h)).
Proof. cbn. discriminate. Qed.

Lemma ok_then_ q h (F : world -> Prop) :
  stable F -> ok (then_ q h) F (fun _ w => F w).
Proof.
  intros HS. eapply ok_post; [|apply (ok_chain_in q (RThen h) F HS)].
  - intros a w _ [_ H]. exact H.
  - intros w _ _. apply site_ok_then.
Qed.

Lemma ok_catch_ q h (F : world -> Prop) :
  stable F -> ok (catch_ q h) F (fun _ w => F w).
Proof.
  intros HS. eapply ok_post; [|apply (ok_chain_in q (RCatch h) F HS)].
  - intros a w _ [_ H]. exact H.
  - intros w _ _. apply site_ok_catch.
Qed.

Lemma ok_start (F : world -> Prop) :
  stable F ->
  ok start F
     (fun p w => (exists src, made_at w p (SChain src (RFinally start_finally))) /\ F w).
Proof.
  intros HS. unfold start. apply ok_gets. intros [p|].
  - set (F' := fun w => F w /\
                 exists src, made_at w p (SChain src (RFinally start_finally))).
    assert (HS' : stable F') by (unfold F'; stab; exact HS).
    eapply (ok_pre _ F').
    { intros w HI [HF Hp]. split; [exact HF | eapply inv_promise; eauto]. }
    eapply ok_bind; [exact HS' | apply ok_log; exact HS' | intros u].
    unfold Q_resolve. eapply ok_post; [|apply ok_ret].
    intros a w _ [-> [[HF Hp] _]]. split; assumption.
  - eapply ok_pre; [intros w _ [H _]; exact H|].
    eapply ok_bind; [exact HS | |intros p0].
    { apply (ok_Q_try _ F (fun _ w => F w) HS). apply ok_gets. intros connected.
      eapply ok_pre; [intros w _ [H _]; exact H|].
      destruct connected; cbn [negb]; [|apply ok_throw].
      eapply ok_bind; [exact HS | |intros p].
      { apply (ok_Q_new start_executor F HS). intros r. apply ok_start_executor. exact HS. }
      eapply ok_post; [|apply ok_ret]. intros a w _ [_ [H _]]. exact H. }
    eapply ok_pre; [intros w _ [H _]; exact H|].
    eapply ok_bind; [exact HS | apply ok_then_; exact HS | intros p1].
    eapply ok_pre; [intros w _ [H _]; exact H|].
    eapply ok_bind; [exact HS | |intros p2].
    { apply (ok_chain_in p1 (RCatch start_catch) F HS). intros w _ _. apply site_ok_catch. }
    set (F2 := fun w => made_at w p2 (SChain p1 (RCatch start_catch)) /\ F w).
    assert (HS2 : stable F2) by (unfold F2; stab; exact HS).
    eapply (ok_pre _ F2); [intros w _ [_ H]; exact H|].
    eapply ok_bind; [exact HS2 | |intros p3].
    { apply (ok_chain_in p2 (RFinally start_finally) F2 HS2). intros w _ _.
      cbn. discriminate. }
    set (F3 := fun w => made_at w p3 (SChain p2 (RFinally start_finally)) /\ F2 w).
    assert (HS3 : stable F3) by (unfold F3, F2; stab; exact HS).
    eapply (ok_pre _ F3); [intros w _ [_ H]; exact H|].
    eapply ok_bind; [exact HS3 | |intros u].
    { apply ok_set__syncPromise; [exact HS3|]. intros w p [H _] [= <-]. exists p2. exact H. }
    eapply ok_post; [|apply ok_ret].
    intros a w _ [-> [[H1 [_ H2]] _]]. split; [exists p2; exact H1 | exact H2].
Qed.

Lemma ok_stop (F : world -> Prop) : stable F -> ok stop F (fun _ w => F w).
Proof.
  intros HS. unfold stop. eapply ok_post; [|apply (ok_Q_try _ F (fun _ w => F w) HS)].
  { intros ? ? _ [_ ?]. assumption. }
  apply ok_gets. intros in_progress.
  eapply ok_pre; [intros w _ [H _]; exact H|].
  destruct in_progress; cbn [negb].
  - seq HS; [apply ok_log; exact HS|].
    seq HS; [apply ok__clearState; exact HS|].
    seq HS; [apply ok_Q_delay; exact HS|].
    seq HS; [apply ok_then_; exact HS|].
    ret_frame.
  - seq HS; [apply ok_log; exact HS|].
    ret_frame.
Qed.

Lemma ok_result_of v (F : world -> Prop) : ok (result_of v) F (fun _ w => F w).
Proof.
  destruct v; cbn [result_of]; try apply ok_throw;
    ret_frame.
Qed.

Lemma ok_on_latest_block result v (F : world -> Prop) :
  stable F -> ok (on_latest_block result v) F (fun _ w => F w).
Proof.
  intros HS. unfold on_latest_block.
  seq HS; [apply ok_result_of|]. apply ok_gets. intros now.
  eapply ok_pre; [intros w _ [H _]; exact H|].
  match goal with |- ok (match ?b with _ => _ end) _ _ => destruct b as [|b0] end.
  - seq HS; [apply ok__sync; exact HS|].
    ret_frame.
  - seq HS; [apply ok_log; exact HS|].
    destruct (diff_gt_60 now (timestamp b0)).
    + seq HS; [apply ok_emit; exact HS|].
      seq HS; [apply ok_log; exact HS|].
      seq HS; [apply ok__sync; exact HS|].
      ret_frame.
    + seq HS; [apply ok_log; exact HS|].
      seq HS; [apply ok_call_onSyncDone; exact HS|].
      ret_frame.
Qed.

Lemma ok_on_sync_status v (F : world -> Prop) :
  stable F -> ok (on_sync_status v) F (fun _ w => F w).
Proof.
  intros HS. unfold on_sync_status.
  seq HS; [apply ok_result_of|].
  match goal with |- ok (match ?b with _ => _ end) _ _ => destruct b as [|o] end.
  - seq HS; [apply ok_log; exact HS|].
    seq HS; [apply ok_send; exact HS|].
    seq HS; [apply ok_then_; exact HS|].
    ret_frame.
  - seq HS; [apply ok_log; exact HS|].
    destruct (error o) as [e|].
    + destruct (code e =? -32601); [|apply ok_throw].
      seq HS; [apply ok_log; exact HS|].
      seq HS; [apply ok_call_onSyncDone; exact HS|].
      ret_frame.
    + seq HS; [apply ok_emit; exact HS|].
      seq HS; [apply ok__sync; exact HS|].
      ret_frame.
Qed.

Lemma ok_sync_tick (F : world -> Prop) : stable F -> ok sync_tick F (fun _ w => F w).
Proof.
  intros HS. unfold sync_tick. apply ok_gets. intros in_progress.
  eapply ok_pre; [intros w _ [H _]; exact H|].
  destruct in_progress; cbn [negb]; [|apply ok_log; exact HS].
  seq HS; [apply ok_log; exact HS|].
  seq HS; [apply ok_send; exact HS|].
  seq HS; [apply ok_then_; exact HS|].
  seq HS; [apply ok_catch_; exact HS|].
  ret_frame.
Qed.

Lemma ok__onNodeStateChanged s (F : world -> Prop) :
  stable F -> ok (_onNodeStateChanged s) F (fun _ w => F w).
Proof.
  intros HS. destruct s; cbn [_onNodeStateChanged];
    try ret_frame.
  - seq HS; [apply ok_log; exact HS|].
    seq HS; [apply ok_stop; exact HS|].
    seq HS; [apply ok_then_; exact HS|].
    ret_frame.
  - seq HS; [apply ok_log; exact HS|].
    seq HS; [apply ok_stop; exact HS|].
    ret_frame.
Qed.

Lemma ok_run_then h v (F : world -> Prop) :
  stable F -> ok (run_then h v) F (fun _ w => F w).
Proof.
  intros HS. destruct h; cbn [run_then].
  - seq HS; [apply ok_emit; exact HS|]. ret_frame.
  - seq HS; [apply ok_emit; exact HS|]. ret_frame.
  - apply ok_on_sync_status. exact HS.
  - apply ok_on_latest_block. exact HS.
  - eapply ok_bind; [exact HS | apply ok_start; exact HS | intros p].
    eapply ok_pre; [intros w _ [H _]; exact H|]. ret_frame.
Qed.

Lemma ok_run_catch h e (F : world -> Prop) :
  stable F -> ok (run_catch h e) F (fun _ w => F w).
Proof.
  intros HS. destruct h; cbn [run_catch].
  - seq HS; [apply ok_log; exact HS|].
    seq HS; [apply ok_emit; exact HS|]. ret_frame.
  - seq HS; [apply ok_log; exact HS|].
    seq HS; [apply ok_call_onSyncError; exact HS|]. ret_frame.
Qed.

Lemma ok_run_finally h (F : world -> Prop) :
  stable F -> ok (run_finally h) F (fun _ w => F w).
Proof.
  intros HS. destruct h; cbn [run_finally].
  seq HS; [apply ok_log; exact HS|].
  seq HS; [apply ok__clearState; exact HS|]. ret_frame.
Qed.

Lemma ok_run_job j (F : world -> Prop) :
  stable F ->
  ok (run_job j) (fun w => job_ok w j /\ F w) (fun _ w => F w).
Proof.
  intros HS. destruct j as [[r t] o].
  destruct r as [h|h|h|].
  4: { eapply ok_post; [|eapply (ok_use _ _ _ F _ HS (ok_adopt t o))].
       - intros ? ? _ [_ ?]. assumption.
       - intros w _ [H1 H2]. split; assumption. }
  all: set (G := fun w =>
         (exists src, made_at w t (SChain src
            ltac:(first [exact (RThen h) | exact (RCatch h) | exact (RFinally h)]))
           /\ settled_with w src o) /\ F w).
  all: assert (HG : stable G) by (unfold G; stab; exact HS).
  - (* then *)
    destruct o as [v|e]; cbn [run_job].
    + eapply (ok_pre _ G); [intros w _ H; exact H|].
      eapply ok_bind; [exact HG | apply ok_try; apply ok_run_then; exact HG | intros x].
      eapply ok_post; [|eapply (ok_use _ _ _ F _ HS (ok_complete t x))].
      * intros ? ? _ [_ ?]. assumption.
      * intros w _ [[(src & Hm & Hs) HF] _]. split; [|exact HF].
        destruct x; eexists; (split; [exact Hm|]); eexists; exact Hs.
    + eapply ok_post; [|eapply (ok_use _ _ _ F _ HS (ok_reject t e))].
      * intros ? ? _ [_ ?]. assumption.
      * intros w _ [(src & Hm & Hs) HF]. split; [|exact HF].
        eexists; (split; [exact Hm|]); eexists; exact Hs.
  - (* catch *)
    destruct o as [v|e]; cbn [run_job].
    + eapply ok_post; [|eapply (ok_use _ _ _ F _ HS (ok_fulfil t v))].
      * intros ? ? _ [_ ?]. assumption.
      * intros w _ [(src & Hm & Hs) HF]. split; [|exact HF].
        eexists; (split; [exact Hm|]); eexists; exact Hs.
    + eapply (ok_pre _ G); [intros w _ H; exact H|].
      eapply ok_bind; [exact HG | apply ok_try; apply ok_run_catch; exact HG | intros x].
      eapply ok_post; [|eapply (ok_use _ _ _ F _ HS (ok_complete t x))].
      * intros ? ? _ [_ ?]. assumption.
      * intros w _ [[(src & Hm & Hs) HF] _]. split; [|exact HF].
        destruct x; eexists; (split; [exact Hm|]); eexists; exact Hs.
  - (* finally *)
    cbn [run_job].
    eapply (ok_pre _ G); [intros w _ H; exact H|].
    eapply ok_bind; [exact HG | apply ok_try; apply ok_run_finally; exact HG | intros x].
    assert (Hmay : forall w o', G w -> may_settle w t o').
    { intros w o' [(src & Hm & Hs) _]. eexists; (split; [exact Hm|]); eexists; exact Hs. }
    destruct x as [a|e]; [destruct o as [v|e]|].
    + eapply ok_post; [|eapply (ok_use _ _ _ F _ HS (ok_fulfil t v))].
      * intros ? ? _ [_ ?]. assumption.
      * intros w _ [HGw _]. split; [apply Hmay; exact HGw | exact (proj2 HGw)].
    + eapply ok_post; [|eapply (ok_use _ _ _ F _ HS (ok_reject t e))].
      * intros ? ? _ [_ ?]. assumption.
      * intros w _ [HGw _]. split; [apply Hmay; exact HGw | exact (proj2 HGw)].
    + eapply ok_post; [|eapply (ok_use _ _ _ F _ HS (ok_reject t e))].
      * intros ? ? _ [_ ?]. assumption.
      * intros w _ [HGw _]. split; [apply Hmay; exact HGw | exact (proj2 HGw)].
Qed.

Lemma ok_fire tk :
  ok (fire tk)
     (fun w => forall p, tk = TResolve p ->
                 exists due, made_at w p (SDelay due) /\ due <= clock w)
     (fun _ _ => True).
Proof.
  destruct tk as [|p]; cbn [fire].
  - eapply ok_conseq; [| |apply (ok_sync_tick any stable_any)].
    + intros; exact I.
    + intros; exact I.
  - eapply ok_pre; [|apply ok_resolve].
    intros w _ H. destruct (H p eq_refl) as (due & Hm & Hd).
    exists (SDelay due). split; [exact Hm | exact Hd].
Qed.

Lemma ok_answer p r :
  ok (answer p r) (fun w => exists m, made_at w p (SSend m)) (fun _ _ => True).
Proof.
  destruct r; cbn [answer].
  - eapply ok_pre; [|apply ok_resolve].
    intros w _ [m Hm]. eapply may_resolve_free; [exact Hm | exact I].
  - eapply ok_pre; [|apply ok_reject].
    intros w _ [m Hm]. eapply may_settle_free; [exact Hm | exact I].
Qed.

Lemma ok_call_listeners n : ok (call_listeners n skip_listener) any (fun _ _ => True).
Proof.
  induction n as [|n IH]; cbn [call_listeners].
  - eapply ok_post; [|apply ok_ret]. intros; exact I.
  - eapply ok_bind; [apply stable_any | apply ok_skip_listener; apply stable_any | intros u].
    eapply ok_pre; [|exact IH]. intros; exact I.
Qed.

(** What is left when an entry of a list of the world is taken out. *)
Lemma Inv_sub w w' :
  Inv w ->
  this w' = this w -> clock w' = clock w -> heap w' = heap w ->
  (forall x, x ∈ timers w' -> x ∈ timers w) ->
  (forall x, x ∈ inflight w' -> x ∈ inflight w) ->
  (forall x, x ∈ jobs w' -> x ∈ jobs w) ->
  Inv w' /\ ext w w'.
Proof.
  intros HI H1 H2 H3 H4 H5 H6.
  assert (He : ext w w').
  { split; [lia|]. intros p c Hp. exists c. rewrite H3.
    repeat split; [exact Hp | apply state_le_refl]. }
  split; [|exact He].
  apply (Inv_frame w w' HI He).
  - intros r H. left. congruence.
  - intros r H. left. congruence.
  - intros r H. left. congruence.
  - intros due p H. left. apply H4. exact H.
  - intros p m H. left. apply H5. exact H.
  - intros j H. left. apply H6. exact H.
  - intros q c' rt Hq Hrt. left. exists c'. split; congruence.
  - intros p c' H. left. congruence.
Qed.

Lemma Inv_advance w dt :
  Inv w -> 0 <= dt ->
  Inv (set_clock (clock w + dt) w) /\ ext w (set_clock (clock w + dt) w).
Proof.
  intros HI Hdt.
  assert (He : ext w (set_clock (clock w + dt) w)).
  { split; [cbn; lia|]. intros p c Hp. exists c.
    repeat split; [exact Hp | apply state_le_refl]. }
  split; [|exact He].
  apply (Inv_frame w _ HI He); try (intros; left; assumption).
  intros q c' rt Hq Hrt. left. exists c'. split; assumption.
Qed.

(** Every step of the environment keeps the invariant and leads to a
    later world. *)
Lemma step_Inv a w w' : step a w = Some w' -> Inv w -> Inv w' /\ ext w w'.
Proof.
  intros Hstep HI. destruct a as [| |s|b|b| |dt|i|i r|i]; cbn [step] in Hstep.
  - injection Hstep as <-.
    destruct (ok_start any stable_any w HI I) as (H1 & H2 & _). split; assumption.
  - injection Hstep as <-.
    destruct (ok_stop any stable_any w HI I) as (H1 & H2 & _). split; assumption.
  - injection Hstep as <-.
    destruct (ok__onNodeStateChanged s any stable_any w HI I) as (H1 & H2 & _).
    split; assumption.
  - injection Hstep as <-. apply Inv_same; try reflexivity. exact HI.
  - injection Hstep as <-. apply Inv_same; try reflexivity. exact HI.
  - injection Hstep as <-.
    destruct (ok_call_listeners (skipListeners w) w HI I) as (H1 & H2 & _).
    split; assumption.
  - destruct (0 <=? dt) eqn:Hdt; [|discriminate]. injection Hstep as <-.
    apply Inv_advance; [exact HI | apply Z.leb_le; exact Hdt].
  - destruct (timers w !! i) as [[due tk]|] eqn:Hi; [|discriminate].
    destruct (due <=? clock w) eqn:Hdue; [|discriminate]. injection Hstep as <-.
    apply Z.leb_le in Hdue.
    destruct (Inv_sub w (set_timers (delete i (timers w)) w) HI) as [HI0 He0];
      try reflexivity; try (intros; assumption).
    { intros x Hx. eapply list_elem_of_delete_inv. exact Hx. }
    destruct (ok_fire tk _ HI0) as (H1 & H2 & _).
    { intros p ->. exists due. split; [|exact Hdue].
      apply (made_at_ext w _ _ _ He0). eapply inv_timers; [exact HI|].
      apply list_elem_of_lookup. exists i. exact Hi. }
    split; [exact H1 | exact (ext_trans _ _ _ He0 H2)].
  - destruct (inflight w !! i) as [[p m]|] eqn:Hi; [|discriminate]. injection Hstep as <-.
    destruct (Inv_sub w (set_inflight (delete i (inflight w)) w) HI) as [HI0 He0];
      try reflexivity; try (intros; assumption).
    { intros x Hx. eapply list_elem_of_delete_inv. exact Hx. }
    destruct (ok_answer p r _ HI0) as (H1 & H2 & _).
    { exists m. apply (made_at_ext w _ _ _ He0). eapply inv_inflight; [exact HI|].
      apply list_elem_of_lookup. exists i. exact Hi. }
    split; [exact H1 | exact (ext_trans _ _ _ He0 H2)].
  - destruct (jobs w !! i) as [j|] eqn:Hi; [|discriminate]. injection Hstep as <-.
    destruct (Inv_sub w (set_jobs (delete i (jobs w)) w) HI) as [HI0 He0];
      try reflexivity; try (intros; assumption).
    { intros x Hx. eapply list_elem_of_delete_inv. exact Hx. }
    destruct (ok_run_job j any stable_any _ HI0) as (H1 & H2 & _).
    { split; [|exact I]. eapply job_ok_ext; [exact He0|].
      eapply inv_jobs; [exact HI|]. apply list_elem_of_lookup. exists i. exact Hi. }
    split; [exact H1 | exact (ext_trans _ _ _ He0 H2)].
Qed.

Lemma run_Inv acts w w' : run acts w = Some w' -> Inv w -> Inv w' /\ ext w w'.
Proof.
  revert w. induction acts as [|a acts IH]; intros w Hrun HI; cbn [run] in Hrun.
  - injection Hrun as <-. split; [exact HI | apply ext_refl].
  - destruct (step a w) as [w1|] eqn:Hstep; [|discriminate].
    destruct (step_Inv a w w1 Hstep HI) as [HI1 He1].
    destruct (IH w1 Hrun HI1) as [HI2 He2].
    split; [exact HI2 | eapply ext_trans; eauto].
Qed.

Lemma Inv_init : Inv init.
Proof.
  constructor; cbn; intros;
    try discriminate;
    try match goal with H : _ ∈ [] |- _ => inversion H end;
    try match goal with H : [] !! _ = Some _ |- _ => rewrite lookup_nil in H; discriminate end.
Qed.

Lemma reachable_Inv w : reachable w -> Inv w.
Proof. intros [acts Hrun]. exact (proj1 (run_Inv acts init w Hrun Inv_init)). Qed.
(** C1. If [start()] is called while the session promise exists, it
    returns that very promise and logs a warning; nothing else changes: no
    promise is made, no timer is armed, no RPC call is issued, no event is
    emitted and the fields stay as they are, so there is still one session
    and one polling loop. *)
Theorem start_returns_existing_session (w : world) (p : pid) :
  _syncPromise (this w) = Some p ->
  start w =
    (Normal p,
     set_logged (logged w ++ [(Warn, "Sync already in progress, returning Promise")]) w).
Proof.
  destruct_world w. intros ->. ev.
Qed.

Lemma start_returns_existing_session_witness :
  start active_world =
    (Normal 4%nat,
     set_logged
       (logged active_world ++ [(Warn, "Sync already in progress, returning Promise")])
       active_world).
Proof. exact (start_returns_existing_session active_world 4%nat eq_refl). Defined.

(** C2, as the code has it.  Only the poll tick looks at the session: when
    it fires and finds [_syncInProgress] false it only logs, with no
    event, no RPC call and no further tick (when a new session has set the
    flag again by then, it polls).  The continuations of the two RPC calls
    have no such test.  On a status object without error the first one
    emits progress and arms the next tick, and on a latest block older
    than 60 s the second one does, in whatever state the fields are.  So a
    reply that arrives after [stop()], or after a skip and its cleanup,
    still emits a progress event and arms a tick, for the status call and
    for the block call alike.  With the resolving fields cleared, no
    continuation of a reply changes a promise that exists, queues a
    reaction or sets a field, so no session promise is resolved or
    rejected by it. *)
Theorem reply_after_stop_emits_progress (w : world) :
  (_syncInProgress (this w) = false ->
   sync_tick w =
     (Normal tt,
      set_logged
        (logged w ++ [(Debug, "Sync no longer in progress, so ending sync loop.")]) w))
  /\
  (forall o,
     error o = None ->
     run_then sync_then (VResponse (JObject o)) w =
       (Normal VUndefined,
        set_timers (timers w ++ [(clock w + 2000, TTick)])
          (set_emitted (emitted w ++ [EvNodeSyncing (JObject o)])
             (set_logged (logged w ++ [(Trace, "Sync status")]) w))))
  /\
  (forall result b,
     diff_gt_60 (clock w / 1000) (timestamp b) = true ->
     run_then (sync_block_then result) (VResponse (JObject b)) w =
       (Normal VUndefined,
        set_timers (timers w ++ [(clock w + 2000, TTick)])
          (set_logged (logged w ++ [(Debug, "Last block"); (Trace, "Keep syncing...")])
             (set_emitted (emitted w ++ [EvNodeSyncing result]) w))))
  /\
  (_onSyncDone (this w) = None ->
   _onSyncError (this w) = None ->
   forall v result err w',
     w' = exec (run_then sync_then v) w \/
     w' = exec (run_then (sync_block_then result) v) w \/
     w' = exec (run_catch sync_catch err) w ->
     promises_untouched w w' /\ jobs w' = jobs w /\ this w' = this w)
  /\
  (_syncPromise (this w) = None ->
   isIpcConnected w = true ->
   let n := length (heap w) in
   let i := length (timers w) in
   let j := length (inflight w) in
   let k := length (jobs w) in
   (forall o,
      error o = None ->
      exists w1 w2,
        run [CallStart; Advance 2000; Fire i; CallStop] w = Some w1 /\
        this w1 = cleared /\
        emitted w1 = emitted w ++ [EvStarting] /\
        run [Answer j (Response (JObject o)); RunJob k; RunJob k] w1 = Some w2 /\
        this w2 = cleared /\
        emitted w2 = emitted w ++ [EvStarting; EvNodeSyncing (JObject o)] /\
        timers w2 =
          timers w ++ [(clock w + 2000 + 2000, TResolve (n + 9)%nat);
                       (clock w + 2000 + 2000, TTick)] /\
        jobs w2 = jobs w /\
        state_of w2 (n + 1)%nat = Some Pending /\
        state_of w2 (n + 4)%nat = Some Pending)
   /\
   (forall b,
      diff_gt_60 ((clock w + 2000) / 1000) (timestamp b) = true ->
      exists w1 w2,
        run [CallStart; Advance 2000; Fire i; Answer j (Response JFalsy); RunJob k;
             CallStop] w = Some w1 /\
        this w1 = cleared /\
        emitted w1 = emitted w ++ [EvStarting] /\
        run [Answer j (Response (JObject b)); RunJob k; RunJob k; RunJob k] w1 = Some w2 /\
        this w2 = cleared /\
        emitted w2 = emitted w ++ [EvStarting; EvNodeSyncing JFalsy] /\
        timers w2 =
          timers w ++ [(clock w + 2000 + 2000, TResolve (n + 11)%nat);
                       (clock w + 2000 + 2000, TTick)] /\
        jobs w2 = jobs w /\
        state_of w2 (n + 1)%nat = Some Pending /\
        state_of w2 (n + 4)%nat = Some Pending)
   /\
   (skipListeners w = 0%nat ->
    forall o,
      error o = None ->
      exists w1 w2,
        run [CallStart; Advance 2000; Fire i; SkipSync;
             RunJob k; RunJob k; RunJob k; RunJob k] w = Some w1 /\
        this w1 = cleared /\
        emitted w1 = emitted w ++ [EvStarting; EvFinished] /\
        state_of w1 (n + 4)%nat = Some (Settled (Fulfilled VUndefined)) /\
        run [Answer j (Response (JObject o)); RunJob k; RunJob k] w1 = Some w2 /\
        this w2 = cleared /\
        emitted w2 =
          emitted w ++ [EvStarting; EvFinished; EvNodeSyncing (JObject o)] /\
        timers w2 = timers w ++ [(clock w + 2000 + 2000, TTick)] /\
        jobs w2 = jobs w)).
Proof.
  destruct_world w. split; [|split; [|split; [|split]]].
  - intros ->. ev.
  - intros o Ho. ev.
  - intros result b Hb. ev.
  - intros -> -> v result e w' Hw'.
    assert (Hunt0 : forall sl' tm' em' lg', promises_untouched
              (World (Build_NodeSync sp ip None None) conn sl ck hp jb tm inf em lg el)
              (World (Build_NodeSync sp ip None None) conn sl' ck hp jb tm' inf em' lg' el)).
    { intros ? ? ? ? p c Hp. exact Hp. }
    destruct Hw' as [-> | [-> | ->]].
    + destruct v as [|[|o]|q].
      * erewrite run_exec; [|ev]. split; [apply Hunt0|split; reflexivity].
      * erewrite run_exec; [|ev]. norm. split; [|split; reflexivity].
        intros p c Hp. cbn in *. apply lookup_app_l_Some. exact Hp.
      * destruct (error o) as [e0|] eqn:He.
        -- destruct (code e0 =? -32601) eqn:Hc.
           ++ erewrite run_exec; [|ev]. split; [apply Hunt0|split; reflexivity].
           ++ erewrite run_exec; [|ev]. split; [apply Hunt0|split; reflexivity].
        -- erewrite run_exec; [|ev]. split; [apply Hunt0|split; reflexivity].
      * erewrite run_exec; [|ev]. norm. split; [|split; reflexivity].
        intros p c Hp. cbn in *. apply lookup_app_l_Some. exact Hp.
    + destruct v as [|[|b]|q].
      * erewrite run_exec; [|ev]. split; [apply Hunt0|split; reflexivity].
      * erewrite run_exec; [|ev]. split; [apply Hunt0|split; reflexivity].
      * destruct (diff_gt_60 (ck / 1000) (timestamp b)) eqn:Hd.
        -- erewrite run_exec; [|ev].
           split; [apply Hunt0|split; reflexivity].
        -- erewrite run_exec; [|ev].
           split; [apply Hunt0|split; reflexivity].
      * erewrite run_exec; [|ev]. split; [apply Hunt0|split; reflexivity].
    + erewrite run_exec; [|ev]. split; [apply Hunt0|split; reflexivity].
  - intros -> ->. split; [|split].
    + intros o Ho. eexists. eexists. split. { run_go. }
      split; [reflexivity|]. split; [reflexivity|]. split. { run_go. }
      norm. repeat (split; [reflexivity|]). reflexivity.
    + intros b Hb. eexists. eexists. split. { run_go. }
      split; [reflexivity|]. split; [reflexivity|]. split. { run_go. }
      norm. repeat (split; [reflexivity|]). reflexivity.
    + intros -> o Ho. eexists. eexists. split. { run_go. }
      split; [reflexivity|]. split; [reflexivity|]. split; [norm; reflexivity|].
      split. { run_go. }
      norm. repeat (split; [reflexivity|]). reflexivity.
Qed.

Lemma reply_after_stop_emits_progress_witness :
  (sync_tick stopped_world =
     (Normal tt,
      set_logged
        (logged stopped_world ++
         [(Debug, "Sync no longer in progress, so ending sync loop.")]) stopped_world))
  /\
  (promises_untouched stopped_world
     (exec (run_then sync_then (VResponse syncing_status)) stopped_world) /\
   jobs (exec (run_then sync_then (VResponse syncing_status)) stopped_world)
     = jobs stopped_world /\
   this (exec (run_then sync_then (VResponse syncing_status)) stopped_world)
     = this stopped_world)
  /\
  (exists w1 w2,
     run [CallStart; Advance 2000; Fire 0%nat; CallStop] connected_world = Some w1 /\
     this w1 = cleared /\
     emitted w1 = [EvStarting] /\
     run [Answer 0%nat (Response syncing_status); RunJob 0%nat; RunJob 0%nat] w1 = Some w2 /\
     this w2 = cleared /\
     emitted w2 = [EvStarting; EvNodeSyncing syncing_status] /\
     timers w2 = [(4000, TResolve 9%nat); (4000, TTick)] /\
     jobs w2 = [] /\
     state_of w2 1%nat = Some Pending /\
     state_of w2 4%nat = Some Pending)
  /\
  (exists w1 w2,
     run [CallStart; Advance 2000; Fire 0%nat; Answer 0%nat (Response JFalsy); RunJob 0%nat;
          CallStop] (set_clock 1200000 connected_world) = Some w1 /\
     this w1 = cleared /\
     emitted w1 = [EvStarting] /\
     run [Answer 0%nat (Response (JObject stale_block)); RunJob 0%nat; RunJob 0%nat;
          RunJob 0%nat] w1 = Some w2 /\
     this w2 = cleared /\
     emitted w2 = [EvStarting; EvNodeSyncing JFalsy] /\
     timers w2 = [(1204000, TResolve 11%nat); (1204000, TTick)] /\
     jobs w2 = [] /\
     state_of w2 1%nat = Some Pending /\
     state_of w2 4%nat = Some Pending).
Proof.
  destruct (reply_after_stop_emits_progress stopped_world) as (H1 & _ & _ & H4 & _).
  destruct (reply_after_stop_emits_progress connected_world) as (_ & _ & _ & _ & H5).
  destruct (reply_after_stop_emits_progress (set_clock 1200000 connected_world))
    as (_ & _ & _ & _ & H6).
  split; [exact (H1 eq_refl)|]. split.
  - exact (H4 eq_refl eq_refl (VResponse syncing_status) JFalsy NotConnected _
             (or_introl eq_refl)).
  - split.
    + exact (proj1 (H5 eq_refl eq_refl)
               (RpcObject None None None [("currentBlock", 5); ("highestBlock", 100)])
               eq_refl).
    + exact (proj1 (proj2 (H6 eq_refl eq_refl)) stale_block eq_refl).
Defined.

(** C2, as stated, fails for a call in flight.  The session is started,
    its first tick issues the sync-status call, [stop()] clears the
    session, and when the reply then comes with a status object its
    continuation emits progress and arms another tick.  The same happens
    for the block call, with a latest block older than 60 s, and after a
    skip, where the progress event follows [finished]. *)
Lemma progress_after_stop_counterexample :
  (fun w => (this w, emitted w))
    <$> run [SetConnected true; CallStart; Advance 2000; Fire 0%nat; CallStop] init
  = Some (cleared, [EvStarting])
  /\
  (fun w => (this w, emitted w, fst <$> timers w))
    <$> run [SetConnected true; CallStart; Advance 2000; Fire 0%nat; CallStop;
             Answer 0%nat (Response syncing_status); RunJob 0%nat] init
  = Some (cleared, [EvStarting; EvNodeSyncing syncing_status], [4000; 4000])
  /\
  (fun w => (this w, emitted w))
    <$> run [SetConnected true; Advance 1200000; CallStart; Advance 2000; Fire 0%nat;
             Answer 0%nat (Response JFalsy); RunJob 0%nat; CallStop] init
  = Some (cleared, [EvStarting])
  /\
  (fun w => (this w, emitted w, fst <$> timers w))
    <$> run [SetConnected true; Advance 1200000; CallStart; Advance 2000; Fire 0%nat;
             Answer 0%nat (Response JFalsy); RunJob 0%nat; CallStop;
             Answer 0%nat (Response (JObject stale_block)); RunJob 0%nat] init
  = Some (cleared, [EvStarting; EvNodeSyncing JFalsy], [1204000; 1204000])
  /\
  (fun w => (this w, emitted w))
    <$> run [SetConnected true; CallStart; Advance 2000; Fire 0%nat; SkipSync;
             RunJob 0%nat; RunJob 0%nat; RunJob 0%nat; RunJob 0%nat] init
  = Some (cleared, [EvStarting; EvFinished])
  /\
  (fun w => (this w, emitted w, fst <$> timers w))
    <$> run [SetConnected true; CallStart; Advance 2000; Fire 0%nat; SkipSync;
             RunJob 0%nat; RunJob 0%nat; RunJob 0%nat; RunJob 0%nat;
             Answer 0%nat (Response syncing_status); RunJob 0%nat] init
  = Some (cleared, [EvStarting; EvFinished; EvNodeSyncing syncing_status], [4000]).
Proof. repeat split; reflexivity. Qed.
(** C3, as the code has it.  When [start()] is called with no session
    promise and the transport not connected, nothing is thrown to the
    caller and nothing has failed when the call returns: the error rejects
    the promise of [Q.try], and a new promise, still pending, is returned
    and kept as the session promise.  No session is set up (no [starting]
    event, [_syncInProgress] and the resolving fields untouched, no skip
    listener, no timer, no RPC call).  The three queued reactions then
    pass the error to the catch callback, which calls
    [emit('error', err)], and clear the state.  With no listener of
    ['error'], as the module is exported, that call throws the error and
    the returned promise is rejected with it; with a listener the call
    returns and the returned promise is fulfilled. *)
Theorem start_not_connected (w : world) :
  _syncPromise (this w) = None ->
  isIpcConnected w = false ->
  let n := length (heap w) in
  let k := length (jobs w) in
  exists w1 w2,
    start w = (Normal (n + 3)%nat, w1) /\
    _syncPromise (this w1) = Some (n + 3)%nat /\
    _syncInProgress (this w1) = _syncInProgress (this w) /\
    _onSyncDone (this w1) = _onSyncDone (this w) /\
    _onSyncError (this w1) = _onSyncError (this w) /\
    skipListeners w1 = skipListeners w /\
    emitted w1 = emitted w /\
    timers w1 = timers w /\
    inflight w1 = inflight w /\
    state_of w1 n = Some (Settled (Rejected NotConnected)) /\
    state_of w1 (n + 3)%nat = Some Pending /\
    run [RunJob k; RunJob k; RunJob k] w1 = Some w2 /\
    emitted w2 = emitted w ++ [EvError NotConnected] /\
    this w2 = cleared /\
    jobs w2 = jobs w /\
    state_of w2 (n + 3)%nat =
      Some (Settled (if errorListener w then Fulfilled VUndefined
                     else Rejected NotConnected)).
Proof.
  destruct_world w. intros -> ->. destruct el.
  - eexists. eexists. split. { ev. }
    heap_norm. repeat (split; [reflexivity|]).
    split. { run_go. }
    heap_norm. repeat split; reflexivity.
  - eexists. eexists. split. { ev. }
    heap_norm. repeat (split; [reflexivity|]).
    split. { run_go. }
    heap_norm. repeat split; reflexivity.
Qed.

Lemma start_not_connected_witness :
  exists w1 w2,
    start init = (Normal 3%nat, w1) /\
    _syncPromise (this w1) = Some 3%nat /\
    emitted w1 = [] /\
    state_of w1 3%nat = Some Pending /\
    run [RunJob 0%nat; RunJob 0%nat; RunJob 0%nat] w1 = Some w2 /\
    this w2 = cleared /\
    state_of w2 3%nat = Some (Settled (Rejected NotConnected)).
Proof.
  destruct (start_not_connected init eq_refl eq_refl)
    as (w1 & w2 & H1 & H2 & _ & _ & _ & _ & H3 & _ & _ & _ & H4 & H5 & _ & H6 & _ & H7).
  exists w1, w2. split; [exact H1|]. split; [exact H2|]. split; [exact H3|].
  split; [exact H4|]. split; [exact H5|]. split; [exact H6 | exact H7].
Defined.

(** C3, as stated, fails in two ways.  On the exported instance, whose
    transport is not connected, [start()] returns normally: nothing is
    thrown, the promise 3 it returns is kept as the session promise and
    is pending when the call returns; only the three reactions reject
    it.  And once a module has registered a listener of ['error'], the
    same call ends with the returned promise fulfilled, not failed. *)
Lemma start_not_connected_counterexample :
  isIpcConnected init = false /\
  (start init).1 = Normal 3%nat /\
  state_of (exec start init) 3%nat = Some Pending /\
  _syncPromise (this (exec start init)) = Some 3%nat /\
  (fun w => (state_of w 3%nat, emitted w))
    <$> run [CallStart; RunJob 0%nat; RunJob 0%nat; RunJob 0%nat] init
    = Some (Some (Settled (Rejected NotConnected)), [EvError NotConnected]) /\
  (fun w => (state_of w 3%nat, emitted w))
    <$> run [SetErrorListener true; CallStart; RunJob 0%nat; RunJob 0%nat; RunJob 0%nat] init
    = Some (Some (Settled (Fulfilled VUndefined)), [EvError NotConnected]).
Proof. repeat split; reflexivity. Qed.

(** C4. With no status object the latest block is queried.  With no
    block the next tick is armed; with a block whose age, [now] less its
    timestamp in seconds, is above 60, progress is emitted and the next
    tick is armed; with an age of at most 60 the session promise is
    resolved, nothing is emitted and no tick is armed. *)
Theorem no_status_checks_latest_block (w : world) :
  let n := length (heap w) in
  run_then sync_then (VResponse JFalsy) w =
    (Normal (VPromise (n + 1)%nat),
     set_heap
       (heap w ++
        [Cell Pending [(RThen (sync_block_then JFalsy), (n + 1)%nat)]
           (SSend "eth_getBlockByNumber");
         Cell Pending [] (SChain n (RThen (sync_block_then JFalsy)))])
       (set_inflight (inflight w ++ [(n, "eth_getBlockByNumber")])
          (set_logged (logged w ++ [(Debug, "Check latest block number")]) w)))
  /\
  (forall result,
     run_then (sync_block_then result) (VResponse JFalsy) w =
       (Normal VUndefined, set_timers (timers w ++ [(clock w + 2000, TTick)]) w))
  /\
  (forall result b ts,
     timestamp b = Some ts ->
     60 < clock w / 1000 - ts ->
     run_then (sync_block_then result) (VResponse (JObject b)) w =
       (Normal VUndefined,
        set_timers (timers w ++ [(clock w + 2000, TTick)])
          (set_emitted (emitted w ++ [EvNodeSyncing result])
             (set_logged (logged w ++ [(Debug, "Last block"); (Trace, "Keep syncing...")]) w))))
  /\
  (forall result b ts r c,
     timestamp b = Some ts ->
     clock w / 1000 - ts <= 60 ->
     _onSyncDone (this w) = Some r ->
     heap w !! r = Some c ->
     st c = Pending ->
     run_then (sync_block_then result) (VResponse (JObject b)) w =
       (Normal VUndefined,
        set_jobs (jobs w ++ map (fun rt => (rt.1, rt.2, Fulfilled VUndefined)) (reacts c))
          (set_heap (<[r := Cell (Settled (Fulfilled VUndefined)) [] (made c)]> (heap w))
             (set_logged
                (logged w ++ [(Debug, "Last block"); (Info, "No more sync necessary")]) w)))).
Proof.
  destruct_world w. split; [|split; [|split]].
  - ev.
  - intros result. ev.
  - intros result b ts Hts Hage. apply Z.ltb_lt in Hage.
    unfold run_then, on_latest_block, diff_gt_60. ev.
  - intros result b ts r c Hts Hage -> Hr Hc. apply Z.ltb_ge in Hage.
    unfold run_then, on_latest_block, diff_gt_60. ev.
Qed.

Lemma no_status_checks_latest_block_witness :
  (run_then (sync_block_then JFalsy) (VResponse (JObject stale_block)) active_world).1
    = Normal VUndefined
  /\
  (run_then (sync_block_then JFalsy) (VResponse (JObject fresh_block)) active_world).1
    = Normal VUndefined.
Proof.
  destruct (no_status_checks_latest_block active_world) as (_ & _ & H3 & H4). split.
  - rewrite (H3 JFalsy stale_block 1000 eq_refl eq_refl). reflexivity.
  - rewrite (H4 JFalsy fresh_block 1115 1%nat (Cell Pending [(RFollow, 0%nat)] SNew)
               eq_refl ltac:(vm_compute; discriminate) eq_refl eq_refl eq_refl).
    reflexivity.
Defined.

(** C5. A sync-status reply whose error has code -32601 resolves the
    session promise; the callback emits nothing, arms no timer and issues
    no RPC call.  A session whose first poll gets this reply emits exactly
    [starting] and then [finished], and leaves nothing armed, pending or
    queued. *)
Theorem method_unsupported_finishes (w : world) (o : rpc_object) (e : rpc_error) :
  error o = Some e ->
  code e = -32601 ->
  let n := length (heap w) in
  let i := length (timers w) in
  let j := length (inflight w) in
  let k := length (jobs w) in
  (forall r c,
     _onSyncDone (this w) = Some r ->
     heap w !! r = Some c ->
     st c = Pending ->
     run_then sync_then (VResponse (JObject o)) w =
       (Normal VUndefined,
        set_jobs (jobs w ++ map (fun rt => (rt.1, rt.2, Fulfilled VUndefined)) (reacts c))
          (set_heap (<[r := Cell (Settled (Fulfilled VUndefined)) [] (made c)]> (heap w))
             (set_logged
                (logged w ++ [(Trace, "Sync status");
                              (Warn, "Sync method not implemented, skipping sync.")]) w))))
  /\
  (_syncPromise (this w) = None ->
   isIpcConnected w = true ->
   exists w',
     run [CallStart; Advance 2000; Fire i; Answer j (Response (JObject o));
          RunJob k; RunJob k; RunJob k; RunJob k; RunJob k; RunJob k] w = Some w' /\
     emitted w' = emitted w ++ [EvStarting; EvFinished] /\
     timers w' = timers w /\
     inflight w' = inflight w /\
     jobs w' = jobs w /\
     this w' = cleared /\
     skipListeners w' = 0%nat /\
     state_of w' (n + 4)%nat = Some (Settled (Fulfilled VUndefined))).
Proof.
  intros He Hcode. apply Z.eqb_eq in Hcode.
  destruct_world w. split.
  - intros r c -> Hr Hc. ev.
  - intros -> ->. eexists. split. { run_go. }
    norm. repeat (split; [reflexivity|]). reflexivity.
Qed.

Lemma method_unsupported_finishes_witness :
  exists w',
    run [CallStart; Advance 2000; Fire 0%nat; Answer 0%nat (Response (JObject method_not_found));
         RunJob 0%nat; RunJob 0%nat; RunJob 0%nat; RunJob 0%nat; RunJob 0%nat; RunJob 0%nat]
      connected_world = Some w' /\
    emitted w' = [EvStarting; EvFinished].
Proof.
  destruct (proj2 (method_unsupported_finishes connected_world method_not_found
                     (RpcError (-32601) "Method not found") eq_refl eq_refl)
              eq_refl eq_refl) as (w' & Hrun & Hem & _).
  exists w'. split; [exact Hrun | exact Hem].
Defined.

(** C6. On an idle monitor [stop()] only logs: it returns a promise that
    is fulfilled already, and emits nothing, arms no timer and queues no
    reaction.  On an active session it clears the state at once and arms
    one timer, due after [SYNC_CHECK_INTERVAL_MS] = 2000 ms; nothing is
    emitted by the call.  The timer cannot fire before the interval has
    passed; when it fires, the two reactions it triggers emit [stopped],
    once, and fulfil the returned promise, and nothing of the stop
    remains armed or queued. *)
Theorem stop_idle_and_active (w : world) :
  let n := length (heap w) in
  let i := length (timers w) in
  let k := length (jobs w) in
  (_syncInProgress (this w) = false ->
     stop w =
       (Normal n,
        set_heap (heap w ++ [Cell (Settled (Fulfilled VUndefined)) [] STry])
          (set_logged (logged w ++ [(Debug, "Sync not already in progress.")]) w)))
  /\
  (_syncInProgress (this w) = true ->
     exists w1,
       stop w = (Normal n, w1) /\
       this w1 = cleared /\
       skipListeners w1 = 0%nat /\
       emitted w1 = emitted w /\
       jobs w1 = jobs w /\
       inflight w1 = inflight w /\
       clock w1 = clock w /\
       timers w1 = timers w ++ [(clock w + 2000, TResolve (n + 1)%nat)] /\
       heap w1 = heap w ++
         [Cell (Following (n + 2)%nat) [] STry;
          Cell Pending [(RThen stop_then, (n + 2)%nat)] (SDelay (clock w + 2000));
          Cell Pending [(RFollow, n)] (SChain (n + 1)%nat (RThen stop_then))] /\
       (forall dt, dt < 2000 -> run [Advance dt; Fire i] w1 = None) /\
       (forall dt, 2000 <= dt ->
          exists w2,
            run [Advance dt; Fire i; RunJob k; RunJob k] w1 = Some w2 /\
            emitted w2 = emitted w ++ [EvStopped] /\
            state_of w2 n = Some (Settled (Fulfilled VUndefined)) /\
            heap w2 = heap w ++
              [Cell (Settled (Fulfilled VUndefined)) [] STry;
               Cell (Settled (Fulfilled VUndefined)) [] (SDelay (clock w + 2000));
               Cell (Settled (Fulfilled VUndefined)) []
                 (SChain (n + 1)%nat (RThen stop_then))] /\
            timers w2 = timers w /\
            jobs w2 = jobs w /\
            this w2 = cleared)).
Proof.
  destruct_world w. split; intros ->.
  - ev.
  - eexists. split. { ev. }
    heap_norm. repeat (split; [reflexivity|]). split.
    + intros dt Hdt. cbn [run step]. heap_norm.
      destruct (0 <=? dt); [|reflexivity]. heap_norm.
      replace (ck + 2000 <=? ck + dt) with false; [reflexivity|].
      symmetry. apply Z.leb_gt. lia.
    + intros dt Hdt. eexists. split.
      { eapply run_cons.
        { cbn [step]. replace (0 <=? dt) with true by (symmetry; apply Z.leb_le; lia).
          reflexivity. }
        eapply run_cons.
        { cbn [step]. heap_norm.
          replace (ck + 2000 <=? ck + dt) with true by (symmetry; apply Z.leb_le; lia).
          apply (f_equal Some). eapply run_exec. ev. }
        run_go. }
      heap_norm. repeat split; reflexivity.
Qed.

Lemma stop_idle_and_active_witness :
  (stop init).1 = Normal 0%nat
  /\
  exists w1 w2,
    stop active_world = (Normal 5%nat, w1) /\
    this w1 = cleared /\
    emitted w1 = [EvStarting] /\
    run [Advance 1999; Fire 1%nat] w1 = None /\
    run [Advance 2000; Fire 1%nat; RunJob 0%nat; RunJob 0%nat] w1 = Some w2 /\
    emitted w2 = [EvStarting; EvStopped].
Proof.
  split.
  - rewrite (proj1 (stop_idle_and_active init) eq_refl). reflexivity.
  - destruct (proj2 (stop_idle_and_active active_world) eq_refl)
      as (w1 & H1 & H2 & _ & H3 & _ & _ & _ & _ & _ & H4 & H5).
    destruct (H5 2000 ltac:(vm_compute; discriminate)) as (w2 & H6 & H7 & _).
    exists w1, w2. split; [exact H1|]. split; [exact H2|]. split; [exact H3|].
    split; [exact (H4 1999 eq_refl)|]. split; [exact H6 | exact H7].
Defined.



(** C8. A state other than Connected and Stopping changes nothing.  On
    Stopping [stop()] is called and nothing waits for its promise.  On
    Connected [stop()] is called and [start()] is only registered as the
    reaction of its promise: when the monitor is idle that promise is
    fulfilled already and the reaction is queued, not run; when a session
    is active the promise follows the one that the timer of the grace
    delay settles, due 2000 ms later, and in every execution from there
    the reaction that calls [start()] is neither queued nor run before
    the clock has reached that time; once the timer has fired, [stopped]
    is emitted, the promise of [stop()] is fulfilled and only then
    [start()] runs. *)
Theorem node_state_reactions (w : world) :
  let n := length (heap w) in
  (forall s, s <> CONNECTED -> s <> STOPPING -> _onNodeStateChanged s w = (Normal tt, w))
  /\
  exec (_onNodeStateChanged STOPPING) w
    = exec stop (exec (log Info "Foicoin node stopping, so stop sync") w)
  /\
  (_syncInProgress (this w) = false ->
   _onNodeStateChanged CONNECTED w =
     (Normal tt,
      set_jobs (jobs w ++ [(RThen restart_then, (n + 1)%nat, Fulfilled VUndefined)])
        (set_heap
           (heap w ++
            [Cell (Settled (Fulfilled VUndefined)) [] STry;
             Cell Pending [] (SChain n (RThen restart_then))])
           (set_logged
              (logged w ++ [(Info, "Foicoin node connected, re-start sync");
                            (Debug, "Sync not already in progress.")]) w))))
  /\
  (_syncInProgress (this w) = true ->
   _onNodeStateChanged CONNECTED w =
     (Normal tt,
      set_this cleared
        (set_skipListeners 0%nat
           (set_timers (timers w ++ [(clock w + 2000, TResolve (n + 1)%nat)])
              (set_heap
                 (heap w ++
                  [Cell (Following (n + 2)%nat) [(RThen restart_then, (n + 3)%nat)] STry;
                   Cell Pending [(RThen stop_then, (n + 2)%nat)] (SDelay (clock w + 2000));
                   Cell Pending [(RFollow, n)] (SChain (n + 1)%nat (RThen stop_then));
                   Cell Pending [] (SChain n (RThen restart_then))])
                 (set_logged
                    (logged w ++ [(Info, "Foicoin node connected, re-start sync");
                                  (Info, "Stopping sync loop")]) w))))))
  /\
  (_syncInProgress (this w) = true ->
   isIpcConnected w = true ->
   forall dt, 2000 <= dt ->
   exists w3,
     run [Advance dt; Fire (length (timers w)); RunJob (length (jobs w));
          RunJob (length (jobs w)); RunJob (length (jobs w))]
       (exec (_onNodeStateChanged CONNECTED) w) = Some w3 /\
     emitted w3 = emitted w ++ [EvStopped; EvStarting] /\
     state_of w3 n = Some (Settled (Fulfilled VUndefined)) /\
     _syncInProgress (this w3) = true /\
     timers w3 = timers w ++ [(clock w + dt + 2000, TTick)])
  /\
  (reachable w ->
   _syncInProgress (this w) = true ->
   forall acts w2,
     run acts (exec (_onNodeStateChanged CONNECTED) w) = Some w2 ->
     (exists o, (RThen restart_then, (n + 3)%nat, o) ∈ jobs w2) \/
     state_of w2 (n + 3)%nat <> Some Pending ->
     clock w + 2000 <= clock w2).
Proof.
  intros n.
  assert (Hactive : _syncInProgress (this w) = true ->
   _onNodeStateChanged CONNECTED w =
     (Normal tt,
      set_this cleared
        (set_skipListeners 0%nat
           (set_timers (timers w ++ [(clock w + 2000, TResolve (n + 1)%nat)])
              (set_heap
                 (heap w ++
                  [Cell (Following (n + 2)%nat) [(RThen restart_then, (n + 3)%nat)] STry;
                   Cell Pending [(RThen stop_then, (n + 2)%nat)] (SDelay (clock w + 2000));
                   Cell Pending [(RFollow, n)] (SChain (n + 1)%nat (RThen stop_then));
                   Cell Pending [] (SChain n (RThen restart_then))])
                 (set_logged
                    (logged w ++ [(Info, "Foicoin node connected, re-start sync");
                                  (Info, "Stopping sync loop")]) w)))))).
  { subst n. destruct_world w. intros ->. ev. }
  split; [|split; [|split; [|split; [exact Hactive|split]]]].
  - intros s H1 H2. destruct s; try contradiction; reflexivity.
  - destruct_world w. destruct ip.
    + erewrite run_exec; [|ev]. symmetry.
      erewrite (run_exec (log Info _)); [|ev]. erewrite run_exec; [|ev]. reflexivity.
    + erewrite run_exec; [|ev]. symmetry.
      erewrite (run_exec (log Info _)); [|ev]. erewrite run_exec; [|ev]. reflexivity.
  - subst n. destruct_world w. intros ->. ev.
  - intros Hip Hconn dt Hdt. unfold exec at 1. rewrite (Hactive Hip). cbn [snd].
    subst n. destruct_world w. subst ip conn. eexists. split.
    { eapply run_cons.
      { cbn [step]. replace (0 <=? dt) with true by (symmetry; apply Z.leb_le; lia).
        reflexivity. }
      eapply run_cons.
      { cbn [step]. norm.
        replace (ck + 2000 <=? ck + dt) with true by (symmetry; apply Z.leb_le; lia).
        apply (f_equal Some). eapply run_exec. ev. }
      run_go. }
    norm. repeat (split; [reflexivity|]). reflexivity.
  - intros Hreach Hip acts w2 Hrun Hq.
    pose proof (reachable_Inv w Hreach) as HI.
    destruct (ok__onNodeStateChanged CONNECTED any stable_any w HI I) as (HI1 & _ & _).
    change ((_onNodeStateChanged CONNECTED w).2)
      with (exec (_onNodeStateChanged CONNECTED) w) in HI1.
    destruct (run_Inv acts _ w2 Hrun HI1) as [HI2 He2].
    unfold exec in He2. rewrite (Hactive Hip) in He2. cbn [snd] in He2.
    set (w1 := set_this _ _) in He2.
    assert (Hlk : forall k c, [Cell (Following (n + 2)%nat) [(RThen restart_then, (n + 3)%nat)] STry;
                   Cell Pending [(RThen stop_then, (n + 2)%nat)] (SDelay (clock w + 2000));
                   Cell Pending [(RFollow, n)] (SChain (n + 1)%nat (RThen stop_then));
                   Cell Pending [] (SChain n (RThen restart_then))] !! k = Some c ->
                 heap w1 !! (n + k)%nat = Some c).
    { intros k c Hk. unfold w1. cbn [heap set_this set_skipListeners set_timers set_heap].
      subst n. rewrite lookup_app_plus. exact Hk. }
    pose proof (Hlk 0%nat _ eq_refl) as H0. rewrite Nat.add_0_r in H0.
    pose proof (Hlk 1%nat _ eq_refl) as H1.
    pose proof (Hlk 2%nat _ eq_refl) as H2.
    pose proof (Hlk 3%nat _ eq_refl) as H3.
    destruct (proj2 He2 _ _ H0) as (c0 & Hc0 & Hm0 & Hle0).
    destruct (proj2 He2 _ _ H1) as (c1 & Hc1 & Hm1 & Hle1).
    destruct (proj2 He2 _ _ H2) as (c2 & Hc2 & Hm2 & Hle2).
    destruct (proj2 He2 _ _ H3) as (c3 & Hc3 & Hm3 & Hle3).
    cbn [made st] in *.
    (* the promise of stop() is settled *)
    assert (Hs0 : is_settled w2 n).
    { destruct Hq as [[o Hj] | Hnp].
      - destruct (inv_jobs w2 HI2 _ Hj) as (src & Hm & Hs). cbn [fst snd] in *.
        assert (Heq : SChain src (RThen restart_then) = SChain n (RThen restart_then)).
        { eapply made_at_fun; [exact Hm|]. exists c3. split; assumption. }
        injection Heq as ->. exists o. exact Hs.
      - pose proof (inv_cells w2 HI2 _ c3 Hc3) as Hok. unfold cell_ok in Hok.
        rewrite Hm3 in Hok. destruct Hok as (_ & Hs).
        apply Hs. intros Hp. apply Hnp. unfold state_of. rewrite Hc3. cbn. congruence. }
    (* so is the promise it follows *)
    assert (Hs2 : is_settled w2 (n + 2)%nat).
    { destruct Hs0 as (o & c0' & Hc0' & Ho). assert (c0' = c0) by congruence. subst c0'.
      destruct Hle0 as [Heq | [Hp | (q & o' & Hf & _ & Hs)]]; try congruence.
      injection Hf as <-. exists o'. exact Hs. }
    (* so is the promise of the delay, and the time has come *)
    assert (Hs1 : is_settled w2 (n + 1)%nat).
    { pose proof (inv_cells w2 HI2 _ c2 Hc2) as Hok. unfold cell_ok in Hok.
      rewrite Hm2 in Hok. destruct Hok as (_ & Hs). apply Hs.
      destruct Hs2 as (o & c2' & Hc2' & Ho). assert (c2' = c2) by congruence. subst c2'.
      congruence. }
    pose proof (inv_cells w2 HI2 _ c1 Hc1) as Hok. unfold cell_ok in Hok.
    rewrite Hm1 in Hok. apply Hok.
    destruct Hs1 as (o & c1' & Hc1' & Ho). assert (c1' = c1) by congruence. subst c1'.
    congruence.
Qed.

Lemma node_state_reactions_witness :
  _onNodeStateChanged STARTING active_world = (Normal tt, active_world)
  /\
  clock active_world + 2000
    <= clock (after [Advance 2000; Fire 1%nat; RunJob 0%nat; RunJob 0%nat]
                (exec (_onNodeStateChanged CONNECTED) active_world)).
Proof.
  destruct (node_state_reactions active_world) as (H1 & _ & _ & _ & _ & H6). split.
  - exact (H1 STARTING ltac:(discriminate) ltac:(discriminate)).
  - refine (H6 (ex_intro _ [Advance 1120000; SetConnected true; CallStart] _)
               _ [Advance 2000; Fire 1%nat; RunJob 0%nat; RunJob 0%nat] _ _
               (or_introl (ex_intro _ (Fulfilled VUndefined) _))).
    + vm_compute. reflexivity.
    + vm_compute. reflexivity.
    + vm_compute. reflexivity.
    + vm_compute. apply list_elem_of_here.
Defined.

(** C9. In the branch without a status object the callback of the block
    query is closed over the falsy [result]; when the block is older than
    60 s the progress event carries that [result], whatever the block
    holds. *)
Theorem no_status_progress_payload (w : world) (b : rpc_object) (ts : Z) :
  timestamp b = Some ts ->
  60 < clock w / 1000 - ts ->
  let n := length (heap w) in
  (exists w1,
     run_then sync_then (VResponse JFalsy) w = (Normal (VPromise (n + 1)%nat), w1) /\
     heap w1 !! n =
       Some (Cell Pending [(RThen (sync_block_then JFalsy), (n + 1)%nat)]
               (SSend "eth_getBlockByNumber")))
  /\
  emitted (exec (run_then (sync_block_then JFalsy) (VResponse (JObject b))) w)
    = emitted w ++ [EvNodeSyncing JFalsy]
  /\
  (forall result,
     emitted (exec (run_then (sync_block_then result) (VResponse (JObject b))) w)
       = emitted w ++ [EvNodeSyncing result]).
Proof.
  intros Hts Hage. apply Z.ltb_lt in Hage.
  assert (Hgen : forall result,
     emitted (exec (run_then (sync_block_then result) (VResponse (JObject b))) w)
       = emitted w ++ [EvNodeSyncing result]).
  { intros result. destruct_world w.
    erewrite run_exec; [|unfold run_then, on_latest_block, diff_gt_60; ev].
    reflexivity. }
  split; [|split; [apply Hgen | exact Hgen]].
  destruct_world w. eexists. split. { ev. }
  norm. reflexivity.
Qed.

Lemma no_status_progress_payload_witness :
  emitted (exec (run_then (sync_block_then JFalsy)
                   (VResponse (JObject (RpcObject None (Some 7) (Some 1000) []))))
             (set_clock 1120000 init))
    = [EvNodeSyncing JFalsy].
Proof.
  apply (no_status_progress_payload (set_clock 1120000 init)
           (RpcObject None (Some 7) (Some 1000) []) 1000 eq_refl eq_refl).
Defined.


Lemma fst_of_run {A} (m : M A) w x : m w = x -> (m w).1 = x.1.
Proof. intros ->. reflexivity. Qed.

(** [start()] does not throw. *)
Lemma start_returns w : exists p, (start w).1 = Normal p.
Proof.
  destruct_world w. destruct sp as [p|]; [|destruct conn];
    eexists; (erewrite fst_of_run; [|ev]); reflexivity.
Qed.

(** C10, as the code has it.  [start()] itself never throws.  The error of
    a failed session, the not-connected one or one of the poll loop,
    reaches the [catch] callback of [start()], which calls
    [emit('error', err)]: with a listener of ['error'] the call returns
    and the promise of the [catch] is fulfilled, with none the call
    throws the error and that promise is rejected with it.  The [finally]
    callback clears the state in both cases and hands the outcome it got,
    fulfilled or rejected, to the returned promise.  So a session that
    fails, for want of a connection or by a failure of its first call,
    ends with the error emitted, the state cleared, and the returned
    promise fulfilled when ['error'] has a listener and rejected with the
    error when it has none, as on the instance the module exports.  A
    session that is stopped leaves the returned promise pending, with
    nothing armed or queued that could settle it. *)
Theorem start_promise_outcome (w : world) :
  (exists p, (start w).1 = Normal p)
  /\
  (forall t c e,
     heap w !! t = Some c ->
     st c = Pending ->
     let w' := exec (run_job (RCatch start_catch, t, Rejected e)) w in
     emitted w' = emitted w ++ [EvError e] /\
     state_of w' t =
       Some (Settled (if errorListener w then Fulfilled VUndefined else Rejected e)))
  /\
  (forall t c o,
     heap w !! t = Some c ->
     st c = Pending ->
     let w' := exec (run_job (RFinally start_finally, t, o)) w in
     this w' = cleared /\
     skipListeners w' = 0%nat /\
     emitted w' = emitted w /\
     state_of w' t = Some (Settled o))
  /\
  (_syncPromise (this w) = None ->
   let n := length (heap w) in
   let i := length (timers w) in
   let j := length (inflight w) in
   let k := length (jobs w) in
   (isIpcConnected w = false ->
    exists w',
      run [CallStart; RunJob k; RunJob k; RunJob k] w = Some w' /\
      emitted w' = emitted w ++ [EvError NotConnected] /\
      this w' = cleared /\
      state_of w' (n + 3)%nat =
        Some (Settled (if errorListener w then Fulfilled VUndefined
                       else Rejected NotConnected)))
   /\
   (isIpcConnected w = true ->
    forall msg,
    exists w',
      run [CallStart; Advance 2000; Fire i; Answer j (Failure msg);
           RunJob k; RunJob k; RunJob k; RunJob k; RunJob k; RunJob k] w = Some w' /\
      emitted w' = emitted w ++ [EvStarting; EvError (TransportError msg)] /\
      this w' = cleared /\
      state_of w' (n + 4)%nat =
        Some (Settled (if errorListener w then Fulfilled VUndefined
                       else Rejected (TransportError msg))))
   /\
   (isIpcConnected w = true ->
    exists w',
      run [CallStart; CallStop; Advance 2000; Fire i; Fire i; RunJob k; RunJob k] w = Some w' /\
      emitted w' = emitted w ++ [EvStarting; EvStopped] /\
      this w' = cleared /\
      timers w' = timers w /\
      inflight w' = inflight w /\
      jobs w' = jobs w /\
      state_of w' (n + 4)%nat = Some Pending)).
Proof.
  split; [|split; [|split]].
  - apply start_returns.
  - intros t c e Hc Hst w'. subst w'. destruct_world w.
    assert (Hlt : (t < length hp)%nat) by (eapply lookup_lt_Some; eauto).
    destruct el; (erewrite run_exec; [|ev]); norm;
      rewrite list_lookup_insert_eq by exact Hlt; split; reflexivity.
  - intros t c o Hc Hst w'. subst w'. destruct_world w.
    assert (Hlt : (t < length hp)%nat) by (eapply lookup_lt_Some; eauto).
    destruct o; (erewrite run_exec; [|ev]); norm;
      rewrite list_lookup_insert_eq by exact Hlt; repeat split; reflexivity.
  - destruct_world w. intros ->. split; [|split]; intros ->.
    + destruct el; (eexists; split; [run_go|]);
        norm; repeat (split; [reflexivity|]); reflexivity.
    + intros msg. destruct el; (eexists; split; [run_go|]);
        norm; repeat (split; [reflexivity|]); reflexivity.
    + eexists; split; [run_go|].
      norm. repeat (split; [reflexivity|]). reflexivity.
Qed.

Lemma start_promise_outcome_witness :
  (exists w',
     run [CallStart; RunJob 0%nat; RunJob 0%nat; RunJob 0%nat] init = Some w' /\
     emitted w' = [EvError NotConnected] /\
     this w' = cleared /\
     state_of w' 3%nat = Some (Settled (Rejected NotConnected)))
  /\
  (exists w',
     run [CallStart; Advance 2000; Fire 0%nat; Answer 0%nat (Failure "connection lost");
          RunJob 0%nat; RunJob 0%nat; RunJob 0%nat; RunJob 0%nat; RunJob 0%nat; RunJob 0%nat]
       connected_world = Some w' /\
     emitted w' = [EvStarting; EvError (TransportError "connection lost")] /\
     this w' = cleared /\
     state_of w' 4%nat = Some (Settled (Rejected (TransportError "connection lost"))))
  /\
  (exists w',
     run [CallStart; CallStop; Advance 2000; Fire 0%nat; Fire 0%nat; RunJob 0%nat;
          RunJob 0%nat] connected_world = Some w' /\
     emitted w' = [EvStarting; EvStopped] /\
     this w' = cleared /\
     timers w' = [] /\
     inflight w' = [] /\
     jobs w' = [] /\
     state_of w' 4%nat = Some Pending).
Proof.
  destruct (start_promise_outcome init) as (_ & _ & _ & H).
  destruct (H eq_refl) as (H1 & _).
  destruct (start_promise_outcome connected_world) as (_ & _ & _ & H').
  destruct (H' eq_refl) as (_ & H2 & H3).
  split; [exact (H1 eq_refl)|]. split; [exact (H2 eq_refl "connection lost")|].
  exact (H3 eq_refl).
Defined.

(** C10, as stated, fails on the instance the module exports, which has
    no listener of ['error']: [start()] without a connection returns the
    promise 3, and after its three callbacks that promise is rejected
    with the not-connected error; a session whose first call fails in the
    transport ends with the returned promise 4 rejected with that
    failure.  And after [stop()] the returned promise is not fulfilled
    either: it stays pending. *)
Lemma start_promise_rejects_counterexample :
  (start init).1 = Normal 3%nat /\
  (fun w => (state_of w 3%nat, emitted w, this w))
    <$> run [CallStart; RunJob 0%nat; RunJob 0%nat; RunJob 0%nat] init
  = Some (Some (Settled (Rejected NotConnected)), [EvError NotConnected], cleared) /\
  (fun w => (state_of w 4%nat, emitted w, this w))
    <$> run [SetConnected true; CallStart; Advance 2000; Fire 0%nat;
             Answer 0%nat (Failure "connection lost");
             RunJob 0%nat; RunJob 0%nat; RunJob 0%nat;
             RunJob 0%nat; RunJob 0%nat; RunJob 0%nat] init
  = Some (Some (Settled (Rejected (TransportError "connection lost"))),
          [EvStarting; EvError (TransportError "connection lost")], cleared) /\
  (fun w => (state_of w 4%nat, emitted w, timers w, inflight w, jobs w))
    <$> run [SetConnected true; CallStart; CallStop; Advance 2000;
             Fire 0%nat; Fire 0%nat; RunJob 0%nat; RunJob 0%nat] init
  = Some (Some Pending, [EvStarting; EvStopped], [], [], []).
Proof. repeat split; reflexivity. Qed.

(** * Further properties of the code *)

Lemma delete_app_plus {A} (l l' : list A) k :
  delete (length l + k)%nat (l ++ l') = l ++ delete k l'.
Proof. induction l; cbn; [reflexivity | f_equal; exact IHl]. Qed.

Lemma run_app acts1 acts2 w :
  run (acts1 ++ acts2) w =
    match run acts1 w with
    | Some w1 => run acts2 w1
    | None => None
    end.
Proof.
  revert w. induction acts1 as [|a acts1 IH]; intros w; cbn [run app]; [reflexivity|].
  destruct (step a w); [apply IH | reflexivity].
Qed.

(** One round of the polling loop with a reply that keeps it going. *)
Lemma poll_round_ok (w : world) (r : poll_reply) tm due :
  _syncInProgress (this w) = true ->
  timers w = tm ++ [(due, TTick)] ->
  due <= clock w + 2000 ->
  keeps_polling (clock w + 2000) r = true ->
  exists w',
    run (poll_round (length tm) (length (inflight w)) (length (jobs w)) r) w = Some w' /\
    emitted w' = emitted w ++ poll_event r /\
    this w' = this w /\
    skipListeners w' = skipListeners w /\
    isIpcConnected w' = isIpcConnected w /\
    timers w' = tm ++ [(clock w + 2000 + 2000, TTick)] /\
    inflight w' = inflight w /\
    jobs w' = jobs w /\
    clock w' = clock w + 2000 /\
    promises_untouched w w'.
Proof.
  destruct_world w. intros -> -> Hdue Hk.
  assert (Hd : (due <=? ck + 2000) = true) by (apply Z.leb_le; lia).
  destruct r as [o| |b]; cbn [keeps_polling] in Hk; cbn [poll_round app poll_event].
  - destruct (error o) eqn:He; [discriminate|].
    eexists. split. { run_go. }
    unfold promises_untouched. norm. repeat (split; [reflexivity|]).
    intros p c Hp. apply lookup_app_l_Some. exact Hp.
  - eexists. split. { run_go. }
    unfold promises_untouched. norm. repeat (split; [reflexivity|]).
    intros p c Hp. apply lookup_app_l_Some. exact Hp.
  - eexists. split. { run_go. }
    unfold promises_untouched. norm. repeat (split; [reflexivity|]).
    intros p c Hp. apply lookup_app_l_Some. exact Hp.
Qed.

(** ** Properties that every statement keeps *)

Lemma keeps_ret {A} I (a : A) : keeps I (ret a).
Proof. intros w H. exact H. Qed.

Lemma keeps_throw {A} I e : keeps I (@throw A e).
Proof. intros w H. exact H. Qed.

Lemma keeps_gets {A} I (f : world -> A) : keeps I (gets f).
Proof. intros w H. exact H. Qed.

Lemma keeps_bind {A B} I (m : M A) (k : A -> M B) :
  keeps I m -> (forall a, keeps I (k a)) -> keeps I (bind m k).
Proof.
  intros Hm Hk w H. unfold bind. specialize (Hm w H).
  destruct (m w) as [[a|e] w1]; [apply Hk; exact Hm | exact Hm].
Qed.

Lemma keeps_try {A} I (m : M A) : keeps I m -> keeps I (try_ m).
Proof. intros Hm w H. unfold try_. specialize (Hm w H). destruct (m w). exact Hm. Qed.

Lemma keeps_modify I f : (forall w, I w -> I (f w)) -> keeps I (modify f).
Proof. intros Hf w H. apply Hf. exact H. Qed.

Lemma keeps_exec {A} I (m : M A) w : keeps I m -> I w -> I (exec m w).
Proof. intros Hm H. apply Hm. exact H. Qed.

Lemma same_core_refl w : same_core w w.
Proof. repeat split. Qed.

Lemma same_core_trans w1 w2 w3 : same_core w1 w2 -> same_core w2 w3 -> same_core w1 w3.
Proof. unfold same_core. intros H1 H2. intuition congruence. Qed.

(** A change of the promises, the reactions, the events or the log. *)
Lemma keeps_core_modify w0 f : (forall w, same_core w (f w)) -> keeps (same_core w0) (modify f).
Proof. intros Hf. apply keeps_modify. intros w H. eapply same_core_trans; [exact H | apply Hf]. Qed.

(** The program of the goal [keeps I m] is taken apart down to the
    statements that the hints or the context know. *)
Ltac keeps_go :=
  lazymatch goal with
  | |- keeps _ (bind _ _) => apply keeps_bind; [keeps_go | intros ?; keeps_go]
  | |- keeps _ (try_ _) => apply keeps_try; keeps_go
  | |- keeps _ (ret _) => apply keeps_ret
  | |- keeps _ (throw _) => apply keeps_throw
  | |- keeps _ (gets _) => apply keeps_gets
  | |- keeps (same_core _) (modify _) =>
      apply keeps_core_modify;
      let w := fresh "w" in
      intros w; destruct w; unfold same_core; cbn;
      repeat match goal with |- context [match ?x with _ => _ end] => destruct x; cbn end;
      repeat split; reflexivity
  | |- keeps _ (match ?x with _ => _ end) => destruct x; keeps_go
  | |- keeps _ ?m =>
      first [ assumption
            | solve [auto with keeps]
            | let h := head_of m in unfold h; keeps_go ]
  end.

Create HintDb keeps.

Lemma core_emit w0 e : keeps (same_core w0) (emit e).
Proof. keeps_go. Qed.
Lemma core_log w0 l msg : keeps (same_core w0) (log l msg).
Proof. keeps_go. Qed.
Lemma core_alloc w0 s : keeps (same_core w0) (alloc s).
Proof. intros w H. eapply same_core_trans; [exact H|]. destruct w. repeat split. Qed.
Lemma core_set_state w0 p s : keeps (same_core w0) (set_state p s).
Proof. keeps_go. Qed.
Lemma core_settle w0 p o : keeps (same_core w0) (settle p o).
Proof. keeps_go. Qed.
Lemma core_subscribe w0 q r t : keeps (same_core w0) (subscribe q r t).
Proof. keeps_go. Qed.
#[export] Hint Resolve core_emit core_log core_alloc core_set_state core_settle
  core_subscribe : keeps.

Lemma core_fulfil w0 p v : keeps (same_core w0) (fulfil p v).
Proof. keeps_go. Qed.
Lemma core_reject w0 p e : keeps (same_core w0) (reject p e).
Proof. keeps_go. Qed.
Lemma core_resolve w0 p v : keeps (same_core w0) (resolve p v).
Proof. keeps_go. Qed.
Lemma core_adopt w0 t o : keeps (same_core w0) (adopt t o).
Proof. keeps_go. Qed.
Lemma core_chain w0 q r : keeps (same_core w0) (chain q r).
Proof. keeps_go. Qed.
#[export] Hint Resolve core_fulfil core_reject core_resolve core_adopt core_chain : keeps.

Lemma core_complete w0 t x : keeps (same_core w0) (complete t x).
Proof. keeps_go. Qed.
Lemma core_then_ w0 q h : keeps (same_core w0) (then_ q h).
Proof. keeps_go. Qed.
Lemma core_catch_ w0 q h : keeps (same_core w0) (catch_ q h).
Proof. keeps_go. Qed.
Lemma core_answer w0 p r : keeps (same_core w0) (answer p r).
Proof. keeps_go. Qed.
Lemma core_call_onSyncDone w0 : keeps (same_core w0) call_onSyncDone.
Proof. keeps_go. Qed.
Lemma core_call_onSyncError w0 e : keeps (same_core w0) (call_onSyncError e).
Proof. keeps_go. Qed.
#[export] Hint Resolve core_complete core_then_ core_catch_ core_answer
  core_call_onSyncDone core_call_onSyncError : keeps.

(** Every step keeps a property [I] of the world that the statements
    which change the world keep.  [T] tells the promises that a reaction,
    a timer or a reply may settle without harm to [I]. *)
Section Kept.
Variable I : world -> Prop.
Variable T : pid -> Prop.
Hypothesis I_emit_stopped : keeps I (emit EvStopped).
Hypothesis I_emit_syncing : forall result, keeps I (emit (EvNodeSyncing result)).
Hypothesis I_emit_error : forall e, keeps I (emit (EvError e)).
Hypothesis I_finished :
  forall w i t v,
    jobs w !! i = Some (RThen start_then, t, Fulfilled v) -> T t -> I w ->
    I (exec (run_job (RThen start_then, t, Fulfilled v)) (set_jobs (delete i (jobs w)) w)).
Hypothesis I_log : forall l msg, keeps I (log l msg).
Hypothesis I_chain : forall q r, r <> RThen start_then -> keeps I (chain q r).
Hypothesis I_adopt : forall t o, keeps I (adopt t o).
Hypothesis I_resolve : forall p v, T p -> keeps I (resolve p v).
Hypothesis I_reject : forall p e, T p -> keeps I (reject p e).
Hypothesis I_fulfil : forall p v, T p -> keeps I (fulfil p v).
Hypothesis I_call_done : keeps I call_onSyncDone.
Hypothesis I_call_error : forall e, keeps I (call_onSyncError e).
Hypothesis I_connected : forall b w, I w -> I (set_isIpcConnected b w).
Hypothesis I_listener : forall b w, I w -> I (set_errorListener b w).
Hypothesis I_advance : forall dt w, 0 <= dt -> I w -> I (set_clock (clock w + dt) w).
Hypothesis I_fired : forall i w, I w -> I (set_timers (delete i (timers w)) w).
Hypothesis I_answered : forall i w, I w -> I (set_inflight (delete i (inflight w)) w).
Hypothesis I_dequeued : forall i w, I w -> I (set_jobs (delete i (jobs w)) w).
Hypothesis I_sync : keeps I _sync.
Hypothesis I_send_status : keeps I (send "eth_syncing").
Hypothesis I_send_block : keeps I (send "eth_getBlockByNumber").
Hypothesis I_unlisten : keeps I ipc_removeAllListeners.
Hypothesis I_clear : keeps I _clearState.
Hypothesis I_start : keeps I start.
Hypothesis I_stop : keeps I stop.

Ltac kept :=
  lazymatch goal with
  | |- keeps _ (bind _ _) => apply keeps_bind; [kept | intros ?; kept]
  | |- keeps _ (try_ _) => apply keeps_try; kept
  | |- keeps _ (ret _) => apply keeps_ret
  | |- keeps _ (throw _) => apply keeps_throw
  | |- keeps _ (gets _) => apply keeps_gets
  | |- keeps _ (match ?x with _ => _ end) => destruct x; kept
  | |- keeps _ ?m =>
      first [ solve [auto]
            | solve [apply I_chain; discriminate]
            | let h := head_of m in unfold h; kept ]
  end.

Lemma kept_on_sync_status v : keeps I (on_sync_status v).
Proof. kept. Qed.

Lemma kept_on_latest_block result v : keeps I (on_latest_block result v).
Proof. kept. Qed.

Lemma kept_sync_tick : keeps I sync_tick.
Proof. kept. Qed.

Lemma kept__onNodeStateChanged s : keeps I (_onNodeStateChanged s).
Proof. kept. Qed.

Lemma kept_run_job r t o :
  (r <> RFollow -> T t) ->
  (forall v, (r, o) <> (RThen start_then, Fulfilled v)) ->
  keeps I (run_job (r, t, o)).
Proof.
  intros Ht Hn. destruct r as [h|h|h|]; [| | |apply I_adopt];
    (assert (Ht' : T t) by (apply Ht; discriminate)).
  - destruct o as [v|e]; [|kept].
    destruct h; [exfalso; exact (Hn v eq_refl) | kept | kept | kept | kept].
  - kept.
  - kept.
Qed.

Lemma kept_fire tk : (forall p, tk = TResolve p -> T p) -> keeps I (fire tk).
Proof.
  intros Ht. destruct tk as [|p]; [apply kept_sync_tick|].
  apply I_resolve. apply Ht. reflexivity.
Qed.

Lemma kept_answer p r : T p -> keeps I (answer p r).
Proof. intros Ht. kept. Qed.

Lemma kept_call_listeners n : keeps I (call_listeners n skip_listener).
Proof.
  induction n as [|n IH]; cbn [call_listeners]; [apply keeps_ret|].
  apply keeps_bind; [kept | intros _; exact IH].
Qed.

Lemma step_keeps a w w' :
  (forall i due p, timers w !! i = Some (due, TResolve p) -> T p) ->
  (forall i p m, inflight w !! i = Some (p, m) -> T p) ->
  (forall i r t o, jobs w !! i = Some (r, t, o) -> r <> RFollow -> T t) ->
  step a w = Some w' -> I w -> I w'.
Proof.
  intros Htm Hinf Hjb Hstep H.
  destruct a as [| |s|b|b| |dt|i|i r|i]; cbn [step] in Hstep.
  - injection Hstep as <-. apply keeps_exec; assumption.
  - injection Hstep as <-. apply keeps_exec; assumption.
  - injection Hstep as <-. apply keeps_exec; [apply kept__onNodeStateChanged | exact H].
  - injection Hstep as <-. apply I_connected. exact H.
  - injection Hstep as <-. apply I_listener. exact H.
  - injection Hstep as <-. apply keeps_exec; [apply kept_call_listeners | exact H].
  - destruct (0 <=? dt) eqn:Hdt; [|discriminate]. injection Hstep as <-.
    apply I_advance; [apply Z.leb_le; exact Hdt | exact H].
  - destruct (timers w !! i) as [[due tk]|] eqn:Hi; [|discriminate].
    destruct (due <=? clock w); [|discriminate]. injection Hstep as <-.
    apply keeps_exec; [|apply I_fired; exact H].
    apply kept_fire. intros p ->. exact (Htm i due p Hi).
  - destruct (inflight w !! i) as [[p m]|] eqn:Hi; [|discriminate]. injection Hstep as <-.
    apply keeps_exec; [|apply I_answered; exact H].
    apply kept_answer. exact (Hinf i p m Hi).
  - destruct (jobs w !! i) as [[[r t] o]|] eqn:Hi; [|discriminate]. injection Hstep as <-.
    assert (Hd : (exists v, (r, o) = (RThen start_then, Fulfilled v)) \/
                 (forall v, (r, o) <> (RThen start_then, Fulfilled v))).
    { destruct r as [[| | | |]| | |], o as [v|e];
        first [left; exists v; reflexivity | right; intros v'; discriminate]. }
    destruct Hd as [[v Hv] | Hn].
    + injection Hv as -> ->. apply (I_finished w i t v Hi); [|exact H].
      apply (Hjb i _ t _ Hi). discriminate.
    + apply keeps_exec; [|apply I_dequeued; exact H].
      apply kept_run_job; [exact (Hjb i r t o Hi) | exact Hn].
Qed.
End Kept.

(** The reaction that emits [finished], for a property that every event
    keeps. *)
Lemma finished_kept (I : world -> Prop) (T : pid -> Prop) :
  keeps I (emit EvFinished) ->
  (forall p v, T p -> keeps I (resolve p v)) ->
  (forall p e, T p -> keeps I (reject p e)) ->
  (forall i w, I w -> I (set_jobs (delete i (jobs w)) w)) ->
  forall w i t v,
    jobs w !! i = Some (RThen start_then, t, Fulfilled v) -> T t -> I w ->
    I (exec (run_job (RThen start_then, t, Fulfilled v)) (set_jobs (delete i (jobs w)) w)).
Proof.
  intros He Hr Hj Hd w i t v _ Ht H. apply keeps_exec; [|apply Hd; exact H].
  cbn [run_job run_then]. apply keeps_bind.
  - apply keeps_try. apply keeps_bind; [exact He | intros _; apply keeps_ret].
  - intros [a|e]; cbn [complete]; [apply Hr | apply Hj]; exact Ht.
Qed.

(** The case of a property that does not read the promises, the queued
    reactions, the events or the log. *)
Lemma step_keeps_core (I : world -> Prop) :
  (forall w w', same_core w w' -> I w -> I w') ->
  (forall b w, I w -> I (set_isIpcConnected b w)) ->
  (forall dt w, 0 <= dt -> I w -> I (set_clock (clock w + dt) w)) ->
  (forall i w, I w -> I (set_timers (delete i (timers w)) w)) ->
  (forall i w, I w -> I (set_inflight (delete i (inflight w)) w)) ->
  keeps I _sync ->
  keeps I (send "eth_syncing") ->
  keeps I (send "eth_getBlockByNumber") ->
  keeps I ipc_removeAllListeners ->
  keeps I _clearState ->
  keeps I start ->
  keeps I stop ->
  forall a w w', step a w = Some w' -> I w -> I w'.
Proof.
  intros I_core H1 H2 H3 H4 H5 H6 H7 H8 H9 H10 H11 a w w'.
  assert (Hs : forall A (m : M A), (forall w0, keeps (same_core w0) m) -> keeps I m).
  { intros A m Hm w0 H. apply (I_core w0); [|exact H]. apply Hm. apply same_core_refl. }
  assert (Hd : forall i w0, I w0 -> I (set_jobs (delete i (jobs w0)) w0)).
  { intros i w0 H. apply (I_core w0); [repeat split | exact H]. }
  assert (He : forall e, keeps I (emit e)) by (intros; apply Hs; intros; auto with keeps).
  assert (Hl : forall b w0, I w0 -> I (set_errorListener b w0)).
  { intros b w0 H. apply (I_core w0); [repeat split | exact H]. }
  apply (step_keeps I (fun _ => True)); try assumption; try (intros; exact Logic.I);
    try solve [intros; apply He];
    try solve [intros; apply Hs; intros; auto with keeps].
  apply (finished_kept I (fun _ => True)); try assumption;
    solve [intros; apply He | intros; apply Hs; intros; auto with keeps].
Qed.

Lemma run_kept (I : world -> Prop) :
  (forall a w w', step a w = Some w' -> I w -> I w') ->
  forall acts w w', run acts w = Some w' -> I w -> I w'.
Proof.
  intros Hstep acts. induction acts as [|a acts IH]; intros w w' Hrun H; cbn [run] in Hrun.
  - injection Hrun as <-. exact H.
  - destruct (step a w) as [w1|] eqn:Hs; [|discriminate].
    apply (IH w1 w' Hrun). eapply Hstep; eauto.
Qed.

(** ** The three invariants *)

Lemma keeps_of_exec {A} (I : world -> Prop) (m : M A) :
  (forall w, I w -> I (exec m w)) -> keeps I m.
Proof. intros H. exact H. Qed.

Lemma fields_ok_start : keeps fields_ok start.
Proof.
  apply keeps_of_exec. intros w H. destruct_world w. unfold fields_ok in *. cbn in H.
  destruct sp as [p|].
  - erewrite run_exec; [|ev]. exact H.
  - destruct ip; [destruct H as (_ & H & _); contradiction|]. destruct H as (-> & -> & ->).
    destruct conn.
    + erewrite run_exec; [|ev]. cbn.
      split; [eexists; split; reflexivity|]. split; [discriminate | lia].
    + erewrite run_exec; [|ev]. cbn. repeat split.
Qed.

Lemma fields_ok_stop : keeps fields_ok stop.
Proof.
  apply keeps_of_exec. intros w H. destruct_world w. unfold fields_ok in *. cbn in H.
  destruct ip.
  - erewrite run_exec; [|ev]. cbn. repeat split.
  - erewrite run_exec; [|ev]. cbn. exact H.
Qed.

Lemma fields_ok_step a w w' : step a w = Some w' -> fields_ok w -> fields_ok w'.
Proof.
  apply step_keeps_core.
  - intros w0 w1 (H1 & _ & H3 & _). unfold fields_ok. rewrite H1, H3. tauto.
  - intros b w0 H. exact H.
  - intros dt w0 _ H. exact H.
  - intros i w0 H. exact H.
  - intros i w0 H. exact H.
  - intros w0 H. exact H.
  - intros w0 H. exact H.
  - intros w0 H. exact H.
  - intros w0 H. destruct_world w0. unfold fields_ok in *. cbn in *.
    destruct ip; [|tauto]. destruct H as (H1 & H2 & _).
    split; [exact H1|]. split; [exact H2 | lia].
  - intros w0 _. unfold fields_ok. cbn. repeat split.
  - exact fields_ok_start.
  - exact fields_ok_stop.
Qed.

Lemma fields_ok_reachable w : reachable w -> fields_ok w.
Proof.
  intros [acts Hrun]. apply (run_kept fields_ok fields_ok_step acts init w Hrun).
  unfold fields_ok. cbn. repeat split.
Qed.

Lemma timers_ok_app w l :
  timers_ok w ->
  (forall x, x ∈ l -> x.1 <= clock w + 2000) ->
  forall due tk, (due, tk) ∈ timers w ++ l -> due <= clock w + 2000.
Proof.
  intros H Hl due tk Hin. apply elem_of_app in Hin as [Hin|Hin].
  - exact (H due tk Hin).
  - exact (Hl _ Hin).
Qed.

Lemma timers_ok_start : keeps timers_ok start.
Proof.
  apply keeps_of_exec. intros w H. destruct_world w. destruct sp as [p|]; [|destruct conn].
  - erewrite run_exec; [|ev]. exact H.
  - erewrite run_exec; [|ev]. unfold timers_ok. cbn. apply (timers_ok_app _ _ H).
    intros x Hx. apply list_elem_of_singleton in Hx as ->. cbn. lia.
  - erewrite run_exec; [|ev]. exact H.
Qed.

Lemma timers_ok_stop : keeps timers_ok stop.
Proof.
  apply keeps_of_exec. intros w H. destruct_world w. destruct ip.
  - erewrite run_exec; [|ev]. unfold timers_ok. cbn. apply (timers_ok_app _ _ H).
    intros x Hx. apply list_elem_of_singleton in Hx as ->. cbn. lia.
  - erewrite run_exec; [|ev]. exact H.
Qed.

Lemma timers_ok_step a w w' : step a w = Some w' -> timers_ok w -> timers_ok w'.
Proof.
  apply step_keeps_core.
  - intros w0 w1 (_ & _ & _ & H4 & H5 & _) H. unfold timers_ok. rewrite H4, H5. exact H.
  - intros b w0 H. exact H.
  - intros dt w0 Hdt H due tk Hin. specialize (H due tk Hin). cbn. unfold SYNC_CHECK_INTERVAL_MS in *. lia.
  - intros i w0 H due tk Hin. apply (H due tk). eapply list_elem_of_delete_inv. exact Hin.
  - intros i w0 H. exact H.
  - intros w0 H. destruct_world w0. unfold timers_ok. cbn. apply (timers_ok_app _ _ H).
    intros x Hx. apply list_elem_of_singleton in Hx as ->. cbn.
    unfold SYNC_CHECK_INTERVAL_MS. lia.
  - intros w0 H. exact H.
  - intros w0 H. exact H.
  - intros w0 H. exact H.
  - intros w0 H. exact H.
  - exact timers_ok_start.
  - exact timers_ok_stop.
Qed.

Lemma armed_since_app w0 w l :
  armed_since w0 w ->
  (forall x, x ∈ l -> x.1 = clock w + 2000) ->
  forall due tk,
    (due, tk) ∈ timers w ++ l ->
    (due, tk) ∈ timers w0 \/ clock w0 + 2000 <= due <= clock w + 2000.
Proof.
  intros [Hc H] Hl due tk Hin. apply elem_of_app in Hin as [Hin|Hin].
  - exact (H due tk Hin).
  - right. specialize (Hl _ Hin). cbn in Hl. lia.
Qed.

Lemma armed_since_start w0 : keeps (armed_since w0) start.
Proof.
  apply keeps_of_exec. intros w H. destruct_world w. destruct sp as [p|]; [|destruct conn].
  - erewrite run_exec; [|ev]. exact H.
  - erewrite run_exec; [|ev]. split; [exact (proj1 H)|]. cbn.
    apply (armed_since_app _ _ _ H).
    intros x Hx. apply list_elem_of_singleton in Hx as ->. reflexivity.
  - erewrite run_exec; [|ev]. exact H.
Qed.

Lemma armed_since_stop w0 : keeps (armed_since w0) stop.
Proof.
  apply keeps_of_exec. intros w H. destruct_world w. destruct ip.
  - erewrite run_exec; [|ev]. split; [exact (proj1 H)|]. cbn.
    apply (armed_since_app _ _ _ H).
    intros x Hx. apply list_elem_of_singleton in Hx as ->. reflexivity.
  - erewrite run_exec; [|ev]. exact H.
Qed.

Lemma armed_since_step w0 a w w' :
  step a w = Some w' -> armed_since w0 w -> armed_since w0 w'.
Proof.
  apply step_keeps_core.
  - intros w1 w2 (_ & _ & _ & H4 & H5 & _) H. unfold armed_since. rewrite H4, H5. exact H.
  - intros b w1 H. exact H.
  - intros dt w1 Hdt [Hc H]. split; [cbn; lia|]. intros due tk Hin.
    destruct (H due tk Hin) as [Hold|Hnew]; [left; exact Hold|right].
    cbn. unfold SYNC_CHECK_INTERVAL_MS in *. lia.
  - intros i w1 [Hc H]. split; [exact Hc|]. intros due tk Hin. apply (H due tk).
    eapply list_elem_of_delete_inv. exact Hin.
  - intros i w1 H. exact H.
  - intros w1 H. destruct_world w1. split; [exact (proj1 H)|]. cbn.
    apply (armed_since_app _ _ _ H).
    intros x Hx. apply list_elem_of_singleton in Hx as ->. reflexivity.
  - intros w1 H. exact H.
  - intros w1 H. exact H.
  - intros w1 H. exact H.
  - intros w1 H. exact H.
  - apply armed_since_start.
  - apply armed_since_stop.
Qed.

Lemma calls_ok_send m :
  m = "eth_syncing" \/ m = "eth_getBlockByNumber" -> keeps calls_ok (send m).
Proof.
  intros Hm w H. destruct_world w. intros p m' Hin. cbn in Hin.
  apply elem_of_app in Hin as [Hin|Hin]; [exact (H p m' Hin)|].
  apply list_elem_of_singleton in Hin. injection Hin as _ ->. exact Hm.
Qed.

Lemma calls_ok_start : keeps calls_ok start.
Proof.
  apply keeps_of_exec. intros w H. destruct_world w. destruct sp as [p|]; [|destruct conn];
    (erewrite run_exec; [|ev]); exact H.
Qed.

Lemma calls_ok_stop : keeps calls_ok stop.
Proof.
  apply keeps_of_exec. intros w H. destruct_world w. destruct ip;
    (erewrite run_exec; [|ev]); exact H.
Qed.

Lemma calls_ok_step a w w' : step a w = Some w' -> calls_ok w -> calls_ok w'.
Proof.
  apply step_keeps_core.
  - intros w0 w1 (_ & _ & _ & _ & _ & H6) H. unfold calls_ok. rewrite H6. exact H.
  - intros b w0 H. exact H.
  - intros dt w0 _ H. exact H.
  - intros i w0 H. exact H.
  - intros i w0 H p m Hin. apply (H p m). eapply list_elem_of_delete_inv. exact Hin.
  - intros w0 H. exact H.
  - apply calls_ok_send. left. reflexivity.
  - apply calls_ok_send. right. reflexivity.
  - intros w0 H. exact H.
  - intros w0 H. exact H.
  - exact calls_ok_start.
  - exact calls_ok_stop.
Qed.

(** ** A stopped session is never resolved *)

Lemma orphan_heap r w w' :
  orphan r w ->
  this w' = this w ->
  (forall c, heap w !! r = Some c ->
     exists c', heap w' !! r = Some c' /\ st c' = st c /\ made c' = made c) ->
  orphan r w'.
Proof.
  intros ((c & Hc & Hs & Hm) & Hd & He) Ht Hh. destruct (Hh c Hc) as (c' & Hc' & Hs' & Hm').
  split; [|rewrite Ht; split; assumption].
  exists c'. split; [exact Hc'|]. split; congruence.
Qed.

Lemma orphan_same r w w' :
  orphan r w -> this w' = this w -> heap w' = heap w -> orphan r w'.
Proof.
  intros H Ht Hh. apply (orphan_heap r w w' H Ht). intros c Hc. exists c. rewrite Hh. auto.
Qed.

Lemma orphan_emit r e : keeps (orphan r) (emit e).
Proof.
  intros w H. rewrite emit_world.
  apply (orphan_same r w); [exact H | reflexivity | reflexivity].
Qed.

Lemma orphan_log r l msg : keeps (orphan r) (log l msg).
Proof. intros w H. apply (orphan_same r w); [exact H | reflexivity | reflexivity]. Qed.

Lemma orphan_alloc r s : keeps (orphan r) (alloc s).
Proof.
  intros w H. apply (orphan_heap r w); [exact H | reflexivity|].
  intros c Hc. exists c. split; [|auto]. cbn. apply lookup_app_l_Some. exact Hc.
Qed.

Lemma orphan_insert r w p c' :
  orphan r w ->
  (p = r -> st c' = Pending /\ made c' = SNew) ->
  orphan r (set_heap (<[p := c']> (heap w)) w).
Proof.
  intros H Hp. destruct (decide (p = r)) as [->|Hne].
  - destruct H as ((c & Hc & Hs & Hm) & Hd & He). destruct (Hp eq_refl) as [Hs' Hm'].
    split; [|split; assumption]. exists c'. split; [|split; assumption].
    cbn. apply list_lookup_insert_eq. eapply lookup_lt_Some. exact Hc.
  - apply (orphan_heap r w); [exact H | reflexivity|].
    intros c Hc. exists c. split; [|auto]. cbn. rewrite list_lookup_insert_ne by exact Hne.
    exact Hc.
Qed.

Lemma orphan_subscribe r q r' t : keeps (orphan r) (subscribe q r' t).
Proof.
  intros w H. unfold subscribe, modify. cbn [snd].
  destruct (heap w !! q) as [cq|] eqn:Hq; [|exact H].
  assert (Hi : orphan r
            (set_heap (<[q := Cell (st cq) (reacts cq ++ [(r', t)]) (made cq)]> (heap w)) w)).
  { apply orphan_insert; [exact H|]. intros ->.
    destruct H as ((c & Hc & Hs & Hm) & _). rewrite Hq in Hc. injection Hc as ->.
    split; assumption. }
  destruct (st cq); [exact Hi | exact Hi|].
  apply (orphan_same r w); [exact H | reflexivity | reflexivity].
Qed.

Lemma orphan_set_state r p s : p <> r -> keeps (orphan r) (set_state p s).
Proof.
  intros Hne w H. unfold set_state, modify. cbn [snd].
  destruct (heap w !! p) as [c|]; [|exact H].
  apply orphan_insert; [exact H|]. intros Hp. contradiction.
Qed.

Lemma orphan_settle r p o : p <> r -> keeps (orphan r) (settle p o).
Proof.
  intros Hne w H. unfold settle, modify. cbn [snd].
  destruct (heap w !! p) as [c|]; [|exact H].
  apply (orphan_same r (set_heap (<[p := Cell (Settled o) [] (made c)]> (heap w)) w));
    [|reflexivity|reflexivity].
  apply orphan_insert; [exact H|]. intros Hp. contradiction.
Qed.

Lemma orphan_fulfil r p v : p <> r -> keeps (orphan r) (fulfil p v).
Proof.
  intros Hne. unfold fulfil. apply keeps_bind; [apply keeps_gets|].
  intros [[| |]|]; try apply keeps_ret. apply orphan_settle. exact Hne.
Qed.

Lemma orphan_reject r p e : p <> r -> keeps (orphan r) (reject p e).
Proof.
  intros Hne. unfold reject. apply keeps_bind; [apply keeps_gets|].
  intros [[| |]|]; try apply keeps_ret. apply orphan_settle. exact Hne.
Qed.

Lemma orphan_resolve r p v : p <> r -> keeps (orphan r) (resolve p v).
Proof.
  intros Hne. destruct v as [| |q]; cbn [resolve]; try (apply orphan_fulfil; exact Hne).
  apply keeps_bind; [apply keeps_gets|].
  intros [[| |]|]; try apply keeps_ret.
  apply keeps_bind; [apply orphan_set_state; exact Hne | intros _; apply orphan_subscribe].
Qed.

Lemma orphan_adopt r t o : keeps (orphan r) (adopt t o).
Proof.
  intros w H. unfold adopt, bind, gets.
  destruct (state_of w t) as [[|q|]|] eqn:Hs; try exact H.
  apply orphan_settle; [|exact H]. intros ->.
  destruct H as ((c & Hc & Hst & _) & _). unfold state_of in Hs. rewrite Hc in Hs.
  cbn in Hs. congruence.
Qed.

Lemma orphan_chain r q r' : keeps (orphan r) (chain q r').
Proof.
  unfold chain. apply keeps_bind; [apply orphan_alloc | intros t].
  apply keeps_bind; [apply orphan_subscribe | intros _; apply keeps_ret].
Qed.

Lemma orphan_call_onSyncDone r : keeps (orphan r) call_onSyncDone.
Proof.
  intros w H. unfold call_onSyncDone, bind, gets.
  destruct (_onSyncDone (this w)) as [r'|] eqn:E; [|exact H].
  apply orphan_resolve; [|exact H]. intros ->. destruct H as (_ & Hd & _). contradiction.
Qed.

Lemma orphan_call_onSyncError r e : keeps (orphan r) (call_onSyncError e).
Proof.
  intros w H. unfold call_onSyncError, bind, gets.
  destruct (_onSyncError (this w)) as [r'|] eqn:E; [|exact H].
  apply orphan_reject; [|exact H]. intros ->. destruct H as (_ & _ & He). contradiction.
Qed.

Lemma orphan_send r m : keeps (orphan r) (send m).
Proof.
  unfold send. apply keeps_bind; [apply orphan_alloc | intros p].
  apply keeps_bind; [|intros _; apply keeps_ret].
  intros w H. apply (orphan_same r w); [exact H | reflexivity | reflexivity].
Qed.

(** A promise of the heap [hp] is not touched by what happens behind it. *)
Lemma orphan_grow r th' hp conn' sl' ck' l jb' tm' inf' em' lg' el' :
  (exists c, hp !! r = Some c /\ st c = Pending /\ made c = SNew) ->
  _onSyncDone th' <> Some r ->
  _onSyncError th' <> Some r ->
  orphan r (World th' conn' sl' ck' (hp ++ l) jb' tm' inf' em' lg' el').
Proof.
  intros (c & Hc & Hs & Hm) Hd He. split; [|split; assumption].
  exists c. split; [|split; assumption]. cbn. apply lookup_app_l_Some. exact Hc.
Qed.

Lemma orphan_start r : keeps (orphan r) start.
Proof.
  apply keeps_of_exec. intros w H. destruct_world w.
  assert (Hlt : (r < length hp)%nat).
  { destruct H as ((c & Hc & _) & _). eapply lookup_lt_Some. exact Hc. }
  destruct H as (Hh & Hd & He). cbn in Hd, He.
  destruct sp as [p|]; [|destruct conn].
  - erewrite run_exec; [|ev]. rewrite <- (app_nil_r hp).
    eapply orphan_grow; [exact Hh | exact Hd | exact He].
  - erewrite run_exec; [|ev].
    eapply orphan_grow; [exact Hh | |];
      cbn; intros [= E]; lia.
  - erewrite run_exec; [|ev].
    eapply orphan_grow; [exact Hh | exact Hd | exact He].
Qed.

Lemma orphan_stop r : keeps (orphan r) stop.
Proof.
  apply keeps_of_exec. intros w H. destruct_world w.
  destruct H as (Hh & Hd & He). cbn in Hd, He.
  destruct ip.
  - erewrite run_exec; [|ev].
    eapply orphan_grow; [exact Hh | |]; cbn; discriminate.
  - erewrite run_exec; [|ev].
    eapply orphan_grow; [exact Hh | exact Hd | exact He].
Qed.

Lemma orphan_step r a w w' :
  Inv w -> step a w = Some w' -> orphan r w -> orphan r w'.
Proof.
  intros HI Hstep H.
  assert (Hsite : forall p s, made_at w p s -> s <> SNew -> p <> r).
  { intros p s (c & Hc & Hm) Hs ->. destruct H as ((c' & Hc' & _ & Hm') & _). congruence. }
  revert Hstep H. apply (step_keeps (orphan r) (fun p => p <> r)).
  - apply orphan_emit.
  - intros; apply orphan_emit.
  - intros; apply orphan_emit.
  - apply finished_kept.
    + apply orphan_emit.
    + intros; apply orphan_resolve; assumption.
    + intros; apply orphan_reject; assumption.
    + intros i w0 H. exact H.
  - apply orphan_log.
  - intros; apply orphan_chain.
  - apply orphan_adopt.
  - intros; apply orphan_resolve; assumption.
  - intros; apply orphan_reject; assumption.
  - intros; apply orphan_fulfil; assumption.
  - apply orphan_call_onSyncDone.
  - apply orphan_call_onSyncError.
  - intros b w0 H. exact H.
  - intros b w0 H. exact H.
  - intros dt w0 _ H. exact H.
  - intros i w0 H. exact H.
  - intros i w0 H. exact H.
  - intros i w0 H. exact H.
  - intros w0 H. exact H.
  - apply orphan_send.
  - apply orphan_send.
  - intros w0 H. exact H.
  - intros w0 ((c & Hc & Hs & Hm) & _). split; [|split; discriminate].
    exists c. auto.
  - apply orphan_start.
  - apply orphan_stop.
  - intros i due p Hi. apply (Hsite p (SDelay due)); [|discriminate].
    eapply inv_timers; [exact HI|]. apply list_elem_of_lookup. exists i. exact Hi.
  - intros i p m Hi. apply (Hsite p (SSend m)); [|discriminate].
    eapply inv_inflight; [exact HI|]. apply list_elem_of_lookup. exists i. exact Hi.
  - intros i r' t o Hi Hr'.
    assert (Hj : job_ok w (r', t, o)).
    { eapply inv_jobs; [exact HI|]. apply list_elem_of_lookup. exists i. exact Hi. }
    unfold job_ok in Hj. cbn in Hj.
    destruct r' as [h|h|h|]; [| | |contradiction];
      destruct Hj as (src & Hm & _); apply (Hsite t _ Hm); discriminate.
Qed.

Lemma orphan_run r acts w w' :
  run acts w = Some w' -> Inv w -> orphan r w -> orphan r w'.
Proof.
  revert w. induction acts as [|a acts IH]; intros w Hrun HI H; cbn [run] in Hrun.
  - injection Hrun as <-. exact H.
  - destruct (step a w) as [w1|] eqn:Hstep; [|discriminate].
    apply (IH w1 Hrun).
    + exact (proj1 (step_Inv a w w1 Hstep HI)).
    + exact (orphan_step r a w w1 HI Hstep H).
Qed.

(** [stop()] leaves the promise of [new Q] of the session behind. *)
Lemma stop_orphans r w :
  fields_ok w ->
  (exists c, heap w !! r = Some c /\ st c = Pending /\ made c = SNew) ->
  orphan r (exec stop w).
Proof.
  intros Hf Hh. destruct_world w. unfold fields_ok in Hf. cbn in Hf. destruct ip.
  - erewrite run_exec; [|ev]. eapply orphan_grow; [exact Hh | |]; cbn; discriminate.
  - destruct Hf as (-> & -> & _). erewrite run_exec; [|ev].
    eapply orphan_grow; [exact Hh | |]; cbn; discriminate.
Qed.

Lemma fst_of_run0 {A} (m : M A) w x : m w = x -> (m w).1 = x.1.
Proof. intros ->. reflexivity. Qed.

(** The promises that [start()] makes for a new session. *)
Lemma start_session_heap w :
  _syncPromise (this w) = None ->
  isIpcConnected w = true ->
  let n := length (heap w) in
  (start w).1 = Normal (n + 4)%nat /\
  heap (exec start w) =
    heap w ++
    [Cell (Following (n + 1)%nat) [(RThen start_then, (n + 2)%nat)] STry;
     Cell Pending [(RFollow, n)] SNew;
     Cell Pending [(RCatch start_catch, (n + 3)%nat)] (SChain n (RThen start_then));
     Cell Pending [(RFinally start_finally, (n + 4)%nat)]
       (SChain (n + 2)%nat (RCatch start_catch));
     Cell Pending [] (SChain (n + 3)%nat (RFinally start_finally))].
Proof.
  destruct_world w. intros -> ->. split.
  - erewrite fst_of_run0; [|ev]. reflexivity.
  - erewrite run_exec; [|ev]. reflexivity.
Qed.

(** The promise of a chain is pending for as long as its source is not
    settled. *)
Lemma chain_waits w t c src r :
  Inv w -> heap w !! t = Some c -> made c = SChain src r -> ~ is_settled w src ->
  st c = Pending.
Proof.
  intros HI Hc Hm Hn. pose proof (inv_cells w HI t c Hc) as Hok. unfold cell_ok in Hok.
  rewrite Hm in Hok. destruct Hok as (_ & Hs).
  destruct (st c) eqn:E; [reflexivity | |]; exfalso; apply Hn, Hs; discriminate.
Qed.

Lemma pending_not_settled w p c :
  heap w !! p = Some c -> (forall o, st c <> Settled o) -> ~ is_settled w p.
Proof. intros Hc Hs (o & c' & Hc' & Ho). rewrite Hc in Hc'. injection Hc' as <-. exact (Hs o Ho). Qed.

(** ** Every [finished] has its [starting] *)

Lemma total_app {A} (f : A -> nat) l1 l2 :
  total f (l1 ++ l2) = (total f l1 + total f l2)%nat.
Proof. induction l1 as [|x l1 IH]; cbn; [reflexivity | rewrite IH; lia]. Qed.

Lemma count_app {A} (f : A -> bool) l1 l2 :
  count f (l1 ++ l2) = (count f l1 + count f l2)%nat.
Proof. apply total_app. Qed.

Lemma total_insert {A} (f : A -> nat) l i x y :
  l !! i = Some x -> (total f (<[i := y]> l) + f x = total f l + f y)%nat.
Proof.
  revert i. induction l as [|z l IH]; intros [|i] Hi; cbn in *; try discriminate.
  - injection Hi as ->. lia.
  - specialize (IH i Hi). unfold insert in *. lia.
Qed.

Lemma total_delete_le {A} (f : A -> nat) l i : (total f (delete i l) <= total f l)%nat.
Proof.
  revert i. induction l as [|z l IH]; intros [|i]; cbn; try lia.
  specialize (IH i). unfold delete in *. lia.
Qed.

Lemma total_delete {A} (f : A -> nat) l i x :
  l !! i = Some x -> (total f (delete i l) + f x = total f l)%nat.
Proof.
  revert i. induction l as [|z l IH]; intros [|i] Hi; cbn in *; try discriminate.
  - injection Hi as ->. lia.
  - specialize (IH i Hi). unfold delete in *. lia.
Qed.

Lemma count_queued o (rs : list (reaction * pid)) :
  (count finishing_job (map (fun rt => (rt.1, rt.2, o)) rs) <= count finishing_react rs)%nat.
Proof.
  induction rs as [|[r t] rs IH]; cbn; [lia|].
  unfold count in *. cbn in *.
  destruct r as [[| | | |]| | |], o; cbn; lia.
Qed.

Lemma balanced_snoc l e :
  balanced l ->
  (count is_finished (l ++ [e]) <= count is_starting (l ++ [e]))%nat ->
  balanced (l ++ [e]).
Proof.
  intros Hb He l1 l2 Heq. destruct l2 as [|x l2 _] using rev_ind.
  - rewrite app_nil_r in Heq. subst l1. exact He.
  - rewrite app_assoc in Heq. apply app_inj_tail in Heq as [Heq _].
    apply (Hb l1 l2). exact Heq.
Qed.

Lemma balanced_whole l : balanced l -> (count is_finished l <= count is_starting l)%nat.
Proof. intros Hb. apply (Hb l []). rewrite app_nil_r. reflexivity. Qed.

(** Arithmetic on the counters, once they are unfolded everywhere. *)
Ltac counters :=
  unfold finish_tokens, count in *; cbn in *; rewrite ?total_app in *; cbn in *;
  try lia.

(** A change that emits nothing and adds no such reaction. *)
Lemma finish_budget_same w w' :
  finish_budget w ->
  emitted w' = emitted w ->
  (finish_tokens w' <= finish_tokens w)%nat ->
  finish_budget w'.
Proof. intros [Hb Hc] He Ht. split; rewrite He; [exact Hb | lia]. Qed.

Lemma budget_emit e : is_finished e = false -> keeps finish_budget (emit e).
Proof.
  intros He w [Hb Hc]. pose proof (balanced_whole _ Hb) as Hw.
  rewrite emit_world. split; cbn [emitted set_emitted].
  - apply balanced_snoc; [exact Hb|]. counters. rewrite He. lia.
  - counters. rewrite He. lia.
Qed.

Lemma budget_log l msg : keeps finish_budget (log l msg).
Proof. intros w H. apply (finish_budget_same w); [exact H | reflexivity | apply Nat.le_refl]. Qed.

Lemma budget_alloc s : keeps finish_budget (alloc s).
Proof. intros w H. apply (finish_budget_same w); [exact H | reflexivity|]. counters. Qed.

Lemma budget_set_state p s : keeps finish_budget (set_state p s).
Proof.
  intros w H. unfold set_state, modify. cbn [snd].
  destruct (heap w !! p) as [c|] eqn:Hp; [|exact H].
  apply (finish_budget_same w); [exact H | reflexivity|].
  pose proof (total_insert (fun c => count finishing_react (reacts c)) _ _ _
                (Cell s (reacts c) (made c)) Hp) as Hi.
  counters.
Qed.

Lemma budget_settle p o : keeps finish_budget (settle p o).
Proof.
  intros w H. unfold settle, modify. cbn [snd].
  destruct (heap w !! p) as [c|] eqn:Hp; [|exact H].
  apply (finish_budget_same w); [exact H | reflexivity|].
  pose proof (total_insert (fun c => count finishing_react (reacts c)) _ _ _
                (Cell (Settled o) [] (made c)) Hp) as Hi.
  pose proof (count_queued o (reacts c)) as Hq.
  counters.
Qed.

Lemma budget_subscribe q r t : r <> RThen start_then -> keeps finish_budget (subscribe q r t).
Proof.
  intros Hr w H. unfold subscribe, modify. cbn [snd].
  assert (Hrt : finishing_react (r, t) = false).
  { unfold finishing_react. cbn. destruct r as [[| | | |]| | |]; try reflexivity.
    contradiction. }
  destruct (heap w !! q) as [c|] eqn:Hq; [|exact H].
  assert (Hi : finish_budget
            (set_heap (<[q := Cell (st c) (reacts c ++ [(r, t)]) (made c)]> (heap w)) w)).
  { apply (finish_budget_same w); [exact H | reflexivity|].
    pose proof (total_insert (fun c => count finishing_react (reacts c)) _ _ _
                  (Cell (st c) (reacts c ++ [(r, t)]) (made c)) Hq) as Hi.
    counters. rewrite Hrt in Hi. lia. }
  destruct (st c) as [| |o]; [exact Hi | exact Hi|].
  apply (finish_budget_same w); [exact H | reflexivity|].
  assert (Hj : finishing_job (r, t, o) = false).
  { destruct r as [[| | | |]| | |], o; try reflexivity; contradiction. }
  counters. rewrite Hj. lia.
Qed.

Lemma budget_chain q r : r <> RThen start_then -> keeps finish_budget (chain q r).
Proof.
  intros Hr. unfold chain. apply keeps_bind; [apply budget_alloc | intros t].
  apply keeps_bind; [apply budget_subscribe; exact Hr | intros _; apply keeps_ret].
Qed.

Lemma budget_fulfil p v : keeps finish_budget (fulfil p v).
Proof.
  unfold fulfil. apply keeps_bind; [apply keeps_gets|].
  intros [[| |]|]; try apply keeps_ret. apply budget_settle.
Qed.

Lemma budget_reject p e : keeps finish_budget (reject p e).
Proof.
  unfold reject. apply keeps_bind; [apply keeps_gets|].
  intros [[| |]|]; try apply keeps_ret. apply budget_settle.
Qed.

Lemma budget_resolve p v : keeps finish_budget (resolve p v).
Proof.
  destruct v as [| |q]; cbn [resolve]; try apply budget_fulfil.
  apply keeps_bind; [apply keeps_gets|].
  intros [[| |]|]; try apply keeps_ret.
  apply keeps_bind; [apply budget_set_state | intros _; apply budget_subscribe; discriminate].
Qed.

Lemma budget_adopt t o : keeps finish_budget (adopt t o).
Proof.
  unfold adopt. apply keeps_bind; [apply keeps_gets|].
  intros [[| |]|]; try apply keeps_ret. apply budget_settle.
Qed.

Lemma budget_call_onSyncDone : keeps finish_budget call_onSyncDone.
Proof.
  unfold call_onSyncDone. apply keeps_bind; [apply keeps_gets|].
  intros [r|]; [apply budget_resolve | apply keeps_throw].
Qed.

Lemma budget_call_onSyncError e : keeps finish_budget (call_onSyncError e).
Proof.
  unfold call_onSyncError. apply keeps_bind; [apply keeps_gets|].
  intros [r|]; [apply budget_reject | apply keeps_throw].
Qed.

Lemma budget_send m : keeps finish_budget (send m).
Proof.
  unfold send. apply keeps_bind; [apply budget_alloc | intros p].
  apply keeps_bind; [|intros _; apply keeps_ret].
  intros w H. apply (finish_budget_same w); [exact H | reflexivity | apply Nat.le_refl].
Qed.

(** The reaction that emits [finished] is one of those that were counted. *)
Lemma budget_finished w i t v :
  jobs w !! i = Some (RThen start_then, t, Fulfilled v) ->
  finish_budget w ->
  finish_budget
    (exec (run_job (RThen start_then, t, Fulfilled v)) (set_jobs (delete i (jobs w)) w)).
Proof.
  intros Hi [Hb Hc].
  pose proof (total_delete (fun j => if finishing_job j then 1 else 0)%nat _ _ _ Hi) as Hd.
  pose proof (balanced_whole _ Hb) as Hw.
  assert (H1 : finish_budget
            (set_emitted (emitted w ++ [EvFinished]) (set_jobs (delete i (jobs w)) w))).
  { split; cbn [emitted set_emitted set_jobs].
    - apply balanced_snoc; [exact Hb|]. counters.
    - counters. }
  exact (budget_resolve t VUndefined _ H1).
Qed.

Lemma budget_start : keeps finish_budget start.
Proof.
  apply keeps_of_exec. intros w [Hb Hc]. pose proof (balanced_whole _ Hb) as Hw.
  destruct_world w. destruct sp as [p|]; [|destruct conn].
  - erewrite run_exec; [|ev]. split; [exact Hb | exact Hc].
  - erewrite run_exec; [|ev]. split; cbn [emitted].
    + apply balanced_snoc; [exact Hb|]. counters.
    + counters.
  - erewrite run_exec; [|ev]. split; cbn [emitted]; [exact Hb|]. counters.
Qed.

Lemma budget_stop : keeps finish_budget stop.
Proof.
  apply keeps_of_exec. intros w [Hb Hc]. destruct_world w. destruct ip.
  - erewrite run_exec; [|ev]. split; cbn [emitted]; [exact Hb|]. counters.
  - erewrite run_exec; [|ev]. split; cbn [emitted]; [exact Hb|]. counters.
Qed.

Lemma budget_step a w w' : step a w = Some w' -> finish_budget w -> finish_budget w'.
Proof.
  apply (step_keeps finish_budget (fun _ => True)).
  - apply budget_emit. reflexivity.
  - intros; apply budget_emit; reflexivity.
  - intros; apply budget_emit; reflexivity.
  - intros w0 i t v Hi _. apply budget_finished. exact Hi.
  - apply budget_log.
  - apply budget_chain.
  - apply budget_adopt.
  - intros; apply budget_resolve.
  - intros; apply budget_reject.
  - intros; apply budget_fulfil.
  - apply budget_call_onSyncDone.
  - apply budget_call_onSyncError.
  - intros b w0 H. exact H.
  - intros b w0 H. exact H.
  - intros dt w0 _ H. exact H.
  - intros i w0 H. exact H.
  - intros i w0 H. exact H.
  - intros i w0 H. apply (finish_budget_same w0); [exact H | reflexivity|].
    pose proof (total_delete_le (fun j => if finishing_job j then 1 else 0)%nat (jobs w0) i).
    counters.
  - intros w0 H. exact H.
  - apply budget_send.
  - apply budget_send.
  - intros w0 H. exact H.
  - intros w0 H. exact H.
  - apply budget_start.
  - apply budget_stop.
  - intros; exact Logic.I.
  - intros; exact Logic.I.
  - intros; exact Logic.I.
Qed.

(** X1. In every state that the monitor can reach the fields of the
    session go together.  At most one listener of the skip signal is
    registered at any time, however often sessions are started, stopped,
    skipped and restarted.  While [_syncInProgress] is set, [_onSyncDone]
    and [_onSyncError] are the resolving functions of one promise and the
    session promise is there.  While it is not set, the resolving fields
    are cleared and no listener is registered, so a skip signal changes
    nothing. *)
Theorem session_fields_consistent (w : world) :
  reachable w ->
  (skipListeners w <= 1)%nat /\
  (_syncInProgress (this w) = true ->
   exists r,
     _onSyncDone (this w) = Some r /\
     _onSyncError (this w) = Some r /\
     _syncPromise (this w) <> None) /\
  (_syncInProgress (this w) = false ->
   _onSyncDone (this w) = None /\
   _onSyncError (this w) = None /\
   skipListeners w = 0%nat /\
   step SkipSync w = Some w).
Proof.
  intros Hr. pose proof (fields_ok_reachable w Hr) as H. unfold fields_ok in H.
  destruct (_syncInProgress (this w)).
  - destruct H as ((r & Hd & He) & Hp & Hl). split; [exact Hl|]. split; [|discriminate].
    intros _. exists r. split; [exact Hd|]. split; [exact He | exact Hp].
  - destruct H as (Hd & He & Hl). split; [lia|]. split; [discriminate|].
    intros _. split; [exact Hd|]. split; [exact He|]. split; [exact Hl|].
    cbn [step]. rewrite Hl. reflexivity.
Qed.

Lemma session_fields_consistent_witness :
  (skipListeners active_world <= 1)%nat /\
  exists r,
    _onSyncDone (this active_world) = Some r /\
    _onSyncError (this active_world) = Some r /\
    _syncPromise (this active_world) <> None.
Proof.
  destruct (session_fields_consistent active_world) as (H1 & H2 & _).
  { exists [Advance 1120000; SetConnected true; CallStart]. vm_compute. reflexivity. }
  split; [exact H1|]. apply H2. vm_compute. reflexivity.
Defined.

(** X2. The skip signal, delivered while a session is in progress, ends
    it as finished: the listener removes itself and resolves the session
    promise, and the four reactions that follow emit [finished], clear the
    state and fulfil the promise that [start()] returned.  The events are
    [starting] and then [finished]; a second skip signal finds no listener
    and changes nothing.  The tick that [start()] armed is still armed;
    when it fires it only logs: no event, no RPC call, no further tick. *)
Theorem skip_finishes_session (w : world) :
  _syncPromise (this w) = None ->
  isIpcConnected w = true ->
  skipListeners w = 0%nat ->
  let n := length (heap w) in
  let i := length (timers w) in
  let k := length (jobs w) in
  exists w1 w2,
    run [CallStart; SkipSync; RunJob k; RunJob k; RunJob k; RunJob k] w = Some w1 /\
    emitted w1 = emitted w ++ [EvStarting; EvFinished] /\
    this w1 = cleared /\
    skipListeners w1 = 0%nat /\
    state_of w1 (n + 4)%nat = Some (Settled (Fulfilled VUndefined)) /\
    timers w1 = timers w ++ [(clock w + 2000, TTick)] /\
    inflight w1 = inflight w /\
    jobs w1 = jobs w /\
    run [SkipSync] w1 = Some w1 /\
    run [Advance 2000; Fire i] w1 = Some w2 /\
    emitted w2 = emitted w1 /\
    timers w2 = timers w /\
    inflight w2 = inflight w /\
    jobs w2 = jobs w /\
    heap w2 = heap w1 /\
    this w2 = cleared /\
    logged w2 =
      logged w1 ++ [(Debug, "Sync no longer in progress, so ending sync loop.")].
Proof.
  destruct_world w. intros -> -> ->.
  eexists. eexists. split. { run_go. }
  norm. repeat (split; [reflexivity|]).
  split. { run_go. }
  split. { run_go. }
  norm. repeat (split; [reflexivity|]). reflexivity.
Qed.

Lemma skip_finishes_session_witness :
  exists w1 w2,
    run [CallStart; SkipSync; RunJob 0%nat; RunJob 0%nat; RunJob 0%nat; RunJob 0%nat]
      connected_world = Some w1 /\
    emitted w1 = [EvStarting; EvFinished] /\
    run [Advance 2000; Fire 0%nat] w1 = Some w2 /\
    emitted w2 = [EvStarting; EvFinished] /\
    timers w2 = [] /\
    inflight w2 = [].
Proof.
  destruct (skip_finishes_session connected_world eq_refl eq_refl eq_refl)
    as (w1 & w2 & H1 & H2 & _ & _ & _ & _ & _ & _ & _ & H3 & H4 & H5 & H6 & _).
  exists w1, w2. split; [exact H1|]. split; [exact H2|]. split; [exact H3|].
  split; [rewrite H4; exact H2|]. split; [exact H5 | exact H6].
Defined.
(** X3. The polling loop goes on for as long as the node says that it is
    syncing.  In a session in progress whose tick is armed, take any
    number of rounds in which the node answers with a status object
    without error, with no status and no block, or with no status and a
    block older than 60 s.  After them, and so after each of them, the
    next tick is armed in the place of the one that fired, for exactly
    one interval (2000 ms) after the time of the last round.  The
    progress events are emitted in the order of the rounds, one for each
    status object (with that object) and one for each old block (with the
    falsy result), none for a round without block.  No round resolves or
    rejects the session: the fields and the promises that existed are
    unchanged, no call stays in flight and no reaction stays queued. *)
Theorem polling_continues (rs : list poll_reply) :
  forall (w : world) tm due,
  _syncInProgress (this w) = true ->
  timers w = tm ++ [(due, TTick)] ->
  due <= clock w + 2000 ->
  still_syncing (clock w) rs = true ->
  exists w',
    run (flat_map (poll_round (length tm) (length (inflight w)) (length (jobs w))) rs) w
      = Some w' /\
    emitted w' = emitted w ++ flat_map poll_event rs /\
    this w' = this w /\
    skipListeners w' = skipListeners w /\
    timers w' =
      tm ++ [(match rs with [] => due | _ :: _ => clock w' + 2000 end, TTick)] /\
    inflight w' = inflight w /\
    jobs w' = jobs w /\
    clock w' = clock w + 2000 * Z.of_nat (length rs) /\
    promises_untouched w w'.
Proof.
  induction rs as [|r rs IH]; intros w tm due Hip Htm Hdue Hs.
  - exists w. cbn [flat_map run length Z.of_nat].
    rewrite app_nil_r, Z.mul_0_r, Z.add_0_r.
    repeat (split; [reflexivity || assumption|]). intros p c Hp. exact Hp.
  - cbn [still_syncing] in Hs. apply andb_true_iff in Hs as [Hr Hs].
    destruct (poll_round_ok w r tm due Hip Htm Hdue Hr)
      as (w1 & Hrun & Hem & Hth & Hsl & _ & Htm1 & Hinf & Hjb & Hck & Hhp).
    rewrite <- Hck in Hs.
    destruct (IH w1 tm (clock w + 2000 + 2000)) as
      (w' & Hrun' & Hem' & Hth' & Hsl' & Htm' & Hinf' & Hjb' & Hck' & Hun');
      [rewrite Hth; exact Hip | exact Htm1 | lia | exact Hs |].
    exists w'. cbn [flat_map]. rewrite run_app, Hrun.
    rewrite Hinf, Hjb in Hrun'.
    split; [exact Hrun'|].
    split; [rewrite Hem', Hem, <- app_assoc; reflexivity|].
    split; [congruence|]. split; [congruence|].
    split.
    { rewrite Htm'. destruct rs as [|r' rs']; [|reflexivity].
      cbn [length Z.of_nat] in Hck'. do 3 f_equal. lia. }
    split; [congruence|]. split; [congruence|].
    split; [rewrite Hck', Hck; cbn [length]; lia|].
    intros p c Hp. apply Hun'. apply Hhp. exact Hp.
Qed.

Lemma polling_continues_witness :
  exists w',
    run (flat_map (poll_round 0 0 0) [PStatus (RpcObject None None None []); PNoBlock; PBlock stale_block])
      active_world = Some w' /\
    emitted w' =
      [EvStarting; EvNodeSyncing (JObject (RpcObject None None None []));
       EvNodeSyncing JFalsy] /\
    timers w' = [(clock w' + 2000, TTick)] /\
    clock w' = 1126000.
Proof.
  destruct (polling_continues
              [PStatus (RpcObject None None None []); PNoBlock; PBlock stale_block]
              active_world [] 1122000 eq_refl eq_refl ltac:(vm_compute; discriminate)
              eq_refl)
    as (w' & H1 & H2 & _ & _ & H3 & _ & _ & H4 & _).
  exists w'. split; [exact H1|]. split; [exact H2|]. split; [exact H3 | exact H4].
Defined.

(** X4. A session whose first poll gets no status object and then a
    latest block that is not more than 60 s old runs to its end as
    finished: the events are [starting] and then [finished], the state is
    cleared, the promise that [start()] returned is fulfilled and nothing
    stays armed, in flight or queued.  A block without a timestamp, or
    with one that is not a number, counts as not old (the comparison with
    [NaN] is false), and so does a block of the future. *)
Theorem fresh_block_finishes_session (w : world) (b : rpc_object) :
  _syncPromise (this w) = None ->
  isIpcConnected w = true ->
  diff_gt_60 ((clock w + 2000) / 1000) (timestamp b) = false ->
  let n := length (heap w) in
  let i := length (timers w) in
  let j := length (inflight w) in
  let k := length (jobs w) in
  exists w',
    run [CallStart; Advance 2000; Fire i; Answer j (Response JFalsy); RunJob k;
         Answer j (Response (JObject b));
         RunJob k; RunJob k; RunJob k; RunJob k; RunJob k; RunJob k; RunJob k] w
      = Some w' /\
    emitted w' = emitted w ++ [EvStarting; EvFinished] /\
    timers w' = timers w /\
    inflight w' = inflight w /\
    jobs w' = jobs w /\
    this w' = cleared /\
    skipListeners w' = 0%nat /\
    state_of w' (n + 4)%nat = Some (Settled (Fulfilled VUndefined)).
Proof.
  destruct_world w. intros -> -> Hd.
  eexists. split. { run_go. }
  norm. repeat (split; [reflexivity|]). reflexivity.
Qed.

Lemma fresh_block_finishes_session_witness :
  exists w',
    run [CallStart; Advance 2000; Fire 0%nat; Answer 0%nat (Response JFalsy); RunJob 0%nat;
         Answer 0%nat (Response (JObject (RpcObject None (Some 7) None [])));
         RunJob 0%nat; RunJob 0%nat; RunJob 0%nat; RunJob 0%nat; RunJob 0%nat;
         RunJob 0%nat; RunJob 0%nat] connected_world
      = Some w' /\
    emitted w' = [EvStarting; EvFinished].
Proof.
  destruct (fresh_block_finishes_session connected_world (RpcObject None (Some 7) None [])
              eq_refl eq_refl eq_refl) as (w' & H1 & H2 & _).
  exists w'. split; [exact H1 | exact H2].
Defined.

(** X5. A reply that arrives after [stop()] for a call that was in flight
    finds the resolving fields cleared.  With the "method not found"
    payload the callback throws a type error at [this._onSyncDone()]; with
    a transport failure the promise of the call is rejected.  In both
    cases the catch callback logs, throws a type error at
    [this._onSyncError(err)], and the promise of the catch is left
    rejected with that type error: no event is emitted, the error is not
    reported, and the promise made by [new Q] and the one that [start()]
    returned stay pending. *)
Theorem reply_after_stop_is_dropped (w : world) :
  _syncPromise (this w) = None ->
  isIpcConnected w = true ->
  let i := length (timers w) in
  let j := length (inflight w) in
  let k := length (jobs w) in
  (forall o e,
     error o = Some e ->
     code e = -32601 ->
     exists w',
       run [CallStart; Advance 2000; Fire i; CallStop;
            Answer j (Response (JObject o)); RunJob k; RunJob k] w = Some w' /\
       reply_dropped w w' /\
       logged w' =
         logged w ++
         [(Info, "Starting sync loop"); (Trace, "Check sync status");
          (Info, "Stopping sync loop"); (Trace, "Sync status");
          (Warn, "Sync method not implemented, skipping sync.");
          (Error, "Node crashed while syncing?")])
  /\
  (forall msg,
     exists w',
       run [CallStart; Advance 2000; Fire i; CallStop;
            Answer j (Failure msg); RunJob k; RunJob k] w = Some w' /\
       reply_dropped w w' /\
       logged w' =
         logged w ++
         [(Info, "Starting sync loop"); (Trace, "Check sync status");
          (Info, "Stopping sync loop"); (Error, "Node crashed while syncing?")]).
Proof.
  destruct_world w. intros -> ->. split.
  - intros o e He Hcode. apply Z.eqb_eq in Hcode.
    eexists. split. { run_go. }
    unfold reply_dropped. norm. split; [repeat split; reflexivity | reflexivity].
  - intros msg. eexists. split. { run_go. }
    unfold reply_dropped. norm. split; [repeat split; reflexivity | reflexivity].
Qed.

Lemma reply_after_stop_is_dropped_witness :
  (exists w',
     run [CallStart; Advance 2000; Fire 0%nat; CallStop;
          Answer 0%nat (Response (JObject method_not_found)); RunJob 0%nat; RunJob 0%nat]
       connected_world = Some w' /\
     reply_dropped connected_world w')
  /\
  (exists w',
     run [CallStart; Advance 2000; Fire 0%nat; CallStop;
          Answer 0%nat (Failure "connection lost"); RunJob 0%nat; RunJob 0%nat]
       connected_world = Some w' /\
     reply_dropped connected_world w').
Proof.
  destruct (reply_after_stop_is_dropped connected_world eq_refl eq_refl) as [H1 H2]. split.
  - destruct (H1 method_not_found (RpcError (-32601) "Method not found") eq_refl eq_refl)
      as (w' & Hr & Hd & _).
    exists w'. split; [exact Hr | exact Hd].
  - destruct (H2 "connection lost") as (w' & Hr & Hd & _).
    exists w'. split; [exact Hr | exact Hd].
Defined.

(** X6. [stop()] does not cancel the tick that is armed, and a tick does
    not know its session.  When [start()] is called right after [stop()],
    without waiting for the promise of [stop()], the new session runs
    with the tick of the old one and its own: [starting] is emitted again
    before [stopped], and when both ticks have fired two sync-status
    calls are in flight for the one session. *)
Theorem start_after_stop_keeps_old_tick
    (w : world) (tm tm' : list (Z * timer_task)) (due : Z) :
  _syncInProgress (this w) = true ->
  isIpcConnected w = true ->
  timers w = tm ++ (due, TTick) :: tm' ->
  due <= clock w + 2000 ->
  let n := length (heap w) in
  exists w1 w2,
    run [CallStop; CallStart] w = Some w1 /\
    _syncInProgress (this w1) = true /\
    _syncPromise (this w1) = Some (n + 7)%nat /\
    emitted w1 = emitted w ++ [EvStarting] /\
    timers w1 =
      tm ++ (due, TTick) :: tm' ++
      [(clock w + 2000, TResolve (n + 1)%nat); (clock w + 2000, TTick)] /\
    run [Advance 2000; Fire (length tm); Fire (length tm + length tm' + 1)%nat] w1
      = Some w2 /\
    timers w2 = tm ++ tm' ++ [(clock w + 2000, TResolve (n + 1)%nat)] /\
    inflight w2 =
      inflight w ++ [((n + 8)%nat, "eth_syncing"); ((n + 11)%nat, "eth_syncing")] /\
    emitted w2 = emitted w1 /\
    this w2 = this w1.
Proof.
  destruct_world w. intros -> -> -> Hdue.
  assert (Hd : (due <=? ck + 2000) = true) by (apply Z.leb_le; lia).
  eexists. eexists. split. { run_go. }
  norm. repeat (split; [reflexivity|]).
  split. { run_go. }
  norm. rewrite !delete_app_plus. cbn [delete list_delete].
  repeat (split; [reflexivity|]). reflexivity.
Qed.

Lemma start_after_stop_keeps_old_tick_witness :
  exists w1 w2,
    run [CallStop; CallStart] active_world = Some w1 /\
    emitted w1 = [EvStarting; EvStarting] /\
    run [Advance 2000; Fire 0%nat; Fire 1%nat] w1 = Some w2 /\
    inflight w2 = [(13%nat, "eth_syncing"); (16%nat, "eth_syncing")].
Proof.
  destruct (start_after_stop_keeps_old_tick active_world [] [] 1122000
              eq_refl eq_refl eq_refl ltac:(vm_compute; discriminate))
    as (w1 & w2 & H1 & _ & _ & H2 & _ & H3 & _ & H4 & _).
  exists w1, w2. split; [exact H1|]. split; [exact H2|]. split; [exact H3 | exact H4].
Defined.

(** X7. In every state that the monitor can reach, no timer is armed for
    later than one poll interval from now: the ticks of [_sync] and the
    grace delay of [stop()] are armed for 2000 ms after the time of the
    call, and nothing re-arms or postpones a timer.  [_sync] adds one
    tick, due one interval after the time of the call, and [stop()] in a
    session in progress adds one timer of its grace delay, due one
    interval after the time of the call; and in every later state each
    timer is one of the earlier state with the time it was armed for, or
    was armed in between. *)
Theorem timers_within_interval (w : world) :
  reachable w ->
  (forall due tk, (due, tk) ∈ timers w -> due <= clock w + 2000)
  /\
  timers (exec _sync w) = timers w ++ [(clock w + 2000, TTick)]
  /\
  (_syncInProgress (this w) = true ->
   timers (exec stop w) =
     timers w ++ [(clock w + 2000, TResolve (length (heap w) + 1)%nat)])
  /\
  (forall acts w',
     run acts w = Some w' ->
     forall due tk,
       (due, tk) ∈ timers w' ->
       (due, tk) ∈ timers w \/ clock w + 2000 <= due <= clock w' + 2000).
Proof.
  intros [acts Hrun]. split; [|split; [|split]].
  - apply (run_kept timers_ok timers_ok_step acts init w Hrun).
    intros due tk Hin. cbn in Hin. inversion Hin.
  - destruct_world w. reflexivity.
  - destruct_world w. intros ->. erewrite run_exec; [|ev]. reflexivity.
  - intros acts' w' Hrun'.
    apply (run_kept (armed_since w) (armed_since_step w) acts' w w' Hrun').
    split; [lia|]. intros due tk Hin. left. exact Hin.
Qed.

Lemma timers_within_interval_witness :
  1122000 <= clock active_world + 2000
  /\
  timers (exec _sync active_world) = [(1122000, TTick); (1122000, TTick)]
  /\
  timers (exec stop active_world) = [(1122000, TTick); (1122000, TResolve 6%nat)].
Proof.
  destruct (timers_within_interval active_world) as (H1 & H2 & H3 & _).
  - exists [Advance 1120000; SetConnected true; CallStart]. vm_compute. reflexivity.
  - split; [|split].
    + apply (H1 1122000 TTick). vm_compute. apply list_elem_of_here.
    + exact H2.
    + exact (H3 eq_refl).
Defined.

(** X8. In every state that the monitor can reach, the calls in flight
    are calls of [eth_syncing] or of [eth_getBlockByNumber]: the monitor
    sends no other request to the node. *)
Theorem only_sync_calls (w : world) :
  reachable w ->
  forall p m, (p, m) ∈ inflight w -> m = "eth_syncing" \/ m = "eth_getBlockByNumber".
Proof.
  intros [acts Hrun]. apply (run_kept calls_ok calls_ok_step acts init w Hrun).
  intros p m Hin. cbn in Hin. inversion Hin.
Qed.

Lemma only_sync_calls_witness :
  (5%nat, "eth_syncing")
    ∈ inflight (after [SetConnected true; CallStart; Advance 2000; Fire 0%nat] init)
  /\
  ("eth_syncing" = "eth_syncing" \/ "eth_syncing" = "eth_getBlockByNumber").
Proof.
  assert (H : (5%nat, "eth_syncing")
    ∈ inflight (after [SetConnected true; CallStart; Advance 2000; Fire 0%nat] init))
    by (vm_compute; apply list_elem_of_here).
  split; [exact H|].
  refine (only_sync_calls _ _ 5%nat "eth_syncing" H).
  exists [SetConnected true; CallStart; Advance 2000; Fire 0%nat]. vm_compute. reflexivity.
Defined.

(** X9. A session that is stopped before it was resolved is never
    resolved.  When [stop()] is called while the promise that [new Q]
    made for the session is pending, then whatever happens afterwards
    (replies to its calls, its ticks, skip signals, new sessions) that
    promise stays pending, and so does the promise that [start()]
    returned for the session: it is neither fulfilled nor rejected, and
    neither [finished] nor [error] is emitted on its account. *)
Theorem stopped_session_never_settles (w : world) :
  reachable w ->
  _syncPromise (this w) = None ->
  isIpcConnected w = true ->
  let n := length (heap w) in
  (start w).1 = Normal (n + 4)%nat /\
  forall acts1 w1 acts2 w2,
    run acts1 (exec start w) = Some w1 ->
    state_of w1 (n + 1)%nat = Some Pending ->
    run acts2 (exec stop w1) = Some w2 ->
    state_of w2 (n + 1)%nat = Some Pending /\
    state_of w2 (n + 2)%nat = Some Pending /\
    state_of w2 (n + 3)%nat = Some Pending /\
    state_of w2 (n + 4)%nat = Some Pending.
Proof.
  intros Hreach Hsp Hconn n. destruct (start_session_heap w Hsp Hconn) as [Hret Hheap].
  fold n in Hret, Hheap. split; [exact Hret|].
  intros acts1 w1 acts2 w2 Hrun1 Hpend Hrun2.
  pose proof (reachable_Inv w Hreach) as HI.
  destruct (ok_start any stable_any w HI I) as (HI0 & _ & _).
  change ((start w).2) with (exec start w) in HI0.
  destruct (run_Inv acts1 _ w1 Hrun1 HI0) as [HI1 He1].
  destruct (ok_stop any stable_any w1 HI1 I) as (HIs & Hes & _).
  change ((stop w1).2) with (exec stop w1) in HIs, Hes.
  destruct (run_Inv acts2 _ w2 Hrun2 HIs) as [HI2 He2].
  pose proof (ext_trans _ _ _ He1 (ext_trans _ _ _ Hes He2)) as He.
  assert (Hf1 : fields_ok w1).
  { apply (run_kept fields_ok fields_ok_step (CallStart :: acts1) w w1).
    - cbn [run step]. exact Hrun1.
    - apply fields_ok_reachable. exact Hreach. }
  (* the cells of the session in the world of the start *)
  assert (Hlk : forall k c,
            [Cell (Following (n + 1)%nat) [(RThen start_then, (n + 2)%nat)] STry;
             Cell Pending [(RFollow, n)] SNew;
             Cell Pending [(RCatch start_catch, (n + 3)%nat)] (SChain n (RThen start_then));
             Cell Pending [(RFinally start_finally, (n + 4)%nat)]
               (SChain (n + 2)%nat (RCatch start_catch));
             Cell Pending [] (SChain (n + 3)%nat (RFinally start_finally))] !! k = Some c ->
            heap (exec start w) !! (n + k)%nat = Some c).
  { intros k c Hk. rewrite Hheap. subst n. rewrite lookup_app_plus. exact Hk. }
  (* the promise of [new Q] is an orphan after [stop()], and stays one *)
  assert (Ho : orphan (n + 1)%nat w2).
  { apply (orphan_run _ acts2 (exec stop w1) w2 Hrun2 HIs). apply stop_orphans; [exact Hf1|].
    destruct (proj2 He1 _ _ (Hlk 1%nat _ eq_refl)) as (c1 & Hc1 & Hm1 & _).
    exists c1. split; [exact Hc1|]. split; [|exact Hm1].
    unfold state_of in Hpend. rewrite Hc1 in Hpend. cbn in Hpend. congruence. }
  destruct Ho as ((cN & HcN & HsN & _) & _).
  assert (HN : state_of w2 (n + 1)%nat = Some Pending).
  { unfold state_of. rewrite HcN. cbn. congruence. }
  split; [exact HN|].
  (* the promise of [Q.try] still follows it *)
  destruct (proj2 He _ _ (Hlk 0%nat _ eq_refl)) as (c0 & Hc0 & _ & Hle0).
  rewrite Nat.add_0_r in Hc0. cbn [st] in Hle0.
  assert (H0 : ~ is_settled w2 n).
  { apply (pending_not_settled w2 n c0 Hc0). intros o Ho.
    destruct Hle0 as [E | [E | (q & o' & E & E' & (c' & Hc' & Hs'))]].
    - congruence.
    - discriminate.
    - injection E as <-. rewrite HcN in Hc'. injection Hc' as <-. congruence. }
  (* and the chain behind it waits *)
  destruct (proj2 He _ _ (Hlk 2%nat _ eq_refl)) as (c2 & Hc2 & Hm2 & _).
  pose proof (chain_waits w2 _ c2 _ _ HI2 Hc2 Hm2 H0) as Hs2.
  assert (H2 : ~ is_settled w2 (n + 2)%nat).
  { apply (pending_not_settled w2 _ c2 Hc2). congruence. }
  destruct (proj2 He _ _ (Hlk 3%nat _ eq_refl)) as (c3 & Hc3 & Hm3 & _).
  pose proof (chain_waits w2 _ c3 _ _ HI2 Hc3 Hm3 H2) as Hs3.
  assert (H3 : ~ is_settled w2 (n + 3)%nat).
  { apply (pending_not_settled w2 _ c3 Hc3). congruence. }
  destruct (proj2 He _ _ (Hlk 4%nat _ eq_refl)) as (c4 & Hc4 & Hm4 & _).
  pose proof (chain_waits w2 _ c4 _ _ HI2 Hc4 Hm4 H3) as Hs4.
  unfold state_of. rewrite Hc2, Hc3, Hc4. cbn. rewrite Hs2, Hs3, Hs4. repeat split.
Qed.

Lemma stopped_session_never_settles_witness :
  state_of
    (after [Answer 0%nat (Response (JObject method_not_found)); RunJob 0%nat; RunJob 0%nat;
            Advance 2000; Fire 0%nat; RunJob 0%nat; RunJob 0%nat; SkipSync]
       (exec stop (after [Advance 2000; Fire 0%nat] (exec start connected_world))))
    4%nat = Some Pending.
Proof.
  assert (Hr : reachable connected_world) by (exists [SetConnected true]; reflexivity).
  destruct (stopped_session_never_settles connected_world Hr eq_refl eq_refl) as [_ H].
  refine (proj2 (proj2 (proj2
    (H [Advance 2000; Fire 0%nat]
       (after [Advance 2000; Fire 0%nat] (exec start connected_world))
       [Answer 0%nat (Response (JObject method_not_found)); RunJob 0%nat; RunJob 0%nat;
        Advance 2000; Fire 0%nat; RunJob 0%nat; RunJob 0%nat; SkipSync]
       (after [Answer 0%nat (Response (JObject method_not_found)); RunJob 0%nat;
               RunJob 0%nat; Advance 2000; Fire 0%nat; RunJob 0%nat; RunJob 0%nat; SkipSync]
          (exec stop (after [Advance 2000; Fire 0%nat] (exec start connected_world))))
       _ _ _)))).
  - vm_compute. reflexivity.
  - vm_compute. reflexivity.
  - vm_compute. reflexivity.
Defined.

(** X10. A second [stop()] finds the session cleared already and does
    nothing: called twice on a session in progress, [stop()] arms one
    grace delay and [stopped] is emitted once; the promise of the second
    call is fulfilled at once, that of the first after the delay. *)
Theorem stop_twice_stops_once (w : world) :
  _syncInProgress (this w) = true ->
  let n := length (heap w) in
  let i := length (timers w) in
  let k := length (jobs w) in
  exists w1 w2,
    run [CallStop; CallStop] w = Some w1 /\
    this w1 = cleared /\
    timers w1 = timers w ++ [(clock w + 2000, TResolve (n + 1)%nat)] /\
    emitted w1 = emitted w /\
    jobs w1 = jobs w /\
    state_of w1 n = Some (Following (n + 2)%nat) /\
    state_of w1 (n + 3)%nat = Some (Settled (Fulfilled VUndefined)) /\
    run [Advance 2000; Fire i; RunJob k; RunJob k] w1 = Some w2 /\
    emitted w2 = emitted w ++ [EvStopped] /\
    timers w2 = timers w /\
    jobs w2 = jobs w /\
    state_of w2 n = Some (Settled (Fulfilled VUndefined)).
Proof.
  destruct_world w. intros ->.
  eexists. eexists. split. { run_go. }
  norm. repeat (split; [reflexivity|]).
  split. { run_go. }
  norm. repeat (split; [reflexivity|]). reflexivity.
Qed.

Lemma stop_twice_stops_once_witness :
  exists w1 w2,
    run [CallStop; CallStop] active_world = Some w1 /\
    emitted w1 = [EvStarting] /\
    run [Advance 2000; Fire 1%nat; RunJob 0%nat; RunJob 0%nat] w1 = Some w2 /\
    emitted w2 = [EvStarting; EvStopped].
Proof.
  destruct (stop_twice_stops_once active_world eq_refl)
    as (w1 & w2 & H1 & _ & _ & H2 & _ & _ & _ & H3 & H4 & _).
  exists w1, w2. split; [exact H1|]. split; [exact H2|]. split; [exact H3 | exact H4].
Defined.

(** X11. When the node gets connected and no session is in progress,
    [stop()] has nothing to stop and the reaction of its promise calls
    [start()].  With no session promise left this starts a session:
    [starting] is emitted, the fields are set, the listener of the skip
    signal is registered and the first tick is armed.  With a session
    promise still there (that of a [start()] made without connection,
    whose reactions have not run yet) [start()] only warns and returns
    that promise: no session is started for the connection. *)
Theorem reconnect_when_idle (w : world) :
  _syncInProgress (this w) = false ->
  let n := length (heap w) in
  let k := length (jobs w) in
  (_syncPromise (this w) = None ->
   isIpcConnected w = true ->
   exists w',
     run [NodeState CONNECTED; RunJob k] w = Some w' /\
     emitted w' = emitted w ++ [EvStarting] /\
     this w' =
       Build_NodeSync (Some (n + 6)%nat) true (Some (n + 3)%nat) (Some (n + 3)%nat) /\
     skipListeners w' = S (skipListeners w) /\
     timers w' = timers w ++ [(clock w + 2000, TTick)] /\
     inflight w' = inflight w /\
     jobs w' = jobs w /\
     state_of w' (n + 6)%nat = Some Pending)
  /\
  (forall p,
   _syncPromise (this w) = Some p ->
   exists w',
     run [NodeState CONNECTED; RunJob k] w = Some w' /\
     emitted w' = emitted w /\
     this w' = this w /\
     skipListeners w' = skipListeners w /\
     timers w' = timers w /\
     inflight w' = inflight w /\
     jobs w' = jobs w /\
     logged w' =
       logged w ++
       [(Info, "Foicoin node connected, re-start sync");
        (Debug, "Sync not already in progress.");
        (Warn, "Sync already in progress, returning Promise")]).
Proof.
  destruct_world w. intros ->. split.
  - intros -> ->. eexists. split. { run_go. }
    norm. repeat (split; [reflexivity|]). reflexivity.
  - intros p ->. eexists. split. { run_go. }
    norm. repeat (split; [reflexivity|]). reflexivity.
Qed.

Lemma reconnect_when_idle_witness :
  (exists w',
     run [NodeState CONNECTED; RunJob 0%nat] connected_world = Some w' /\
     emitted w' = [EvStarting])
  /\
  (exists w',
     run [NodeState CONNECTED; RunJob 1%nat] (exec start init) = Some w' /\
     emitted w' = [] /\
     this w' = this (exec start init)).
Proof.
  split.
  - destruct (proj1 (reconnect_when_idle connected_world eq_refl) eq_refl eq_refl)
      as (w' & H1 & H2 & _).
    exists w'. split; [exact H1 | exact H2].
  - destruct (proj2 (reconnect_when_idle (exec start init) eq_refl) 3%nat eq_refl)
      as (w' & H1 & H2 & H3 & _).
    exists w'. split; [exact H1|]. split; [exact H2 | exact H3].
Defined.

(** X12. Every [finished] has its [starting].  In every state that the
    monitor can reach, and at every point of the trace of the events it
    has emitted so far, there have been at least as many [starting]
    events as [finished] events: [finished] is never emitted for a
    session that did not announce its start, and the [finished] events
    never outnumber the sessions that were started, whatever replies,
    skip signals, stops and restarts occur. *)
Theorem finished_has_its_starting (w : world) :
  reachable w ->
  forall l1 l2,
    emitted w = l1 ++ l2 ->
    (count is_finished l1 <= count is_starting l1)%nat.
Proof.
  intros [acts Hrun].
  assert (H : finish_budget w).
  { apply (run_kept finish_budget budget_step acts init w Hrun). split.
    - intros l1 l2 Heq. cbn in Heq. symmetry in Heq.
      apply app_eq_nil in Heq as [-> _]. apply Nat.le_refl.
    - cbn. apply Nat.le_refl. }
  exact (proj1 H).
Qed.

Lemma finished_has_its_starting_witness :
  emitted (after [SetConnected true; CallStart; SkipSync; RunJob 0%nat; RunJob 0%nat;
                  RunJob 0%nat; RunJob 0%nat; CallStart] init)
    = [EvStarting; EvFinished; EvStarting]
  /\
  (count is_finished [EvStarting; EvFinished] <= count is_starting [EvStarting; EvFinished])%nat.
Proof.
  assert (He : emitted (after [SetConnected true; CallStart; SkipSync; RunJob 0%nat;
                               RunJob 0%nat; RunJob 0%nat; RunJob 0%nat; CallStart] init)
               = [EvStarting; EvFinished] ++ [EvStarting]) by (vm_compute; reflexivity).
  split; [exact He|].
  refine (finished_has_its_starting _ _ [EvStarting; EvFinished] [EvStarting] He).
  exists [SetConnected true; CallStart; SkipSync; RunJob 0%nat; RunJob 0%nat;
          RunJob 0%nat; RunJob 0%nat; CallStart].
  vm_compute. reflexivity.
Defined.
